(** * The command relay of the Chrome DevTools MCP server

    A shallow embedding of [mcp-server.js]: the telemetry buffers filled by
    [POST /devtools-data], the command queue shared by
    [sendCommandToExtension], [GET /poll-commands], [POST /command-result]
    and the cleanup interval, and the three telemetry query tools.

    The server is a single-threaded event loop.  Every handler, timer
    callback and stretch of an async function between two [await]s runs to
    completion without interleaving; the model executes one such run per
    event, at the time the event carries (every [Date.now()] of the run reads
    that time). *)

From stdpp Require Import base list strings gmap.
From Stdlib Require Import ZArith Lia.

Local Open Scope Z_scope.

(** ** JavaScript values *)

Module Js.

(** The values a parsed JSON body or tool argument can hold, plus
    [undefined] for an absent property.  Numbers are the integer-valued
    ones (command ids, tab ids, limits, times). *)
#[warnings="-register-all"]
Inductive Val :=
| Undefined
| Null
| Bool (b : bool)
| Num (n : Z)
| Str (s : string)
| Arr (items : list Val)
| Obj (fields : list (string * Val)).

(** ToBoolean. *)
Definition truthy (v : Val) : bool :=
  match v with
  | Undefined | Null => false
  | Bool b => b
  | Num n => negb (n =? 0)
  | Str s => negb (String.eqb s EmptyString)
  | Arr _ | Obj _ => true
  end.

(** [a || b]. *)
Definition or_else (a b : Val) : Val := if truthy a then a else b.

(** Own property of an object literal or parsed object. *)
Fixpoint field (k : string) (fs : list (string * Val)) : Val :=
  match fs with
  | [] => Undefined
  | (k', v) :: fs' => if String.eqb k' k then v else field k fs'
  end.

(** [v.k]: [None] is the TypeError raised on [undefined] and [null];
    the primitives and arrays have no such own property. *)
Definition prop (v : Val) (k : string) : option Val :=
  match v with
  | Undefined | Null => None
  | Obj fs => Some (field k fs)
  | _ => Some Undefined
  end.

(** [v?.k]. *)
Definition opt_prop (v : Val) (k : string) : Val :=
  match prop v k with
  | Some x => x
  | None => Undefined
  end.

(** [Array.prototype.slice(start)] with [end] omitted. *)
Definition slice_from {A} (start : Z) (l : list A) : list A :=
  let len := Z.of_nat (length l) in
  let k := if start <? 0 then Z.max (len + start) 0 else Z.min start len in
  drop (Z.to_nat k) l.

(** [String.prototype.includes]. *)
Fixpoint includes (s sub : string) : bool :=
  String.prefix sub s ||
  match s with
  | EmptyString => false
  | String _ s' => includes s' sub
  end.

End Js.

(** ** A JavaScript [Map] with number keys

    Entries are kept in insertion order, the order [values()] and
    [entries()] iterate in. *)

Module JsMap.

Section Ops.
Context {V : Type}.

Definition empty : list (Z * V) := [].

Fixpoint get (k : Z) (m : list (Z * V)) : option V :=
  match m with
  | [] => None
  | (k', v) :: m' => if bool_decide (k' = k) then Some v else get k m'
  end.

(** [set] on a present key replaces the value where it stands, on an
    absent one appends. *)
Fixpoint set (k : Z) (v : V) (m : list (Z * V)) : list (Z * V) :=
  match m with
  | [] => [(k, v)]
  | (k', v') :: m' =>
      if bool_decide (k' = k) then (k, v) :: m' else (k', v') :: set k v m'
  end.

Definition delete (k : Z) (m : list (Z * V)) : list (Z * V) :=
  filter (λ kv, kv.1 ≠ k) m.

Definition values (m : list (Z * V)) : list V := snd <$> m.

Definition entries (m : list (Z * V)) : list (Z * V) := m.

Definition keys (m : list (Z * V)) : list Z := fst <$> m.

End Ops.

End JsMap.

(** ** Server state *)

Inductive Status := pending | completed | error.

Global Instance Status_eq_dec : EqDecision Status.
Proof. solve_decision. Defined.

(** [commandId -> { action, params, timestamp, status, result }] *)
Record Command := mkCommand {
  id : Z;
  action : string;
  params : Js.Val;
  timestamp : Z;
  status : Status;
  result : Js.Val;
}.

Record DevToolsData := mkDevToolsData {
  networkRequests : list Js.Val;
  consoleLogs : list Js.Val;
  performanceMetrics : list Js.Val;
  lastUpdate : option Z;   (* the time whose ISO string is stored; [None] is null *)
}.

(** The module-level state, and [sleeping]: the calls of
    [sendCommandToExtension] suspended in their [await], each holding its
    locals [commandId] (the key) and [startTime]. *)
Record Server := mkServer {
  devToolsData : DevToolsData;
  commandQueue : list (Z * Command);
  commandIdCounter : Z;
  sleeping : gmap Z Z;
}.

Definition initial : Server :=
  {| devToolsData := mkDevToolsData [] [] [] None;
     commandQueue := JsMap.empty;
     commandIdCounter := 0;
     sleeping := ∅ |}.

Definition with_data (d : DevToolsData) (s : Server) : Server :=
  mkServer d (commandQueue s) (commandIdCounter s) (sleeping s).

Definition with_queue (q : list (Z * Command)) (s : Server) : Server :=
  mkServer (devToolsData s) q (commandIdCounter s) (sleeping s).

(** ** [POST /devtools-data] *)

(** [buf.push(data); if (buf.length > cap) buf = buf.slice(-cap)] *)
Definition push_capped (cap : Z) (data : Js.Val) (buf : list Js.Val) : list Js.Val :=
  let buf' := buf ++ [data] in
  if Z.of_nat (length buf') >? cap then Js.slice_from (- cap) buf' else buf'.

Definition network_cap : Z := 5000.
Definition console_cap : Z := 5000.
Definition performance_cap : Z := 500.

Definition strict_eq_str (v : Js.Val) (s : string) : bool :=
  match v with
  | Js.Str s' => String.eqb s' s
  | _ => false
  end.

Definition devtools_data (now : Z) (type data : Js.Val) (d : DevToolsData) : DevToolsData :=
  let d' :=
    if strict_eq_str type "network" then
      mkDevToolsData (push_capped network_cap data (networkRequests d))
                     (consoleLogs d) (performanceMetrics d) (lastUpdate d)
    else if strict_eq_str type "console" then
      mkDevToolsData (networkRequests d)
                     (push_capped console_cap data (consoleLogs d))
                     (performanceMetrics d) (lastUpdate d)
    else if strict_eq_str type "performance" then
      mkDevToolsData (networkRequests d) (consoleLogs d)
                     (push_capped performance_cap data (performanceMetrics d))
                     (lastUpdate d)
    else d in
  mkDevToolsData (networkRequests d') (consoleLogs d') (performanceMetrics d') (Some now).

(** ** [sendCommandToExtension] *)

Inductive Outcome :=
| Returned (v : Js.Val)      (* [return v] *)
| ThrewError (arg : Js.Val)  (* [throw new Error(arg)]; the message of a string [arg] is [arg] *)
| ThrewTypeError.            (* reading [status] of [undefined] *)

Inductive Loop :=
| Sleep                      (* [await new Promise(resolve => setTimeout(resolve, 100))] *)
| Done (o : Outcome).

Definition timeout : Z := 30000.

(** The prologue of the function, up to the loop. *)
Definition enqueue (now : Z) (act : string) (par : Js.Val) (s : Server) : Z * Server :=
  let commandId := commandIdCounter s + 1 in
  let command :=
    {| id := commandId; action := act;
       params := match par with Js.Undefined => Js.Obj [] | _ => par end;
       timestamp := now; status := pending; result := Js.Null |} in
  (commandId,
   mkServer (devToolsData s) (JsMap.set commandId command (commandQueue s))
            commandId (sleeping s)).

(** One evaluation of the loop condition and, when it holds, of the loop
    body up to the [await]; when it fails, the code after the loop. *)
Definition loop_turn (now commandId startTime : Z) (q : list (Z * Command))
  : list (Z * Command) * Loop :=
  if now - startTime <? timeout then
    match JsMap.get commandId q with
    | None => (q, Done ThrewTypeError)
    | Some cmd =>
        match status cmd with
        | completed => (JsMap.delete commandId q, Done (Returned (result cmd)))
        | error =>
            (JsMap.delete commandId q,
             Done (ThrewError (Js.or_else (Js.opt_prop (result cmd) "error")
                                          (Js.Str "Command failed"))))
        | pending => (q, Sleep)
        end
    end
  else (JsMap.delete commandId q, Done (ThrewError (Js.Str "Command timeout"))).

(** ** [GET /poll-commands] *)

Record Polled := mkPolled {
  polled_id : Z;
  polled_action : string;
  polled_params : Js.Val;
}.

Definition poll_commands (q : list (Z * Command)) : list Polled :=
  (λ cmd, mkPolled (id cmd) (action cmd) (params cmd))
    <$> filter (λ cmd, status cmd = pending) (JsMap.values q).

(** ** [POST /command-result] *)

Record ResultBody := mkResultBody {
  body_commandId : Js.Val;
  body_success : Js.Val;
  body_result : Js.Val;
  body_error : Js.Val;
}.

(** [commandQueue.get(k)] for an arbitrary value [k]: the keys are numbers. *)
Definition queue_get (k : Js.Val) (q : list (Z * Command)) : option (Z * Command) :=
  match k with
  | Js.Num n => (λ cmd, (n, cmd)) <$> JsMap.get n q
  | _ => None
  end.

(** The handler assigns to the two fields of the object the map holds. *)
Definition command_result (b : ResultBody) (q : list (Z * Command)) : list (Z * Command) :=
  match queue_get (body_commandId b) q with
  | Some (n, command) =>
      let ok := Js.truthy (body_success b) in
      JsMap.set n
        {| id := id command; action := action command; params := params command;
           timestamp := timestamp command;
           status := if ok then completed else error;
           result := if ok then body_result b
                     else Js.Obj [("error"%string, body_error b)] |}
        q
  | None => q
  end.

(** ** The cleanup interval *)

Definition maxAge : Z := 60000.

(** [for (const [id, cmd] of commandQueue.entries()) if (...) commandQueue.delete(id)]:
    deleting the entry under the iterator does not disturb the iteration, so
    each entry of the map is visited once. *)
Definition cleanup (now : Z) (q : list (Z * Command)) : list (Z * Command) :=
  foldl (λ q' '(k, cmd),
           if now - timestamp cmd >? maxAge then JsMap.delete k q' else q')
        q (JsMap.entries q).

(** ** [GET /status] *)

Record StatusReport := mkStatusReport {
  status_networkRequests : nat;
  status_consoleLogs : nat;
  status_performanceMetrics : nat;
  status_lastUpdate : option Z;
  status_pendingCommands : nat;
}.

Definition status_report (s : Server) : StatusReport :=
  let d := devToolsData s in
  {| status_networkRequests := length (networkRequests d);
     status_consoleLogs := length (consoleLogs d);
     status_performanceMetrics := length (performanceMetrics d);
     status_lastUpdate := lastUpdate d;
     status_pendingCommands :=
       length (filter (λ c, status c = pending) (JsMap.values (commandQueue s))) |}.

(** ** The telemetry query tools

    The arguments are those their input schemas declare: numbers
    [tab_id] and [limit], strings [url_filter] and [level_filter], each
    optional ([None] is an absent property). *)

Record QueryArgs := mkQueryArgs {
  arg_tab_id : option Z;
  arg_limit : option Z;
  arg_url_filter : option string;
  arg_level_filter : option string;
}.

(** [x || d] for an optional number. *)
Definition number_or (x : option Z) (d : Z) : Z :=
  match x with
  | Some n => if n =? 0 then d else n
  | None => d
  end.

(** The guard [if (x)] for an optional number and an optional string: the
    value when it is truthy. *)
Definition truthy_number (x : option Z) : option Z :=
  match x with
  | Some n => if n =? 0 then None else Some n
  | None => None
  end.

Definition truthy_string (x : option string) : option string :=
  match x with
  | Some s => if String.eqb s EmptyString then None else Some s
  | None => None
  end.

(** [Array.prototype.filter] with a callback that may throw ([None]). *)
Fixpoint filter_try {A} (p : A → option bool) (l : list A) : option (list A) :=
  match l with
  | [] => Some []
  | x :: l' =>
      match p x with
      | None => None
      | Some b =>
          match filter_try p l' with
          | None => None
          | Some r => Some (if b then x :: r else r)
          end
      end
  end.

(** [rec => rec.tabId === tabId] *)
Definition tab_is (tabId : Z) (rec : Js.Val) : option bool :=
  match Js.prop rec "tabId" with
  | None => None
  | Some (Js.Num n) => Some (bool_decide (n = tabId))
  | Some _ => Some false
  end.

(** [log => log.level === levelFilter] *)
Definition level_is (levelFilter : string) (log : Js.Val) : option bool :=
  match Js.prop log "level" with
  | None => None
  | Some v => Some (strict_eq_str v levelFilter)
  end.

(** The object the reply serialises: [total], [filtered] (or [returned]),
    [tabId || 'all'] ([None] is ['all']), [lastUpdate] and the records. *)
Record QueryResult := mkQueryResult {
  query_total : nat;
  query_count : nat;
  query_tabId : option Z;
  query_lastUpdate : option Z;
  query_items : list Js.Val;
}.

Definition answer (args : QueryArgs) (d : DevToolsData) (buffer items : list Js.Val)
  : QueryResult :=
  {| query_total := length buffer;
     query_count := length items;
     query_tabId := truthy_number (arg_tab_id args);
     query_lastUpdate := lastUpdate d;
     query_items := items |}.

(** The optional filtering step [if (x) items = items.filter(p x)]. *)
Definition filter_when {X} (x : option X) (p : X → Js.Val → option bool)
  (items : list Js.Val) : option (list Js.Val) :=
  match x with
  | Some a => filter_try (p a) items
  | None => Some items
  end.

Section Queries.

(** [String.prototype.toLowerCase], a built-in of the language. *)
Variable toLowerCase : string → string.

(** [req => req.url?.toLowerCase().includes(urlFilter.toLowerCase())];
    a [url] that is neither absent nor a string has no [toLowerCase]. *)
Definition url_has (urlFilter : string) (req : Js.Val) : option bool :=
  match Js.prop req "url" with
  | None => None
  | Some (Js.Undefined | Js.Null) => Some false
  | Some (Js.Str u) => Some (Js.includes (toLowerCase u) (toLowerCase urlFilter))
  | Some _ => None
  end.

(** The three handlers return [None] when a filter callback throws: the
    [catch] of the tool-call handler turns that into an error reply. *)
Definition get_network_requests (args : QueryArgs) (d : DevToolsData) : option QueryResult :=
  let limit := number_or (arg_limit args) 50 in
  requests ← filter_when (truthy_number (arg_tab_id args)) tab_is (networkRequests d);
  requests ← filter_when (truthy_string (arg_url_filter args)) url_has requests;
  Some (answer args d (networkRequests d) (Js.slice_from (- limit) requests)).

Definition get_console_logs (args : QueryArgs) (d : DevToolsData) : option QueryResult :=
  let limit := number_or (arg_limit args) 50 in
  logs ← filter_when (truthy_number (arg_tab_id args)) tab_is (consoleLogs d);
  logs ← filter_when (truthy_string (arg_level_filter args)) level_is logs;
  Some (answer args d (consoleLogs d) (Js.slice_from (- limit) logs)).

Definition get_performance_metrics (args : QueryArgs) (d : DevToolsData) : option QueryResult :=
  let limit := number_or (arg_limit args) 20 in
  metrics ← filter_when (truthy_number (arg_tab_id args)) tab_is (performanceMetrics d);
  Some (answer args d (performanceMetrics d) (Js.slice_from (- limit) metrics)).

End Queries.

(** [clear_devtools_data]: with a tab id the three buffers are filtered one
    after the other, and a callback that throws leaves the buffers assigned
    so far filtered; [lastUpdate] is reset only when none throws. *)
Definition tab_is_not (tabId : Z) (rec : Js.Val) : option bool :=
  negb <$> tab_is tabId rec.

Definition clear_devtools_data (args : QueryArgs) (d : DevToolsData) : DevToolsData :=
  match truthy_number (arg_tab_id args) with
  | Some tabId =>
      match filter_try (tab_is_not tabId) (networkRequests d) with
      | None => d
      | Some n =>
          match filter_try (tab_is_not tabId) (consoleLogs d) with
          | None => mkDevToolsData n (consoleLogs d) (performanceMetrics d) (lastUpdate d)
          | Some c =>
              match filter_try (tab_is_not tabId) (performanceMetrics d) with
              | None => mkDevToolsData n c (performanceMetrics d) (lastUpdate d)
              | Some p => mkDevToolsData n c p None
              end
          end
      end
  | None => mkDevToolsData [] [] [] None
  end.

(** ** The event loop

    What the server is sent and what its timers do, one run of code each.
    The three query tools only read the buffers and are no events here. *)

Inductive Event :=
| PostDevtoolsData (type data : Js.Val)
| GetPollCommands
| PostCommandResult (body : ResultBody)
| GetStatus
| CleanupInterval
| ClearDevtoolsData (args : QueryArgs)
| Send (act : string) (par : Js.Val)   (* a tool handler calls [sendCommandToExtension] *)
| TimerFires (commandId : Z).          (* the 100 ms timer of a suspended call fires *)

Inductive Reply :=
| Acknowledged                         (* [res.json({ success: true })] *)
| Commands (l : list Polled)
| StatusIs (r : StatusReport)
| Nothing
| Sleeps (commandId : Z)
| Finished (commandId : Z) (o : Outcome).

(** A call of [sendCommandToExtension] runs from its loop condition to its
    next [await], or to its end. *)
Definition resume (now commandId startTime : Z) (s : Server) : Server * Reply :=
  let '(q, l) := loop_turn now commandId startTime (commandQueue s) in
  match l with
  | Sleep =>
      (mkServer (devToolsData s) q (commandIdCounter s)
                (<[commandId := startTime]> (sleeping s)),
       Sleeps commandId)
  | Done o =>
      (mkServer (devToolsData s) q (commandIdCounter s)
                (delete commandId (sleeping s)),
       Finished commandId o)
  end.

Definition step (now : Z) (e : Event) (s : Server) : Server * Reply :=
  match e with
  | PostDevtoolsData type data =>
      (with_data (devtools_data now type data (devToolsData s)) s, Acknowledged)
  | GetPollCommands => (s, Commands (poll_commands (commandQueue s)))
  | PostCommandResult body =>
      (with_queue (command_result body (commandQueue s)) s, Acknowledged)
  | GetStatus => (s, StatusIs (status_report s))
  | CleanupInterval => (with_queue (cleanup now (commandQueue s)) s, Nothing)
  | ClearDevtoolsData args =>
      (with_data (clear_devtools_data args (devToolsData s)) s, Nothing)
  | Send act par =>
      let '(commandId, s') := enqueue now act par s in
      resume now commandId now s'
  | TimerFires commandId =>
      match sleeping s !! commandId with
      | Some startTime => resume now commandId startTime s
      | None => (s, Nothing)
      end
  end.

(** A run of the server on a list of timed events; the replies come in
    the order of the events. *)
Fixpoint run (tr : list (Z * Event)) (s : Server) : Server * list Reply :=
  match tr with
  | [] => (s, [])
  | (now, e) :: tr' =>
      let '(s1, r) := step now e s in
      let '(s2, rs) := run tr' s1 in
      (s2, r :: rs)
  end.

(** The clock does not run backwards: the times of the events, from [t]
    on, do not decrease. *)
Fixpoint chronological (t : Z) (tr : list (Z * Event)) : Prop :=
  match tr with
  | [] => True
  | (now, _) :: tr' => t ≤ now ∧ chronological now tr'
  end.

(** How the call for [commandId] ended, read off the replies. *)
Fixpoint outcome_of (commandId : Z) (rs : list Reply) : option Outcome :=
  match rs with
  | [] => None
  | Finished k o :: rs' =>
      if bool_decide (k = commandId) then Some o else outcome_of commandId rs'
  | _ :: rs' => outcome_of commandId rs'
  end.

(** The event is a result report naming [commandId]. *)
Definition reports (commandId : Z) (e : Event) : Prop :=
  match e with
  | PostCommandResult body => body_commandId body = Js.Num commandId
  | _ => False
  end.

(** ** Auxiliary notions of the statements *)

(** The entry is older than the maximum age at time [now]. *)
Definition expired (now : Z) (kv : Z * Command) : Prop :=
  now - timestamp kv.2 > maxAge.

Global Instance expired_dec now kv : Decision (expired now kv).
Proof. unfold expired. apply _. Defined.

(** The time of the last event of a run that starts at time [t]. *)
Fixpoint end_time (t : Z) (tr : list (Z * Event)) : Z :=
  match tr with
  | [] => t
  | (now, _) :: tr' => end_time now tr'
  end.

(** What every state the server reaches at time [t] satisfies: the map has
    no key twice, the suspended calls hold ids the counter has issued, and a
    call suspended for at most [maxAge] still has its record, stamped with
    the time the call started at. *)
Record consistent (t : Z) (s : Server) : Prop := {
  keys_distinct : NoDup (JsMap.keys (commandQueue s));
  sleepers_issued :
    ∀ k start, sleeping s !! k = Some start → k ≤ commandIdCounter s;
  sleepers_kept :
    ∀ k start, sleeping s !! k = Some start → t - start ≤ maxAge →
      ∃ cmd, JsMap.get k (commandQueue s) = Some cmd ∧ timestamp cmd = start;
}.

(** The projection [{ id, action, params }] the poll endpoint sends. *)
Definition projection (cmd : Command) : Polled :=
  mkPolled (id cmd) (action cmd) (params cmd).



(** The record of command [k], when the map has one, is still pending. *)
Definition unanswered (k : Z) (s : Server) : Prop :=
  ∀ cmd, JsMap.get k (commandQueue s) = Some cmd → status cmd = pending.

(** Call [k] is over: it sleeps no more, its id is spent and its record is
    out of the map. *)
Definition gone (k : Z) (s : Server) : Prop :=
  k ≤ commandIdCounter s
  ∧ JsMap.get k (commandQueue s) = None
  ∧ sleeping s !! k = None.

(** ** Sample inputs *)

Definition click : Event := Send "click_element" (Js.Obj [("selector", Js.Str "#go")]).

Definition success_report (k : Z) (payload : Js.Val) : Event :=
  PostCommandResult (mkResultBody (Js.Num k) (Js.Bool true) payload Js.Undefined).

Definition failure_report (k : Z) (message : Js.Val) : Event :=
  PostCommandResult (mkResultBody (Js.Num k) (Js.Bool false) Js.Undefined message).

Definition clicked : Js.Val := Js.Obj [("clicked", Js.Bool true)].

(** A map with a stale pending record, a fresh completed one and a fresh
    failed one. *)
Definition sample_queue : list (Z * Command) :=
  [ (1, mkCommand 1 "navigate_to" (Js.Obj []) 0 pending Js.Null);
    (2, mkCommand 2 "click_element" (Js.Obj []) 50000 completed clicked);
    (3, mkCommand 3 "fill_input" (Js.Obj []) 100 error
          (Js.Obj [("error", Js.Str "no such element")])) ].

(** A first call that has slept through one firing of its timer. *)
Definition one_sleeping : list (Z * Event) := [(0, click); (100, TimerFires 1)].

(** Traffic that does not concern call 1. *)
Definition unrelated : list (Z * Event) :=
  [ (160, GetPollCommands);
    (170, PostDevtoolsData (Js.Str "console") (Js.Obj [("level", Js.Str "warn")]));
    (180, CleanupInterval) ].


(** A run in which the clock is set back by more than the maximum age
    between the cleanup and the firing of the timer. *)
Definition clock_set_back : list (Z * Event) :=
  [(100000, click); (170001, CleanupInterval); (100100, TimerFires 1)].

(** ** Further notions: ids, owners of records, what was pushed *)

(** The event starts a call of [sendCommandToExtension]. *)
Definition is_send (te : Z * Event) : Prop :=
  match te.2 with
  | Send _ _ => True
  | _ => False
  end.

Global Instance is_send_dec te : Decision (is_send te).
Proof. unfold is_send. destruct (te.2); apply _. Defined.

(** The command id a reply speaks of, when it speaks of one. *)
Definition reply_id (r : Reply) : option Z :=
  match r with
  | Sleeps k | Finished k _ => Some k
  | _ => None
  end.

(** What every reachable state satisfies, whatever the clock does: the map
    has no key twice, ids in use are positive and issued, and every record
    in the map is that of a suspended call, filed under its own id and
    stamped with the time the call started at. *)
Record tidy (s : Server) : Prop := {
  tidy_keys : NoDup (JsMap.keys (commandQueue s));
  tidy_counter : 0 ≤ commandIdCounter s;
  tidy_sleepers :
    ∀ k start, sleeping s !! k = Some start → 1 ≤ k ≤ commandIdCounter s;
  tidy_owner :
    ∀ k cmd, JsMap.get k (commandQueue s) = Some cmd →
      sleeping s !! k = Some (timestamp cmd) ∧ id cmd = k;
}.

(** The event clears telemetry. *)
Definition is_clear (te : Z * Event) : Prop :=
  match te.2 with
  | ClearDevtoolsData _ => True
  | _ => False
  end.

Global Instance is_clear_dec te : Decision (is_clear te).
Proof. unfold is_clear. destruct (te.2); apply _. Defined.

(** The data an event pushes under the type [type], if it does. *)
Definition pushed_by (type : string) (te : Z * Event) : option Js.Val :=
  match te.2 with
  | PostDevtoolsData ty data => if strict_eq_str ty type then Some data else None
  | _ => None
  end.

(** The data pushed under [type] in a run, in the order of arrival. *)
Definition pushed (type : string) (tr : list (Z * Event)) : list Js.Val :=
  omap (pushed_by type) tr.

(** [undefined] and [null], the values whose properties cannot be read. *)
Definition nullish (v : Js.Val) : bool :=
  match v with
  | Js.Undefined | Js.Null => true
  | _ => false
  end.

(** The record carries the tab id [t]: [rec.tabId === t]. *)
Definition of_tab (t : Z) (rec : Js.Val) : Prop := tab_is t rec = Some true.

Global Instance of_tab_dec t rec : Decision (of_tab t rec).
Proof. unfold of_tab. apply _. Defined.

(** A run that polls, starts a second call and sweeps, for the samples. *)
Definition second_call_polled : list (Z * Event) :=
  [(300, GetPollCommands); (350, TimerFires 2); (400, CleanupInterval)].

(** The value is neither absent nor a string: it has no [toLowerCase]. *)
Definition not_lowerable (v : Js.Val) : bool :=
  match v with
  | Js.Undefined | Js.Null | Js.Str _ => false
  | _ => true
  end.

(** Pushes of two tabs and of a type the server does not keep, among other
    traffic. *)
Definition mixed_traffic : list (Z * Event) :=
  [ (10, PostDevtoolsData (Js.Str "network") (Js.Obj [("tabId", Js.Num 7)]));
    (20, PostDevtoolsData (Js.Str "tab_attached") (Js.Obj [("tabId", Js.Num 7)]));
    (30, click);
    (40, PostDevtoolsData (Js.Str "console") (Js.Obj [("tabId", Js.Num 8)]));
    (50, GetStatus);
    (60, PostDevtoolsData (Js.Str "network") (Js.Obj [("tabId", Js.Num 8)])) ].

(** Buffers with records of two tabs; the console buffer also holds a
    [null]. *)
Definition two_tabs : DevToolsData :=
  mkDevToolsData
    [ Js.Obj [("tabId", Js.Num 7); ("url", Js.Str "https://a.example/api")];
      Js.Obj [("tabId", Js.Num 8); ("url", Js.Str "https://b.example/")];
      Js.Obj [("tabId", Js.Num 7); ("url", Js.Num 404)] ]
    [ Js.Obj [("tabId", Js.Num 7); ("level", Js.Str "error")]; Js.Null ]
    [ Js.Obj [("tabId", Js.Num 8)] ]
    (Some 60).


(** A filter that applies only when its argument is given. *)
Definition when_given {X} (x : option X) (P : X → Js.Val → Prop) (v : Js.Val) : Prop :=
  match x with
  | Some a => P a v
  | None => True
  end.

Global Instance when_given_dec {X} (x : option X) (P : X → Js.Val → Prop)
  `{!∀ a v, Decision (P a v)} v : Decision (when_given x P v).
Proof. destruct x; simpl; apply _. Defined.

(** The record has a string [url] that contains [f], letter case aside. *)
Definition url_matches (toLowerCase : string → string) (f : string) (v : Js.Val) : Prop :=
  url_has toLowerCase f v = Some true.

Global Instance url_matches_dec lower f v : Decision (url_matches lower f v).
Proof. unfold url_matches. apply _. Defined.

(** The record has the level [f]. *)
Definition level_matches (f : string) (v : Js.Val) : Prop := level_is f v = Some true.

Global Instance level_matches_dec f v : Decision (level_matches f v).
Proof. unfold level_matches. apply _. Defined.

(** The records a query selects, before the limit is applied. *)
Definition network_match (toLowerCase : string → string) (args : QueryArgs)
  (v : Js.Val) : Prop :=
  when_given (truthy_number (arg_tab_id args)) of_tab v
  ∧ when_given (truthy_string (arg_url_filter args)) (url_matches toLowerCase) v.

Definition console_match (args : QueryArgs) (v : Js.Val) : Prop :=
  when_given (truthy_number (arg_tab_id args)) of_tab v
  ∧ when_given (truthy_string (arg_level_filter args)) level_matches v.

Definition performance_match (args : QueryArgs) (v : Js.Val) : Prop :=
  when_given (truthy_number (arg_tab_id args)) of_tab v.

Global Instance network_match_dec lower args v : Decision (network_match lower args v).
Proof. unfold network_match. apply _. Defined.

Global Instance console_match_dec args v : Decision (console_match args v).
Proof. unfold console_match. apply _. Defined.

Global Instance performance_match_dec args v : Decision (performance_match args v).
Proof. unfold performance_match. apply _. Defined.

(** ** Tool calls

    The handler of [CallToolRequestSchema]: the conversion of argument
    names, the routing of the tool name, and what is made of the outcome of
    [sendCommandToExtension].  The arguments are an object, given by its own
    properties in the order [Object.entries] lists them; a string is the
    sequence of its bytes, among which [_] and the letters [a] to [z] are
    bytes of their own. *)

(** The class [[a-z]]. *)
Definition is_lower (c : Ascii.ascii) : bool :=
  ((97 <=? Ascii.N_of_ascii c) && (Ascii.N_of_ascii c <=? 122))%N.

(** The character [_], code 95. *)
Definition underscore : Ascii.ascii := Ascii.ascii_of_N 95.

(** [letter.toUpperCase()] for a letter of that class. *)
Definition to_upper (c : Ascii.ascii) : Ascii.ascii :=
  Ascii.ascii_of_N (Ascii.N_of_ascii c - 32).

(** [key.replace(/_([a-z])/g, (_, letter) => letter.toUpperCase())]: the
    matches are found from left to right and do not overlap. *)
Fixpoint camel_key (s : string) : string :=
  match s with
  | EmptyString => EmptyString
  | String c s' =>
      if Ascii.eqb c underscore then
        match s' with
        | String d s'' =>
            if is_lower d then String (to_upper d) (camel_key s'')
            else String c (camel_key s')
        | EmptyString => String c EmptyString
        end
      else String c (camel_key s')
  end.

(** [obj[k] = v] on an object without that accessor: an own property keeps
    its place, a new one comes last. *)
Fixpoint set_field (k : string) (v : Js.Val) (fs : list (string * Js.Val))
  : list (string * Js.Val) :=
  match fs with
  | [] => [(k, v)]
  | (k', v') :: fs' =>
      if String.eqb k' k then (k, v) :: fs' else (k', v') :: set_field k v fs'
  end.

(** [for (const [key, value] of Object.entries(args)) camelCaseArgs[camelKey] = value] *)
Definition camel_case_args (args : list (string * Js.Val)) : list (string * Js.Val) :=
  foldl (λ o '(key, value), set_field (camel_key key) value o) [] args.

Definition is_undefined (v : Js.Val) : bool :=
  match v with
  | Js.Undefined => true
  | _ => false
  end.

(** [toolConfig.args.map(argName => args[argName]).filter(arg => arg !== undefined)] *)
Definition method_args (argNames : list string) (args : list (string * Js.Val))
  : list Js.Val :=
  filter (λ v, is_undefined v = false) ((λ a, Js.field a args) <$> argNames).

(** The names of the [case] labels of the handler, by group. *)
Definition data_tools : list string :=
  [ "get_network_requests"; "get_console_logs"; "get_performance_metrics";
    "clear_devtools_data" ].

Definition screenshot_tools : list string :=
  [ "capture_screenshot"; "capture_element_screenshot" ].

Definition command_tools : list string :=
  [ "create_tab"; "list_tabs"; "close_tab"; "get_tab"; "navigate_to";
    "navigate_back"; "navigate_forward"; "reload_tab"; "attach_debugger";
    "detach_debugger"; "list_attached_tabs"; "execute_script"; "click_element";
    "fill_input"; "get_element_text"; "wait_for_element"; "scroll_to";
    "inspect_element"; "list_extensions"; "get_extension_info"; "reload_extension";
    "get_manifest"; "get_service_worker_logs"; "clear_service_worker_logs";
    "list_external_extensions"; "get_external_extension_logs";
    "clear_external_extension_logs" ].

(** The table [utilityTools]: tool name, utility, method, argument names. *)
Definition utilityTools : list (string * (string * string * list string)) :=
  [ ("query_selector_all", ("DOMUtilities", "querySelectorAll", ["selector"]));
    ("xpath_query", ("DOMUtilities", "xpathQuery", ["xpath"]));
    ("get_elements_by_attribute",
       ("DOMUtilities", "getElementsByAttribute", ["attribute"; "value"]));
    ("find_elements_by_text",
       ("DOMUtilities", "findElementsByText", ["text"; "exact_match"; "tag"]));
    ("get_parent_element", ("DOMUtilities", "getParentElement", ["selector"; "levels"]));
    ("get_sibling_elements",
       ("DOMUtilities", "getSiblingElements", ["selector"; "direction"]));
    ("get_child_elements",
       ("DOMUtilities", "getChildElements", ["selector"; "direct_only"]));
    ("extract_structured_data",
       ("DOMUtilities", "extractStructuredData",
        ["container_selector"; "item_selector"; "schema"]));
    ("get_computed_styles",
       ("DOMUtilities", "getComputedStyles", ["selector"; "properties"]));
    ("get_all_links", ("DOMUtilities", "getAllLinks", ["filters"]));
    ("get_all_images", ("DOMUtilities", "getAllImages", ["filters"]));
    ("extract_json_ld", ("DOMUtilities", "extractJsonLd", []));
    ("get_element_path", ("DOMUtilities", "getElementPath", ["selector"]));
    ("validate_selector", ("DOMUtilities", "validateSelector", ["selector"]));
    ("highlight_element",
       ("DOMUtilities", "highlightElement", ["selector"; "color"; "duration"]));
    ("hover_element", ("InteractionUtilities", "hoverElement", ["selector"; "duration"]));
    ("drag_and_drop",
       ("InteractionUtilities", "dragAndDrop",
        ["source_selector"; "target_selector"; "duration"]));
    ("type_with_delay",
       ("InteractionUtilities", "typeWithDelay", ["selector"; "text"; "delay_ms"; "clear"]));
    ("select_dropdown_option",
       ("InteractionUtilities", "selectDropdownOption",
        ["selector"; "option_value"; "match_by"]));
    ("trigger_event",
       ("InteractionUtilities", "triggerEvent", ["selector"; "event_type"; "event_options"]));
    ("fill_form_batch",
       ("InteractionUtilities", "fillFormBatch", ["form_data"; "delay_between_fields"]));
    ("bulk_click_elements",
       ("InteractionUtilities", "bulkClickElements", ["selectors"; "delay_between_clicks"]));
    ("auto_scroll_to_bottom",
       ("InteractionUtilities", "autoScrollToBottom",
        ["scroll_delay"; "max_scrolls"; "container_selector"]));
    ("smart_wait", ("InteractionUtilities", "smartWait", ["timeout"]));
    ("extract_table_data", ("ExtractionUtilities", "extractTableData", ["selector"; "options"]));
    ("extract_list_data", ("ExtractionUtilities", "extractListData", ["selector"; "options"]));
    ("get_page_context", ("ExtractionUtilities", "getPageContext", []));
    ("extract_form_data", ("ExtractionUtilities", "extractFormData", ["form_selector"]));
    ("get_local_storage", ("ExtractionUtilities", "getLocalStorage", []));
    ("get_session_storage", ("ExtractionUtilities", "getSessionStorage", []));
    ("wait_for_element_advanced",
       ("ObserverUtilities", "waitForElement", ["selector"; "options"]));
    ("wait_for_condition",
       ("ObserverUtilities", "waitForCondition", ["condition_function"; "options"]));
    ("wait_for_ajax", ("ObserverUtilities", "waitForAjax", ["options"]));
    ("wait_for_text", ("ObserverUtilities", "waitForText", ["text"; "options"]));
    ("wait_for_url_change", ("ObserverUtilities", "waitForUrlChange", ["options"]));
    ("wait_for_images", ("ObserverUtilities", "waitForImages", ["selector"; "timeout"])) ].

(** The members of [Object.prototype], which [utilityTools[name]] finds
    when the table has no such entry. *)
Definition object_prototype : list string :=
  [ "constructor"; "__defineGetter__"; "__defineSetter__"; "hasOwnProperty";
    "__lookupGetter__"; "__lookupSetter__"; "isPrototypeOf"; "propertyIsEnumerable";
    "toString"; "valueOf"; "__proto__"; "toLocaleString" ].

(** The tools [ListToolsRequestSchema] advertises, in their order. *)
Definition advertised : list string :=
  [ "create_tab"; "list_tabs"; "close_tab"; "get_tab"; "navigate_to";
    "navigate_back"; "navigate_forward"; "reload_tab"; "attach_debugger";
    "detach_debugger"; "list_attached_tabs"; "get_network_requests";
    "get_console_logs"; "get_performance_metrics"; "clear_devtools_data";
    "execute_script"; "capture_screenshot"; "capture_element_screenshot";
    "click_element"; "fill_input"; "get_element_text"; "wait_for_element";
    "scroll_to"; "inspect_element"; "list_extensions"; "get_extension_info";
    "reload_extension"; "get_manifest"; "get_service_worker_logs";
    "clear_service_worker_logs"; "list_external_extensions";
    "get_external_extension_logs"; "clear_external_extension_logs";
    "query_selector_all"; "xpath_query"; "get_elements_by_attribute";
    "find_elements_by_text"; "get_parent_element"; "get_sibling_elements";
    "get_child_elements"; "extract_structured_data"; "get_computed_styles";
    "get_all_links"; "get_all_images"; "extract_json_ld"; "get_element_path";
    "validate_selector"; "highlight_element"; "hover_element"; "drag_and_drop";
    "type_with_delay"; "select_dropdown_option"; "trigger_event"; "fill_form_batch";
    "bulk_click_elements"; "auto_scroll_to_bottom"; "smart_wait";
    "extract_table_data"; "extract_list_data"; "paginate_and_collect";
    "get_page_context"; "extract_form_data"; "get_local_storage";
    "get_session_storage"; "wait_for_element_advanced"; "wait_for_condition";
    "wait_for_ajax"; "wait_for_text"; "wait_for_url_change"; "wait_for_images" ].

(** Where the [switch] and its [default] branch send a tool name. *)
Inductive Route :=
| DataTool                 (* answered from the buffers, by the functions above *)
| ScreenshotTool
| CommandTool
| UtilityTool (utility method : string) (argNames : list string)
| InheritedName            (* [utilityTools[name]] is a member of [Object.prototype] *)
| UnknownTool.

Fixpoint table_entry (name : string) (table : list (string * (string * string * list string)))
  : option (string * string * list string) :=
  match table with
  | [] => None
  | (n, entry) :: table' => if String.eqb n name then Some entry else table_entry name table'
  end.

Definition one_of (names : list string) (name : string) : bool :=
  existsb (String.eqb name) names.

Definition route (name : string) : Route :=
  if one_of data_tools name then DataTool
  else if one_of screenshot_tools name then ScreenshotTool
  else if one_of command_tools name then CommandTool
  else match table_entry name utilityTools with
       | Some (utility, method, argNames) => UtilityTool utility method argNames
       | None => if one_of object_prototype name then InheritedName else UnknownTool
       end.

(** What the message of a thrown error is made from, when it is not a
    string given to [new Error]. *)
Inductive Cause :=
| Converted (arg : Js.Val)   (* [String(arg)] *)
| TypeErrorRaised.           (* the message of a TypeError *)

(** The [content] of a reply. *)
Inductive Content :=
| TextContent (text : string) (isError : bool)
| JsonContent (v : Js.Val)                       (* [text: JSON.stringify(v, null, 2)] *)
| ImageContent (data mimeType : string)
| ErrorContent (label : string) (cause : Cause). (* [text: label + error.message, isError: true] *)

(** [typeof result === 'string' ? result : JSON.stringify(result, null, 2)] *)
Definition render (result : Js.Val) : Content :=
  match result with
  | Js.Str s => TextContent s false
  | _ => JsonContent result
  end.

(** [catch (error) { ... text: label + error.message, isError: true }] for
    what [sendCommandToExtension] throws. *)
Definition caught (label : string) (o : Outcome) : Content :=
  match o with
  | ThrewError (Js.Str message) => TextContent (label ++ message) true
  | ThrewError arg => ErrorContent label (Converted arg)
  | ThrewTypeError => ErrorContent label TypeErrorRaised
  | Returned v => render v
  end.

Definition command_reply (o : Outcome) : Content :=
  match o with
  | Returned result => render result
  | _ => caught "Error executing command: " o
  end.

(** [String.prototype.indexOf]: [-1] when there is no occurrence. *)
Fixpoint indexOf (s sub : string) : Z :=
  if String.prefix sub s then 0
  else match s with
       | EmptyString => -1
       | String _ s' => let i := indexOf s' sub in if i <? 0 then -1 else i + 1
       end.

Fixpoint skip (n : nat) (s : string) : string :=
  match n, s with
  | S n', String _ s' => skip n' s'
  | _, _ => s
  end.

(** [String.prototype.substring(start)] *)
Definition substring_from (start : Z) (s : string) : string := skip (Z.to_nat start) s.

(** [Array.prototype.indexOf(x) !== -1] for a string [x]. *)
Definition has_element (x : string) (items : list Js.Val) : bool :=
  existsb (λ v, strict_eq_str v x) items.

Definition screenshot_reply (o : Outcome) : Content :=
  match o with
  | Returned result =>
      if Js.truthy result && Js.truthy (Js.opt_prop result "success")
         && Js.truthy (Js.opt_prop result "screenshot") then
        match Js.opt_prop result "screenshot" with
        | Js.Str dataUrl =>
            let base64Index := indexOf dataUrl "base64," in
            if base64Index =? -1 then render result
            else ImageContent
                   (substring_from (base64Index + 7) dataUrl)
                   (if String.prefix "data:image/png" dataUrl
                    then "image/png" else "image/jpeg")
        | Js.Arr items =>
            (* an array has [indexOf] but no [substring] *)
            if has_element "base64," items
            then ErrorContent "Error capturing screenshot: " TypeErrorRaised
            else render result
        | _ => ErrorContent "Error capturing screenshot: " TypeErrorRaised
        end
      else render result
  | _ => caught "Error capturing screenshot: " o
  end.

(** The [try] of a utility tool, after the call has returned or thrown. *)
Definition utility_reply (name : string) (o : Outcome) : Content :=
  let label := ("Error calling " ++ name ++ ": ")%string in
  match o with
  | Returned result =>
      match Js.prop result "success" with
      | None => ErrorContent label TypeErrorRaised
      | Some ok =>
          if Js.truthy ok then JsonContent (Js.opt_prop result "result")
          else caught label
                 (ThrewError (Js.or_else (Js.opt_prop result "error")
                                         (Js.Str "Utility call failed")))
      end
  | _ => caught label o
  end.

(** What the handler does with a call whose arguments are an object: it
    answers from the buffers, answers at once, or calls
    [sendCommandToExtension] and answers with what [reply] makes of the
    outcome. *)
Inductive Handling :=
| FromBuffers
| Replies (c : Content)
| Dispatches (act : string) (par : Js.Val) (reply : Outcome → Content).

Definition call_tool (name : string) (args : list (string * Js.Val)) : Handling :=
  match route name with
  | DataTool => FromBuffers
  | ScreenshotTool => Dispatches name (Js.Obj (camel_case_args args)) screenshot_reply
  | CommandTool => Dispatches name (Js.Obj (camel_case_args args)) command_reply
  | UtilityTool utility method argNames =>
      let tabId := Js.field "tab_id" args in
      if negb (Js.truthy tabId) then Replies (TextContent "Error: tab_id is required" true)
      else Dispatches "call_utility"
             (Js.Obj [("tabId", tabId); ("utility", Js.Str utility);
                      ("method", Js.Str method);
                      ("args", Js.Arr (method_args argNames args))])
             (utility_reply name)
  | InheritedName =>
      if negb (Js.truthy (Js.field "tab_id" args))
      then Replies (TextContent "Error: tab_id is required" true)
      else Replies (ErrorContent "Error: " TypeErrorRaised)
  | UnknownTool => Replies (TextContent ("Unknown tool: " ++ name) true)
  end.

(** ** The peer

    [executeCommand] of the extension: the report it posts for a command
    once [handleMessage] has answered with the object [response]. *)
Definition strict_ne_false (v : Js.Val) : bool :=
  match v with
  | Js.Bool false => false
  | _ => true
  end.

(** What the server parses from the text [JSON.stringify] writes for a
    value: a property whose value is [undefined] is not written, at any
    depth, and an [undefined] element of an array is written as [null].  A
    value that is itself [undefined] is not written either, and is read as
    [undefined]. *)
Fixpoint json (v : Js.Val) : Js.Val :=
  match v with
  | Js.Arr items =>
      Js.Arr ((λ x, match x with Js.Undefined => Js.Null | _ => json x end) <$> items)
  | Js.Obj fields =>
      Js.Obj (omap (λ kx, match kx.2 with
                          | Js.Undefined => None
                          | _ => Some (kx.1, json kx.2)
                          end) fields)
  | _ => v
  end.

(** The body of the report: [{ commandId: id, success: result.success !== false,
    result: result, error: result.error }], as the server parses it. *)
Definition peer_report (commandId : Z) (response : list (string * Js.Val)) : ResultBody :=
  {| body_commandId := Js.Num commandId;
     body_success := Js.Bool (strict_ne_false (Js.field "success" response));
     body_result := json (Js.Obj response);
     body_error := json (Js.field "error" response) |}.

(** The [case] labels of [handleMessage]. *)
Definition peer_actions : list string :=
  [ "create_tab"; "list_tabs"; "close_tab"; "get_tab"; "navigate_to";
    "navigate_back"; "navigate_forward"; "reload_tab"; "attach_debugger";
    "detach_debugger"; "list_attached_tabs"; "get_network_requests";
    "get_console_logs"; "get_performance_metrics"; "clear_data"; "execute_script";
    "capture_screenshot"; "capture_element_screenshot"; "click_element";
    "fill_input"; "get_element_text"; "wait_for_element"; "scroll_to";
    "inspect_element"; "list_extensions"; "get_extension_info"; "reload_extension";
    "get_manifest"; "get_service_worker_logs"; "clear_service_worker_logs";
    "list_external_extensions"; "get_external_extension_logs";
    "clear_external_extension_logs"; "get_status"; "call_utility" ].

(** The keys of [utilityFiles] in [callContentScriptUtility]. *)
Definition peer_utilities : list string :=
  [ "DOMUtilities"; "InteractionUtilities"; "ExtractionUtilities"; "ObserverUtilities" ].

(** ** Notions for the statements about tool calls *)

(** The string has a [_] followed by a letter of [[a-z]]: a match of the
    pattern of [camel_key]. *)
Fixpoint has_joint (s : string) : bool :=
  match s with
  | EmptyString => false
  | String c s' =>
      (Ascii.eqb c underscore
       && match s' with
          | String d _ => is_lower d
          | EmptyString => false
          end)
      || has_joint s'
  end.

(** The arguments under their converted names, the last given first. *)
Definition renamed (args : list (string * Js.Val)) : list (string * Js.Val) :=
  reverse ((λ '(key, value), (camel_key key, value)) <$> args).

(** The tool name is sent to one of the handlers that does the tool's
    work. *)
Definition routed (name : string) : bool :=
  match route name with
  | UnknownTool | InheritedName => false
  | _ => true
  end.

(** The methods of the four utility objects the peer loads into the page,
    each with the number of its parameters. *)
Definition DOMUtilities : list (string * nat) :=
  [ ("querySelectorAll", 2); ("xpathQuery", 2); ("getElementsByAttribute", 3);
    ("findElementsByText", 3); ("getParentElement", 2); ("getSiblingElements", 2);
    ("getChildElements", 2); ("extractStructuredData", 3); ("getComputedStyles", 2);
    ("getAllLinks", 1); ("getAllImages", 1); ("extractJsonLd", 0);
    ("getElementPath", 1); ("validateSelector", 2); ("highlightElement", 3);
    ("_serializeElement", 1); ("_getAttributes", 1); ("_isVisible", 1);
    ("_generateSelector", 1) ]%nat.

Definition InteractionUtilities : list (string * nat) :=
  [ ("hoverElement", 2); ("dragAndDrop", 3); ("typeWithDelay", 4);
    ("selectDropdownOption", 3); ("uploadFile", 4); ("triggerEvent", 3);
    ("waitForNavigation", 1); ("fillFormBatch", 2); ("bulkClickElements", 2);
    ("retryUntilSuccess", 3); ("autoScrollToBottom", 3); ("smartWait", 1);
    ("_sleep", 1); ("_getScrollHeight", 1) ]%nat.

Definition ExtractionUtilities : list (string * nat) :=
  [ ("extractTableData", 2); ("extractListData", 2); ("paginateAndCollect", 3);
    ("getPageContext", 0); ("extractFormData", 1); ("extractExternalResources", 0);
    ("extractCookies", 0); ("getLocalStorage", 0); ("getSessionStorage", 0);
    ("extractRepeatingPatterns", 3); ("extractBreadcrumbs", 1);
    ("extractPricingInfo", 1); ("_detectFrameworks", 0); ("_detectCurrency", 1);
    ("_sleep", 1) ]%nat.

Definition ObserverUtilities : list (string * nat) :=
  [ ("waitForElement", 2); ("waitForCondition", 2); ("waitForAjax", 1);
    ("observeDomChanges", 2); ("interceptNetworkRequest", 1); ("waitForText", 2);
    ("waitForUrlChange", 1); ("monitorVisibility", 2); ("getPerformanceMetrics", 0);
    ("waitForImages", 2); ("_isVisible", 1); ("_serializeElement", 1);
    ("_getAttributes", 1) ]%nat.

Definition peer_methods : list (string * list (string * nat)) :=
  [ ("DOMUtilities", DOMUtilities); ("InteractionUtilities", InteractionUtilities);
    ("ExtractionUtilities", ExtractionUtilities); ("ObserverUtilities", ObserverUtilities) ].

(** The peer has the method, and the method has at least [n] parameters. *)
Definition peer_accepts (utility method : string) (n : nat) : Prop :=
  ∃ methods arity,
    (utility, methods) ∈ peer_methods ∧ (method, arity) ∈ methods ∧ (n ≤ arity)%nat.

#[global] Instance peer_accepts_dec utility method n : Decision (peer_accepts utility method n).
Proof.
  refine (cast_if (decide (Exists (λ um, um.1 = utility
            ∧ Exists (λ ma, ma.1 = method ∧ (n ≤ ma.2)%nat) um.2) peer_methods))).
  - apply Exists_exists in e as [[u ms] [Hin [Hu He]]]. simpl in *. subst u.
    apply Exists_exists in He as [[m a] [Hin' [Hm Ha]]]. simpl in *. subst m.
    by exists ms, a.
  - intros [ms [a [Hin [Hin' Ha]]]]. apply n0.
    apply Exists_exists. exists (utility, ms). split_and!; [done..|].
    apply Exists_exists. by exists (method, a).
Defined.

(** What the error text of a tool that sends a command begins with. *)
Definition error_label (name : string) : string :=
  match route name with
  | ScreenshotTool => "Error capturing screenshot: "
  | UtilityTool _ _ _ => "Error calling " ++ name ++ ": "
  | _ => "Error executing command: "
  end.

(** A call is made, the peer reports once for it and the call then looks:
    the events from the call to its end. *)
Definition round_trip (t0 : Z) (act : string) (par : Js.Val) (mid1 : list (Z * Event))
    (t1 : Z) (body : ResultBody) (mid2 : list (Z * Event)) (t2 k : Z)
  : list (Z * Event) :=
  (t0, Send act par) :: mid1 ++ (t1, PostCommandResult body) :: mid2 ++ [(t2, TimerFires k)].

(** The properties of an object that [JSON.stringify] writes: those whose
    value is not [undefined]. *)
Definition sent (fields : list (string * Js.Val)) : list (string * Js.Val) :=
  filter (λ kv, is_undefined kv.2 = false) fields.

(** [handleMessage({ action, ...params }, null, resolve)] of [executeCommand]:
    the request the handler of the peer reads, for parameters that are an
    object.  The parameters come as JSON from the server, and their
    properties are copied after [action]. *)
Definition peer_request (action : string) (params : list (string * Js.Val))
  : list (string * Js.Val) :=
  foldl (λ o '(key, value), set_field key value o) [("action", Js.Str action)]
        (sent params).

(** ** The log of the peer's service worker *)

Record LogEntry := mkLogEntry {
  log_timestamp : string;
  log_level : string;
  log_message : string;
}.

Definition MAX_LOGS : nat := 500.

(** [captureLog]: [push], then one [shift()] when the array is over
    [MAX_LOGS]. *)
Definition captureLog (entry : LogEntry) (serviceWorkerLogs : list LogEntry)
  : list LogEntry :=
  let logs := serviceWorkerLogs ++ [entry] in
  if (MAX_LOGS <? length logs)%nat then tail logs else logs.

(** [case 'get_service_worker_logs']: the [logs] and the [total] of the
    response. *)
Definition get_service_worker_logs (limit : option Z) (levelFilter : option string)
    (serviceWorkerLogs : list LogEntry) : list LogEntry * nat :=
  let limit := number_or limit 100 in
  let logs :=
    match truthy_string levelFilter with
    | Some f => filter (λ log, log_level log = f) serviceWorkerLogs
    | None => serviceWorkerLogs
    end in
  (Js.slice_from (- limit) logs, length serviceWorkerLogs).

Inductive LogEvent :=
| Captures (entry : LogEntry)     (* a call of one of the [console] methods *)
| ClearsLogs.                     (* [case 'clear_service_worker_logs'] *)

Definition log_step (logs : list LogEntry) (e : LogEvent) : list LogEntry :=
  match e with
  | Captures entry => captureLog entry logs
  | ClearsLogs => []
  end.

(** The array after the events, from the start of the service worker. *)
Definition serviceWorkerLogs (events : list LogEvent) : list LogEntry :=
  foldl log_step [] events.

(** The entries logged since the array was last cleared. *)
Definition logged (events : list LogEvent) : list LogEntry :=
  foldl (λ acc e, match e with Captures entry => acc ++ [entry] | ClearsLogs => [] end)
        [] events.

(** The entry has the level asked for, when one is asked for. *)
Definition of_level (level : option string) (log : LogEntry) : Prop :=
  match truthy_string level with
  | Some f => log_level log = f
  | None => True
  end.

Global Instance of_level_dec level log : Decision (of_level level log).
Proof. unfold of_level. destruct (truthy_string level); apply _. Defined.
(** * Properties *)

(** Case analysis on an event, with the names the proofs below use. *)
Ltac event_cases e := destruct e as [ty data| |b| | |args|act par|k0].

(** ** The map *)

Module JsMapFacts.

Section Facts.
Context {V : Type}.
Implicit Types (m : list (Z * V)) (k : Z) (v : V).

Lemma get_set_eq k v m : JsMap.get k (JsMap.set k v m) = Some v.
Proof.
  induction m as [|[k' v'] m IH]; simpl.
  - by rewrite bool_decide_eq_true_2.
  - destruct (bool_decide (k' = k)) eqn:E; simpl.
    + by rewrite bool_decide_eq_true_2.
    + by rewrite E.
Qed.

Lemma get_set_ne k k' v m : k ≠ k' → JsMap.get k' (JsMap.set k v m) = JsMap.get k' m.
Proof.
  intros Hne. induction m as [|[k0 v0] m IH]; simpl.
  - by rewrite bool_decide_eq_false_2.
  - destruct (bool_decide (k0 = k)) eqn:E; simpl.
    + apply bool_decide_eq_true_1 in E as ->.
      by rewrite !bool_decide_eq_false_2.
    + by rewrite IH.
Qed.

Lemma get_filter (P : Z * V → Prop) `{!∀ x, Decision (P x)} k m :
  (∀ v v', P (k, v) ↔ P (k, v')) →
  JsMap.get k (filter P m) =
    match JsMap.get k m with
    | Some v => if decide (P (k, v)) then Some v else None
    | None => None
    end.
Proof.
  intros Hk. induction m as [|[k' v'] m IH]; [done|].
  rewrite filter_cons. simpl.
  destruct (bool_decide (k' = k)) eqn:E.
  - apply bool_decide_eq_true_1 in E as ->.
    destruct (decide (P (k, v'))) as [HP|HP]; simpl.
    + by rewrite bool_decide_eq_true_2.
    + rewrite IH. destruct (JsMap.get k m) as [v|]; [|done].
      rewrite decide_False; [done|]. by rewrite (Hk v v').
  - destruct (decide (P (k', v'))); simpl; [by rewrite E|done].
Qed.

Lemma get_delete_eq k m : JsMap.get k (JsMap.delete k m) = None.
Proof.
  unfold JsMap.delete. rewrite get_filter; [|done].
  destruct (JsMap.get k m); [|done]. by rewrite decide_False; [|naive_solver].
Qed.

Lemma get_delete_ne k k' m : k ≠ k' → JsMap.get k' (JsMap.delete k m) = JsMap.get k' m.
Proof.
  intros Hne. unfold JsMap.delete. rewrite get_filter; [|done].
  destruct (JsMap.get k' m); [|done]. by rewrite decide_True; [|naive_solver].
Qed.


Lemma get_None_keys k m : JsMap.get k m = None ↔ k ∉ JsMap.keys m.
Proof.
  unfold JsMap.keys. induction m as [|[k' v'] m IH]; simpl.
  - split; [intros _; apply not_elem_of_nil|done].
  - rewrite not_elem_of_cons. destruct (bool_decide (k' = k)) eqn:E.
    + apply bool_decide_eq_true_1 in E. split; [done|]. intros [? _]. congruence.
    + apply bool_decide_eq_false_1 in E. rewrite IH.
      split; [intros; split; [congruence|done] | by intros [_ ?]].
Qed.

Lemma elem_get k v m : NoDup (JsMap.keys m) → (k, v) ∈ m → JsMap.get k m = Some v.
Proof.
  unfold JsMap.keys. induction m as [|[k' v'] m IH]; simpl.
  - intros _ H. by apply elem_of_nil in H.
  - rewrite NoDup_cons. intros [Hk Hm] [[= <- <-]|Hin]%elem_of_cons.
    + by rewrite bool_decide_eq_true_2.
    + rewrite bool_decide_eq_false_2; [auto|].
      intros ->. apply Hk. apply list_elem_of_fmap. by exists (k, v).
Qed.

Lemma get_filter_None (P : Z * V → Prop) `{!∀ x, Decision (P x)} k m :
  JsMap.get k m = None → JsMap.get k (filter P m) = None.
Proof.
  induction m as [|[k' v'] m IH]; [done|]. rewrite filter_cons. simpl.
  destruct (bool_decide (k' = k)) eqn:E; [done|]. intros Hm.
  destruct (decide (P (k', v'))); simpl; [rewrite E|]; auto.
Qed.

Lemma get_filter_NoDup (P : Z * V → Prop) `{!∀ x, Decision (P x)} k m :
  NoDup (JsMap.keys m) →
  JsMap.get k (filter P m) =
    match JsMap.get k m with
    | Some v => if decide (P (k, v)) then Some v else None
    | None => None
    end.
Proof.
  unfold JsMap.keys. induction m as [|[k' v'] m IH]; [done|].
  rewrite fmap_cons, NoDup_cons, filter_cons. simpl. intros [Hk Hnd].
  destruct (bool_decide (k' = k)) eqn:E.
  - apply bool_decide_eq_true_1 in E as ->.
    destruct (decide (P (k, v'))); simpl; [by rewrite bool_decide_eq_true_2|].
    apply get_filter_None. by apply get_None_keys.
  - destruct (decide (P (k', v'))); simpl; [rewrite E|]; auto.
Qed.

Lemma keys_set_present k v m :
  is_Some (JsMap.get k m) → JsMap.keys (JsMap.set k v m) = JsMap.keys m.
Proof.
  unfold JsMap.keys. induction m as [|[k' v'] m IH]; simpl.
  - by intros [? ?].
  - destruct (bool_decide (k' = k)) eqn:E.
    + by apply bool_decide_eq_true_1 in E as ->.
    + intros Hm. rewrite !fmap_cons. f_equal. by apply IH.
Qed.

Lemma keys_set_absent k v m :
  JsMap.get k m = None → JsMap.keys (JsMap.set k v m) = JsMap.keys m ++ [k].
Proof.
  unfold JsMap.keys. induction m as [|[k' v'] m IH]; simpl; [done|].
  destruct (bool_decide (k' = k)) eqn:E; [done|].
  intros Hm. rewrite !fmap_cons. simpl. f_equal. by apply IH.
Qed.

Lemma NoDup_keys_set k v m : NoDup (JsMap.keys m) → NoDup (JsMap.keys (JsMap.set k v m)).
Proof.
  intros Hnd. destruct (JsMap.get k m) eqn:Hget.
  - by rewrite keys_set_present by by rewrite Hget.
  - rewrite keys_set_absent by done. apply NoDup_app. split_and!; [done| |apply NoDup_singleton].
    intros x Hx ->%list_elem_of_singleton. by apply get_None_keys in Hget.
Qed.

Lemma NoDup_keys_filter (P : Z * V → Prop) `{!∀ x, Decision (P x)} m :
  NoDup (JsMap.keys m) → NoDup (JsMap.keys (filter P m)).
Proof.
  unfold JsMap.keys. induction m as [|[k' v'] m IH]; [done|].
  rewrite fmap_cons, NoDup_cons, filter_cons. intros [Hk Hnd].
  destruct (decide (P (k', v'))); [|auto].
  rewrite fmap_cons, NoDup_cons. split; [|auto].
  intros [[k0 v0] [Hk0 [_ Hin]%list_elem_of_filter]]%list_elem_of_fmap.
  apply Hk. apply list_elem_of_fmap. by exists (k0, v0).
Qed.

End Facts.

End JsMapFacts.

Lemma filter_iff_on {A} (P1 P2 : A → Prop)
    `{!∀ x, Decision (P1 x), !∀ x, Decision (P2 x)} (l : list A) :
  (∀ x, x ∈ l → P1 x ↔ P2 x) → filter P1 l = filter P2 l.
Proof.
  induction l as [|a l IH]; [done|]. intros Hiff.
  rewrite !filter_cons, IH by (intros; apply Hiff; by right).
  apply decide_ext, Hiff. left.
Qed.

(** ** The cleanup interval *)

Lemma cleanup_fold now (es q : list (Z * Command)) :
  foldl (λ q' '(k, cmd),
           if now - timestamp cmd >? maxAge then JsMap.delete k q' else q') q es
  = filter (λ kv, kv.1 ∉ (filter (expired now) es).*1) q.
Proof.
  revert q. induction es as [|[k cmd] es IH]; intros q; simpl.
  - induction q as [|x q IHq]; [done|].
    rewrite filter_cons_True by apply not_elem_of_nil. by rewrite <-IHq.
  - rewrite IH, filter_cons.
    destruct (Z.gtb_spec (now - timestamp cmd) maxAge) as [Hold|Hyoung].
    + rewrite decide_True by (unfold expired; simpl; lia). unfold JsMap.delete.
      rewrite list_filter_filter. apply list_filter_iff. intros [k' c']. simpl.
      rewrite not_elem_of_cons. tauto.
    + by rewrite decide_False by (unfold expired; simpl; lia).
Qed.

Lemma cleanup_filter now q :
  NoDup (JsMap.keys q) → cleanup now q = filter (λ kv, ¬ expired now kv) q.
Proof.
  intros Hnd. unfold cleanup, JsMap.entries. rewrite cleanup_fold.
  apply filter_iff_on. intros [k cmd] Hin. simpl. split.
  - intros Hk Hexp. apply Hk. apply list_elem_of_fmap. exists (k, cmd).
    split; [done|]. by apply list_elem_of_filter.
  - intros Hy [[k' cmd'] [Hkk [Hexp Hin']%list_elem_of_filter]]%list_elem_of_fmap.
    simpl in Hkk. subst k'.
    apply (JsMapFacts.elem_get _ _ _ Hnd) in Hin, Hin'.
    rewrite Hin in Hin'. by injection Hin' as ->.
Qed.

(** C7.  One sweep of the cleanup interval at time [now] removes exactly the
    records with [now - timestamp > 60000], whatever their status, and keeps
    every other record as it is and where it is in the map. *)
Theorem cleanup_removes_exactly_the_old (now : Z) (q : list (Z * Command)) :
  NoDup (JsMap.keys q) →
  cleanup now q = filter (λ kv, ¬ (now - timestamp kv.2 > 60000)) q
  ∧ ∀ k, JsMap.get k (cleanup now q) =
         match JsMap.get k q with
         | Some cmd => if decide (now - timestamp cmd > 60000) then None else Some cmd
         | None => None
         end.
Proof.
  intros Hnd. rewrite (cleanup_filter _ _ Hnd). split; [done|].
  intros k. rewrite JsMapFacts.get_filter_NoDup by done.
  destruct (JsMap.get k q) as [cmd|]; [|done].
  unfold expired, maxAge. simpl.
  destruct (decide (now - timestamp cmd > 60000)).
  - by rewrite decide_False by tauto.
  - by rewrite decide_True.
Qed.

(** ** The result endpoint *)

Lemma with_queue_same s : with_queue (commandQueue s) s = s.
Proof. by destruct s. Qed.

(** C4.  A result report whose command id is not in the map is acknowledged
    with [{ success: true }] and leaves the whole server state as it was;
    the handler has no failing path. *)
Theorem unknown_report_is_acknowledged_and_dropped (now : Z) (body : ResultBody) (s : Server) :
  queue_get (body_commandId body) (commandQueue s) = None →
  step now (PostCommandResult body) s = (s, Acknowledged).
Proof.
  intros Hget. simpl. unfold command_result. rewrite Hget.
  by rewrite with_queue_same.
Qed.

Lemma unknown_report_sample :
  let s := (run [(0, click); (30050, TimerFires 1)] initial).1 in
  queue_get (Js.Num 1) (commandQueue s) = None
  ∧ step 30100 (success_report 1 clicked) s = (s, Acknowledged).
Proof.
  split; [reflexivity|].
  apply unknown_report_is_acknowledged_and_dropped. reflexivity.
Defined.

Lemma report_sets_fields (b : ResultBody) (n : Z) (cmd : Command) (q : list (Z * Command)) :
  body_commandId b = Js.Num n →
  JsMap.get n q = Some cmd →
  ∃ cmd',
    JsMap.get n (command_result b q) = Some cmd'
    ∧ status cmd' = (if Js.truthy (body_success b) then completed else error)
    ∧ result cmd' = (if Js.truthy (body_success b) then body_result b
                     else Js.Obj [("error"%string, body_error b)])
    ∧ timestamp cmd' = timestamp cmd.
Proof.
  intros Hid Hget. unfold command_result, queue_get. rewrite Hid, Hget. simpl.
  eexists. split; [apply JsMapFacts.get_set_eq|]. done.
Qed.

(** C1, as the code has it.  A report for an id in the map sets the status
    to completed when [success] is truthy and to error otherwise, and the
    result to the reported payload or to [{ error }], whatever the status
    was before: the status is never set back to pending, the record keeps
    its id, action, parameters, time stamp and place, and no other record
    changes. *)
Theorem report_sets_status_and_result (b : ResultBody) (n : Z) (cmd : Command)
    (q : list (Z * Command)) :
  body_commandId b = Js.Num n →
  JsMap.get n q = Some cmd →
  ∃ cmd',
    JsMap.get n (command_result b q) = Some cmd'
    ∧ status cmd' = (if Js.truthy (body_success b) then completed else error)
    ∧ result cmd' = (if Js.truthy (body_success b) then body_result b
                     else Js.Obj [("error"%string, body_error b)])
    ∧ status cmd' ≠ pending
    ∧ (id cmd', action cmd', params cmd', timestamp cmd')
      = (id cmd, action cmd, params cmd, timestamp cmd)
    ∧ JsMap.keys (command_result b q) = JsMap.keys q
    ∧ ∀ k, k ≠ n → JsMap.get k (command_result b q) = JsMap.get k q.
Proof.
  intros Hid Hget. unfold command_result, queue_get. rewrite Hid, Hget. simpl.
  eexists. split; [apply JsMapFacts.get_set_eq|]. simpl.
  repeat split.
  - by destruct (Js.truthy _).
  - apply JsMapFacts.keys_set_present. by rewrite Hget.
  - intros k Hk. by apply JsMapFacts.get_set_ne.
Qed.

Lemma report_sets_status_and_result_sample :
  ∃ cmd',
    JsMap.get 2 (command_result (mkResultBody (Js.Num 2) (Js.Bool false) Js.Undefined
                                              (Js.Str "too late")) sample_queue) = Some cmd'
    ∧ status cmd' = error
    ∧ result cmd' = Js.Obj [("error"%string, Js.Str "too late")]
    ∧ status cmd' ≠ pending
    ∧ (id cmd', action cmd', params cmd', timestamp cmd')
      = (2, "click_element"%string, Js.Obj [], 50000)
    ∧ JsMap.keys (command_result (mkResultBody (Js.Num 2) (Js.Bool false) Js.Undefined
                                              (Js.Str "too late")) sample_queue) = [1; 2; 3]
    ∧ ∀ k, k ≠ 2 →
        JsMap.get k (command_result (mkResultBody (Js.Num 2) (Js.Bool false) Js.Undefined
                                              (Js.Str "too late")) sample_queue)
        = JsMap.get k sample_queue.
Proof.
  apply (report_sets_status_and_result
           (mkResultBody (Js.Num 2) (Js.Bool false) Js.Undefined (Js.Str "too late"))
           2 (mkCommand 2 "click_element" (Js.Obj []) 50000 completed clicked)
           sample_queue); reflexivity.
Defined.

(** C1 as stated fails: a record that a first report completed is turned
    into a failed one, with another result, by a second report for its id. *)
Lemma second_report_overwrites_the_first :
  let s1 := (run [(0, click); (40, success_report 1 clicked)] initial).1 in
  let s2 := (step 60 (failure_report 1 (Js.Str "boom")) s1).1 in
  (status <$> JsMap.get 1 (commandQueue s1)) = Some completed
  ∧ (result <$> JsMap.get 1 (commandQueue s1)) = Some clicked
  ∧ (status <$> JsMap.get 1 (commandQueue s2)) = Some error
  ∧ (result <$> JsMap.get 1 (commandQueue s2))
    = Some (Js.Obj [("error"%string, Js.Str "boom")]).
Proof. repeat split. Qed.

(** ** The poll endpoint *)

Lemma get_in {V} (k : Z) (v : V) (m : list (Z * V)) :
  JsMap.get k m = Some v → (k, v) ∈ m.
Proof.
  induction m as [|[k' v'] m IH]; simpl; [done|].
  destruct (bool_decide (k' = k)) eqn:E.
  - apply bool_decide_eq_true_1 in E as ->. intros [= ->]. left.
  - intros H. right. auto.
Qed.

Lemma omap_ext_in {A B} (f g : A → option B) (l : list A) :
  (∀ x, x ∈ l → f x = g x) → omap f l = omap g l.
Proof.
  induction l as [|a l IH]; [done|]. intros Hfg.
  change (omap f (a :: l)) with (match f a with Some y => y :: omap f l | None => omap f l end).
  change (omap g (a :: l)) with (match g a with Some y => y :: omap g l | None => omap g l end).
  rewrite (Hfg a) by left. rewrite IH; [done|]. intros x Hx. apply Hfg. by right.
Qed.

(** The answer of a poll, read off the map key by key. *)
Lemma poll_commands_by_key (q : list (Z * Command)) :
  NoDup (JsMap.keys q) →
  poll_commands q
  = omap (λ k, match JsMap.get k q with
               | Some cmd =>
                   if bool_decide (status cmd = pending) then Some (projection cmd)
                   else None
               | None => None
               end) (JsMap.keys q).
Proof.
  unfold poll_commands, JsMap.keys, JsMap.values.
  induction q as [|[k cmd] q IH]; [done|].
  rewrite !fmap_cons. cbn [fst snd]. intros [Hk Hnd]%NoDup_cons.
  rewrite filter_cons. cbn [omap list_omap JsMap.get].
  rewrite bool_decide_eq_true_2 by done.
  assert (omap (λ k0, match (if bool_decide (k = k0) then Some cmd else JsMap.get k0 q) with
                      | Some cmd0 =>
                          if bool_decide (status cmd0 = pending) then Some (projection cmd0)
                          else None
                      | None => None
                      end) q.*1
          = (λ cmd0, mkPolled (id cmd0) (action cmd0) (params cmd0))
              <$> filter (λ cmd0, status cmd0 = pending) q.*2) as Hrest.
  { rewrite (IH Hnd). apply omap_ext_in. intros k0 Hk0.
    rewrite bool_decide_eq_false_2; [done|]. by intros ->. }
  destruct (decide (status cmd = pending)) as [Hp|Hp].
  - rewrite bool_decide_eq_true_2 by done. rewrite fmap_cons. unfold projection at 1.
    f_equal. by rewrite Hrest.
  - rewrite bool_decide_eq_false_2 by done. by rewrite Hrest.
Qed.

Lemma poll_commands_elem (q : list (Z * Command)) (p : Polled) :
  NoDup (JsMap.keys q) →
  p ∈ poll_commands q
  ↔ ∃ k cmd, JsMap.get k q = Some cmd ∧ status cmd = pending ∧ p = projection cmd.
Proof.
  intros Hnd. unfold poll_commands, JsMap.values. rewrite list_elem_of_fmap. split.
  - intros [cmd [-> [Hp [[k c] [-> Hin]]%list_elem_of_fmap]%list_elem_of_filter]].
    exists k, c. split_and!; [|done..]. by apply JsMapFacts.elem_get.
  - intros (k & cmd & Hget & Hp & ->). exists cmd. split; [done|].
    apply list_elem_of_filter. split; [done|].
    apply list_elem_of_fmap. exists (k, cmd). split; [done|]. by apply get_in.
Qed.

(** C6.  In every state of the map, whose keys are distinct as those of a
    [Map] are, the poll endpoint leaves the state as it was and answers with
    one projection [{ id, action, params }] for each key under which
    [commandQueue.get] finds a pending record, in the order of the map, and
    with nothing else.  So a record that has just been set with status
    pending is handed out, and what is handed out after a record has been
    set with another status comes from the other keys. *)
Theorem poll_returns_exactly_the_pending (now : Z) (s : Server) :
  NoDup (JsMap.keys (commandQueue s)) →
  ∃ l,
    step now GetPollCommands s = (s, Commands l)
    ∧ l = omap (λ k, match JsMap.get k (commandQueue s) with
                     | Some cmd =>
                         if bool_decide (status cmd = pending) then Some (projection cmd)
                         else None
                     | None => None
                     end) (JsMap.keys (commandQueue s))
    ∧ (∀ p, p ∈ l ↔ ∃ k cmd, JsMap.get k (commandQueue s) = Some cmd
                             ∧ status cmd = pending ∧ p = projection cmd)
    ∧ (∀ k cmd, status cmd = pending →
         ∃ l', step now GetPollCommands (with_queue (JsMap.set k cmd (commandQueue s)) s)
               = (with_queue (JsMap.set k cmd (commandQueue s)) s, Commands l')
               ∧ projection cmd ∈ l')
    ∧ (∀ k cmd l', status cmd ≠ pending →
         step now GetPollCommands (with_queue (JsMap.set k cmd (commandQueue s)) s)
         = (with_queue (JsMap.set k cmd (commandQueue s)) s, Commands l') →
         ∀ p, p ∈ l' ↔ ∃ k' cmd', k' ≠ k ∧ JsMap.get k' (commandQueue s) = Some cmd'
                                  ∧ status cmd' = pending ∧ p = projection cmd').
Proof.
  intros Hnd. exists (poll_commands (commandQueue s)). split_and!.
  - done.
  - by apply poll_commands_by_key.
  - intros p. by apply poll_commands_elem.
  - intros k cmd Hp. eexists. split; [reflexivity|]. cbn [with_queue commandQueue].
    apply poll_commands_elem; [by apply JsMapFacts.NoDup_keys_set|].
    exists k, cmd. split_and!; [|done..]. apply JsMapFacts.get_set_eq.
  - intros k cmd l' Hp Hstep p. cbn [step with_queue commandQueue] in Hstep.
    injection Hstep as <-.
    rewrite poll_commands_elem by by apply JsMapFacts.NoDup_keys_set. split.
    + intros (k' & cmd' & Hget & Hp' & ->). destruct (decide (k' = k)) as [->|Hne].
      * rewrite JsMapFacts.get_set_eq in Hget. congruence.
      * rewrite JsMapFacts.get_set_ne in Hget by done. by exists k', cmd'.
    + intros (k' & cmd' & Hne & Hget & Hp' & ->). exists k', cmd'.
      split_and!; [|done..]. by rewrite JsMapFacts.get_set_ne.
Qed.

Lemma poll_sample :
  let s := mkServer (devToolsData initial) sample_queue 3 ∅ in
  ∃ l, step 0 GetPollCommands s = (s, Commands l)
       ∧ l = [mkPolled 1 "navigate_to" (Js.Obj [])].
Proof.
  intros s.
  destruct (poll_returns_exactly_the_pending 0 s) as (l & Hstep & Hl & _).
  - apply (bool_decide_unpack _). vm_compute. exact I.
  - exists l. split; [exact Hstep|]. rewrite Hl. reflexivity.
Defined.

(** ** The telemetry buffers *)

Lemma slice_from_neg {A} (cap : Z) (l : list A) :
  0 < cap → Js.slice_from (- cap) l = drop (length l - Z.to_nat cap)%nat l.
Proof.
  intros Hcap. unfold Js.slice_from.
  destruct (Z.ltb_spec (- cap) 0); [|lia]. f_equal. lia.
Qed.

Lemma push_capped_slice (cap : Z) (data : Js.Val) (buf : list Js.Val) :
  0 < cap → push_capped cap data buf = Js.slice_from (- cap) (buf ++ [data]).
Proof.
  intros Hcap. unfold push_capped.
  destruct (Z.gtb_spec (Z.of_nat (length (buf ++ [data]))) cap) as [Hgt|Hle]; [done|].
  rewrite slice_from_neg by done.
  replace (length (buf ++ [data]) - Z.to_nat cap)%nat with 0%nat by lia. done.
Qed.


Lemma pushes_fold (cap : Z) (l : list Js.Val) :
  0 < cap →
  foldl (λ buf data, push_capped cap data buf) [] l = Js.slice_from (- cap) l.
Proof.
  intros Hcap. induction l as [|x l IH] using rev_ind.
  - rewrite slice_from_neg by done. by rewrite drop_nil.
  - rewrite foldl_app. simpl. rewrite IH, push_capped_slice by done.
    rewrite !slice_from_neg by done.
    set (c := Z.to_nat cap). assert (0 < c)%nat as Hc by lia.
    destruct (decide (length l < c)%nat) as [Hlt|Hge].
    + replace (length l - c)%nat with 0%nat by lia. rewrite drop_0.
      replace (length (l ++ [x]) - c)%nat with 0%nat; [done|].
      rewrite length_app. simpl. lia.
    + rewrite !length_app, length_drop. simpl.
      replace (length l - (length l - c) + 1 - c)%nat with 1%nat by lia.
      rewrite (drop_app_le l) by lia.
      rewrite drop_app_le, drop_drop by (rewrite length_drop; lia).
      do 2 f_equal. lia.
Qed.




Lemma resume_data now k start s : devToolsData (resume now k start s).1 = devToolsData s.
Proof. unfold resume. destruct (loop_turn _ _ _ _) as [q [|o]]; done. Qed.


Lemma run_cons now e tr s :
  run ((now, e) :: tr) s
  = ((run tr (step now e s).1).1, (step now e s).2 :: (run tr (step now e s).1).2).
Proof. cbn [run]. destruct (step now e s) as [s1 r]. cbn [fst snd]. by destruct (run tr s1). Qed.

Lemma run_app tr1 tr2 s :
  run (tr1 ++ tr2) s
  = ((run tr2 (run tr1 s).1).1, (run tr1 s).2 ++ (run tr2 (run tr1 s).1).2).
Proof.
  revert s. induction tr1 as [|[now e] tr1 IH]; intros s.
  - simpl. by destruct (run tr2 s).
  - rewrite <-app_comm_cons, !run_cons, IH. done.
Qed.






(** ** The telemetry queries *)

(** C10.  A limit of 0 is falsy, so each of the three query tools replaces
    it by its default (50, 50, 20) exactly as it does an absent limit, and
    answers with the most recent records up to that number, not with none. *)
Theorem zero_limit_is_the_default_limit (toLowerCase : string → string)
    (tab : option Z) (url level : option string) (d : DevToolsData) :
  (number_or (Some 0) 50 = 50 ∧ number_or (Some 0) 20 = 20)
  ∧ get_network_requests toLowerCase (mkQueryArgs tab (Some 0) url level) d
    = get_network_requests toLowerCase (mkQueryArgs tab None url level) d
  ∧ get_console_logs (mkQueryArgs tab (Some 0) url level) d
    = get_console_logs (mkQueryArgs tab None url level) d
  ∧ get_performance_metrics (mkQueryArgs tab (Some 0) url level) d
    = get_performance_metrics (mkQueryArgs tab None url level) d
  ∧ query_items <$> get_network_requests toLowerCase (mkQueryArgs None (Some 0) None None) d
    = Some (drop (length (networkRequests d) - Z.to_nat 50) (networkRequests d))
  ∧ query_items <$> get_console_logs (mkQueryArgs None (Some 0) None None) d
    = Some (drop (length (consoleLogs d) - Z.to_nat 50) (consoleLogs d))
  ∧ query_items <$> get_performance_metrics (mkQueryArgs None (Some 0) None None) d
    = Some (drop (length (performanceMetrics d) - Z.to_nat 20) (performanceMetrics d)).
Proof.
  split_and!; try done.
  - unfold get_network_requests. simpl. by rewrite (slice_from_neg 50).
  - unfold get_console_logs. simpl. by rewrite (slice_from_neg 50).
  - unfold get_performance_metrics. simpl. by rewrite (slice_from_neg 20).
Qed.

(** ** The invariant of the relay *)

Lemma consistent_initial t : consistent t initial.
Proof. split; simpl; [apply NoDup_nil_2|done|done]. Qed.

Lemma consistent_later t now s : consistent t s → t ≤ now → consistent now s.
Proof.
  intros [Hnd Hissued Hkept] Hle. split; [done|done|].
  intros k start Hk Hage. apply (Hkept k start Hk). lia.
Qed.

Lemma command_result_get b q k cmd :
  JsMap.get k q = Some cmd →
  ∃ cmd', JsMap.get k (command_result b q) = Some cmd' ∧ timestamp cmd' = timestamp cmd.
Proof.
  intros Hget. unfold command_result, queue_get.
  destruct (body_commandId b) as [| | |n| | |]; try by exists cmd.
  destruct (JsMap.get n q) as [c|] eqn:Hn; simpl; [|by exists cmd].
  destruct (decide (n = k)) as [->|Hne].
  - rewrite JsMapFacts.get_set_eq. eexists. split; [done|]. simpl. congruence.
  - rewrite JsMapFacts.get_set_ne by done. by exists cmd.
Qed.

Lemma command_result_NoDup b q :
  NoDup (JsMap.keys q) → NoDup (JsMap.keys (command_result b q)).
Proof.
  intros Hnd. unfold command_result. destruct (queue_get _ _) as [[n c]|]; [|done].
  by apply JsMapFacts.NoDup_keys_set.
Qed.

Lemma cleanup_get now q k cmd :
  NoDup (JsMap.keys q) → JsMap.get k q = Some cmd → now - timestamp cmd ≤ maxAge →
  JsMap.get k (cleanup now q) = Some cmd.
Proof.
  intros Hnd Hget Hage. rewrite cleanup_filter, JsMapFacts.get_filter_NoDup, Hget by done.
  apply decide_True. unfold expired. simpl. lia.
Qed.

Lemma cleanup_NoDup now q : NoDup (JsMap.keys q) → NoDup (JsMap.keys (cleanup now q)).
Proof.
  intros Hnd. rewrite cleanup_filter by done. by apply JsMapFacts.NoDup_keys_filter.
Qed.

(** A call that has just put its record in the map goes to sleep. *)
Lemma send_sleeps now act par s :
  ∃ cmd,
    step now (Send act par) s
    = (mkServer (devToolsData s)
                (JsMap.set (commandIdCounter s + 1) cmd (commandQueue s))
                (commandIdCounter s + 1)
                (<[commandIdCounter s + 1 := now]> (sleeping s)),
       Sleeps (commandIdCounter s + 1))
    ∧ timestamp cmd = now ∧ status cmd = pending ∧ id cmd = commandIdCounter s + 1.
Proof.
  exists (mkCommand (commandIdCounter s + 1) act
            (match par with Js.Undefined => Js.Obj [] | _ => par end) now pending Js.Null).
  split; [|done]. simpl. unfold resume, loop_turn. simpl.
  rewrite Z.sub_diag. simpl. by rewrite JsMapFacts.get_set_eq.
Qed.

(** Replace the step of a new call by the state and reply it yields. *)
Ltac send_step now act par s :=
  let c := fresh "c" in
  let Hstep := fresh "Hstep" in
  destruct (send_sleeps now act par s) as (c & Hstep & _);
  simpl in Hstep; rewrite Hstep; simpl.

(** The four ways a timer firing for a sleeping call can go. *)
Lemma resume_cases now k start s :
  let s' := (resume now k start s).1 in
  let r := (resume now k start s).2 in
  devToolsData s' = devToolsData s ∧ commandIdCounter s' = commandIdCounter s
  ∧ ((now - start < timeout
      ∧ (∃ cmd, JsMap.get k (commandQueue s) = Some cmd ∧ status cmd = pending)
      ∧ r = Sleeps k ∧ commandQueue s' = commandQueue s
      ∧ sleeping s' = <[k := start]> (sleeping s))
     ∨ (now - start < timeout ∧ JsMap.get k (commandQueue s) = None
        ∧ r = Finished k ThrewTypeError ∧ commandQueue s' = commandQueue s
        ∧ sleeping s' = delete k (sleeping s))
     ∨ (now - start < timeout
        ∧ (∃ cmd, JsMap.get k (commandQueue s) = Some cmd ∧ status cmd ≠ pending
             ∧ r = Finished k
                    (match status cmd with
                     | completed => Returned (result cmd)
                     | _ => ThrewError (Js.or_else (Js.opt_prop (result cmd) "error")
                                                   (Js.Str "Command failed"))
                     end))
        ∧ commandQueue s' = JsMap.delete k (commandQueue s)
        ∧ sleeping s' = delete k (sleeping s))
     ∨ (timeout ≤ now - start
        ∧ r = Finished k (ThrewError (Js.Str "Command timeout"))
        ∧ commandQueue s' = JsMap.delete k (commandQueue s)
        ∧ sleeping s' = delete k (sleeping s))).
Proof.
  unfold resume, loop_turn.
  destruct (Z.ltb_spec (now - start) timeout) as [Hlt|Hge]; simpl.
  - destruct (JsMap.get k (commandQueue s)) as [cmd|] eqn:Hget; simpl.
    + destruct (status cmd) eqn:Hst; simpl; (split; [done|split; [done|]]).
      * left. split_and!; try done. by exists cmd.
      * right. right. left. split_and!; try done. exists cmd. by rewrite Hst.
      * right. right. left. split_and!; try done. exists cmd. by rewrite Hst.
    + split; [done|split; [done|]]. right. left. done.
  - split; [done|split; [done|]]. do 3 right. done.
Qed.

Lemma step_consistent t now e s :
  consistent t s → t ≤ now → consistent now (step now e s).1.
Proof.
  intros Hs Hle. pose proof (consistent_later _ _ _ Hs Hle) as [Hnd Hissued Hkept].
  event_cases e; simpl; try by split.
  - (* a result report *)
    split; simpl; [by apply command_result_NoDup|done|].
    intros k start Hk Hage. destruct (Hkept k start Hk Hage) as (cmd & Hget & Hts).
    destruct (command_result_get b _ _ _ Hget) as (cmd' & Hget' & Hts').
    exists cmd'. split; [done|congruence].
  - (* the cleanup interval *)
    split; simpl; [by apply cleanup_NoDup|done|].
    intros k start Hk Hage. destruct (Hkept k start Hk Hage) as (cmd & Hget & Hts).
    exists cmd. split; [|done]. apply cleanup_get; [done|done|lia].
  - (* a new call *)
    destruct (send_sleeps now act par s) as (cmd & Hstep & Hts & _).
    simpl in Hstep. rewrite Hstep. simpl.
    split; simpl; [by apply JsMapFacts.NoDup_keys_set| |].
    + intros k start [[-> ->]|[Hne Hk]]%lookup_insert_Some; [lia|].
      specialize (Hissued k start Hk). lia.
    + intros k start [[<- <-]|[Hne Hk]]%lookup_insert_Some Hage.
      * exists cmd. by rewrite JsMapFacts.get_set_eq.
      * rewrite JsMapFacts.get_set_ne by done. by apply (Hkept k start).
  - (* a timer *)
    destruct (sleeping s !! k0) as [start0|] eqn:Hk0; [|by split].
    destruct (resume_cases now k0 start0 s)
      as (_ & Hc & [(_ & _ & _ & Hq & Hsl)|[(_ & _ & _ & Hq & Hsl)|
                    [(_ & _ & Hq & Hsl)|(_ & _ & Hq & Hsl)]]]).
    + split; rewrite ?Hq, ?Hsl, ?Hc, ?insert_id by done; done.
    + split; rewrite ?Hq, ?Hsl, ?Hc; [done| |].
      * intros k start [_ Hk]%lookup_delete_Some. by apply (Hissued k start).
      * intros k start [_ Hk]%lookup_delete_Some. by apply (Hkept k start).
    + split; rewrite ?Hq, ?Hsl, ?Hc; [by apply JsMapFacts.NoDup_keys_filter| |].
      * intros k start [_ Hk]%lookup_delete_Some. by apply (Hissued k start).
      * intros k start [Hne Hk]%lookup_delete_Some Hage.
        rewrite JsMapFacts.get_delete_ne by done. by apply (Hkept k start).
    + split; rewrite ?Hq, ?Hsl, ?Hc; [by apply JsMapFacts.NoDup_keys_filter| |].
      * intros k start [_ Hk]%lookup_delete_Some. by apply (Hissued k start).
      * intros k start [Hne Hk]%lookup_delete_Some Hage.
        rewrite JsMapFacts.get_delete_ne by done. by apply (Hkept k start).
Qed.

Lemma chronological_app t tr1 tr2 :
  chronological t (tr1 ++ tr2)
  ↔ chronological t tr1 ∧ chronological (end_time t tr1) tr2.
Proof.
  revert t. induction tr1 as [|[now e] tr1 IH]; intros t; simpl; [tauto|].
  rewrite IH. tauto.
Qed.

Lemma chronological_end t tr : chronological t tr → t ≤ end_time t tr.
Proof.
  revert t. induction tr as [|[now e] tr IH]; intros t; simpl; [lia|].
  intros [Hle Htr]. specialize (IH now Htr). lia.
Qed.

Lemma run_consistent t tr s :
  consistent t s → chronological t tr → consistent (end_time t tr) (run tr s).1.
Proof.
  revert t s. induction tr as [|[now e] tr IH]; intros t s Hs; simpl; [done|].
  intros [Hle Htr]. pose proof (run_cons now e tr s) as Hrun. simpl in Hrun.
  rewrite Hrun. simpl. apply IH; [|done]. by apply (step_consistent t).
Qed.

Lemma reachable_consistent t tr :
  chronological t tr → consistent (end_time t tr) (run tr initial).1.
Proof. apply run_consistent, consistent_initial. Qed.

(** ** The unguarded read of the polling loop *)

Lemma step_no_type_error t now e s k :
  consistent t s → t ≤ now → (step now e s).2 ≠ Finished k ThrewTypeError.
Proof.
  intros Hs Hle. pose proof (consistent_later _ _ _ Hs Hle) as [_ _ Hkept].
  event_cases e; simpl; try done.
  - by send_step now act par s.
  - destruct (sleeping s !! k0) as [start0|] eqn:Hk0; [|done].
    destruct (resume_cases now k0 start0 s)
      as (_ & _ & [(_ & _ & -> & _)|[(Hlt & Hget & _)|
                   [(_ & (cmd & _ & Hst & ->) & _)|(_ & -> & _)]]]); try done.
    + destruct (Hkept k0 start0 Hk0) as (cmd & Hcmd & _);
        [unfold timeout, maxAge in *; lia|congruence].
    + destruct (status cmd); congruence.
Qed.

Lemma run_no_type_error t tr s k :
  consistent t s → chronological t tr → Finished k ThrewTypeError ∉ (run tr s).2.
Proof.
  revert t s. induction tr as [|[now e] tr IH]; intros t s Hs; simpl.
  - intros _. apply not_elem_of_nil.
  - intros [Hle Htr]. pose proof (run_cons now e tr s) as Hrun. simpl in Hrun.
    rewrite Hrun. simpl. apply not_elem_of_cons. split.
    + intros Heq. by apply (step_no_type_error t now e s k).
    + apply (IH now); [by apply (step_consistent t)|done].
Qed.

(** C9, amended.  As long as the clock does not run backwards, a suspended
    call whose start lies at most 60000 ms back still has its record in the
    map, and a sweep of the cleanup interval at such a time keeps it: the
    cleanup removes the record of a waiting call only when more than
    60000 ms have passed since the call started.  The loop tests the
    deadline of 30000 ms before it reads the record, so a waiting call whose
    record has been removed ends at its next turn with "Command timeout",
    without reading.  So the read of [cmd.status] always finds a record, and
    no call ever ends in the TypeError of reading [undefined]. *)
Theorem waiting_call_always_finds_its_record (t0 : Z) (tr : list (Z * Event)) :
  chronological t0 tr →
  timeout < maxAge
  ∧ (∀ k start,
       sleeping (run tr initial).1 !! k = Some start →
       end_time t0 tr - start ≤ 60000 →
       ∃ cmd, JsMap.get k (commandQueue (run tr initial).1) = Some cmd
              ∧ timestamp cmd = start)
  ∧ (∀ k start now,
       sleeping (run tr initial).1 !! k = Some start →
       end_time t0 tr ≤ now → now - start ≤ 60000 →
       ∃ cmd, JsMap.get k (commandQueue (run tr initial).1) = Some cmd
              ∧ JsMap.get k (cleanup now (commandQueue (run tr initial).1)) = Some cmd)
  ∧ (∀ k start now,
       sleeping (run tr initial).1 !! k = Some start →
       JsMap.get k (commandQueue (run tr initial).1) = None →
       end_time t0 tr ≤ now →
       60000 < now - start
       ∧ (step now (TimerFires k) (run tr initial).1).2
         = Finished k (ThrewError (Js.Str "Command timeout")))
  ∧ (∀ k, Finished k ThrewTypeError ∉ (run tr initial).2).
Proof.
  intros Htr. pose proof (reachable_consistent _ _ Htr) as Hs.
  split_and!.
  - done.
  - intros k start Hk Hage. by apply (sleepers_kept _ _ Hs k start).
  - intros k start now Hk Hnow Hlt.
    destruct (sleepers_kept _ _ Hs k start Hk) as (cmd & Hget & Hts); [unfold maxAge; lia|].
    exists cmd. split; [done|]. apply cleanup_get; [apply Hs|done|unfold maxAge; lia].
  - intros k start now Hk Hnone Hnow.
    assert (60000 < now - start) as Hold.
    { destruct (decide (end_time t0 tr - start ≤ maxAge)) as [Hage|Hage].
      - destruct (sleepers_kept _ _ Hs k start Hk Hage) as (cmd & Hget & _). congruence.
      - unfold maxAge in Hage. lia. }
    split; [done|]. cbn [step]. rewrite Hk.
    destruct (resume_cases now k start (run tr initial).1)
      as (_ & _ & [(Hlt & _)|[(Hlt & _)|[(Hlt & _)|(_ & -> & _)]]]);
      try (unfold timeout in Hlt; lia). done.
  - intros k. apply (run_no_type_error t0); [apply consistent_initial|done].
Qed.

(** ** One call, from its report to its end *)

Lemma outcome_of_app k rs1 rs2 :
  outcome_of k (rs1 ++ rs2)
  = match outcome_of k rs1 with Some o => Some o | None => outcome_of k rs2 end.
Proof.
  induction rs1 as [|r rs1 IH]; [done|]. simpl.
  destruct r; try done. by destruct (bool_decide _).
Qed.

Lemma outcome_of_cons_other k r rs :
  (∀ o, r ≠ Finished k o) → outcome_of k (r :: rs) = outcome_of k rs.
Proof.
  intros Hr. destruct r as [| | | | |k' o]; try done. simpl.
  rewrite bool_decide_eq_false_2; [done|]. intros ->. by apply (Hr o).
Qed.

Lemma outcome_of_cons_finished k o rs : outcome_of k (Finished k o :: rs) = Some o.
Proof. simpl. by rewrite bool_decide_eq_true_2. Qed.

Lemma command_result_other b q k :
  body_commandId b ≠ Js.Num k →
  JsMap.get k (command_result b q) = JsMap.get k q.
Proof.
  intros Hb. unfold command_result, queue_get.
  destruct (body_commandId b) as [| | |n| | |]; try done.
  destruct (JsMap.get n q) as [c|]; simpl; [|done].
  apply JsMapFacts.get_set_ne. congruence.
Qed.

Lemma cleanup_get_None now q k :
  JsMap.get k q = None → JsMap.get k (cleanup now q) = None.
Proof.
  intros Hget. unfold cleanup. rewrite cleanup_fold.
  by apply JsMapFacts.get_filter_None.
Qed.

(** An event that is neither a report for [k] nor the timer of [k] leaves
    the record of [k], while young enough for the cleanup, and the sleep of
    its call as they are. *)
Lemma step_frame now e s k cmd :
  NoDup (JsMap.keys (commandQueue s)) →
  k ≤ commandIdCounter s →
  JsMap.get k (commandQueue s) = Some cmd →
  now - timestamp cmd ≤ maxAge →
  ¬ reports k e → e ≠ TimerFires k →
  JsMap.get k (commandQueue (step now e s).1) = Some cmd
  ∧ sleeping (step now e s).1 !! k = sleeping s !! k
  ∧ ∀ o, (step now e s).2 ≠ Finished k o.
Proof.
  intros Hnd Hk Hget Hage Hrep Htimer.
  event_cases e; simpl; try done.
  - split; [|done]. rewrite command_result_other; [done|]. exact Hrep.
  - split; [|done]. by apply cleanup_get.
  - send_step now act par s.
    rewrite JsMapFacts.get_set_ne, lookup_insert_ne by lia. done.
  - assert (k0 ≠ k) as Hne by congruence.
    destruct (sleeping s !! k0) as [start0|] eqn:Hk0; [|done].
    destruct (resume_cases now k0 start0 s)
      as (_ & _ & [(_ & _ & -> & -> & ->)|[(_ & _ & -> & -> & ->)|
                   [(_ & (c & _ & _ & ->) & -> & ->)|(_ & -> & -> & ->)]]]);
      rewrite ?lookup_insert_ne, ?lookup_delete_ne, ?JsMapFacts.get_delete_ne by done;
      split_and!; try done; congruence.
Qed.


(** Once a call is over nothing brings its record back, and no reply is
    its. *)
Lemma step_gone now e s k :
  gone k s → gone k (step now e s).1 ∧ ∀ o, (step now e s).2 ≠ Finished k o.
Proof.
  intros (Hk & Hget & Hsl). unfold gone.
  event_cases e; simpl; try done.
  - split; [|done]. split; [done|]. split; [|done].
    unfold command_result, queue_get.
    destruct (body_commandId b) as [| | |n| | |]; try done.
    destruct (JsMap.get n (commandQueue s)) as [c|] eqn:Hn; simpl; [|done].
    rewrite JsMapFacts.get_set_ne; [done|congruence].
  - split; [|done]. split; [done|]. split; [|done]. by apply cleanup_get_None.
  - send_step now act par s.
    rewrite JsMapFacts.get_set_ne, lookup_insert_ne by lia.
    split_and!; try done. lia.
  - destruct (sleeping s !! k0) as [start0|] eqn:Hk0; [|done].
    assert (k0 ≠ k) as Hne by congruence.
    destruct (resume_cases now k0 start0 s)
      as (_ & -> & [(_ & _ & -> & -> & ->)|[(_ & _ & -> & -> & ->)|
                   [(_ & (c & _ & _ & ->) & -> & ->)|(_ & -> & -> & ->)]]]);
      rewrite ?lookup_insert_ne, ?lookup_delete_ne, ?JsMapFacts.get_delete_ne by done;
      split_and!; try done; congruence.
Qed.

Lemma run_gone tr s k :
  gone k s → gone k (run tr s).1 ∧ outcome_of k (run tr s).2 = None.
Proof.
  revert s. induction tr as [|[now e] tr IH]; intros s Hs; [done|].
  rewrite run_cons. simpl fst. simpl snd.
  destruct (step_gone now e s k Hs) as [Hs1 Hr].
  rewrite outcome_of_cons_other by done. by apply IH.
Qed.

Lemma run_frame t tr s k start cmd :
  consistent t s → chronological t tr →
  sleeping s !! k = Some start →
  JsMap.get k (commandQueue s) = Some cmd →
  end_time t tr - timestamp cmd ≤ maxAge →
  (∀ now e, (now, e) ∈ tr → ¬ reports k e ∧ e ≠ TimerFires k) →
  JsMap.get k (commandQueue (run tr s).1) = Some cmd
  ∧ sleeping (run tr s).1 !! k = Some start
  ∧ outcome_of k (run tr s).2 = None.
Proof.
  revert t s. induction tr as [|[now e] tr IH]; intros t s Hs; [done|].
  simpl chronological. simpl end_time. intros [Hle Htr] Hsl Hget Hage Hev.
  rewrite run_cons. simpl fst. simpl snd.
  destruct (Hev now e) as [Hrep Htimer]; [left|].
  destruct (step_frame now e s k cmd) as (Hget1 & Hsl1 & Hr); try done.
  - apply Hs.
  - by apply (sleepers_issued _ _ Hs k start).
  - pose proof (chronological_end _ _ Htr). lia.
  - rewrite outcome_of_cons_other by done.
    apply (IH now); try done.
    + by apply (step_consistent t).
    + congruence.
    + intros now' e' Hin. apply (Hev now'). by right.
Qed.

(** A report for a sleeping call, then events that are neither reports for
    it nor its timer, then its timer before the deadline: the call ends with
    what the report put in the record. *)
Lemma report_then_timer t s0 k start t1 body mid t2 :
  let tr := (t1, PostCommandResult body) :: mid ++ [(t2, TimerFires k)] in
  consistent t s0 → chronological t tr →
  sleeping s0 !! k = Some start →
  body_commandId body = Js.Num k →
  (∀ now e, (now, e) ∈ mid → ¬ reports k e ∧ e ≠ TimerFires k) →
  t2 - start < timeout →
  outcome_of k (run tr s0).2
  = Some (if Js.truthy (body_success body) then Returned (body_result body)
          else ThrewError (Js.or_else (body_error body) (Js.Str "Command failed")))
  ∧ gone k (run tr s0).1.
Proof.
  intros tr Hs0 Htr Hsl Hid Hmid Hlt. subst tr.
  simpl in Htr. destruct Htr as [Ht1 Htr].
  apply chronological_app in Htr as [Hmidc Hlast]. simpl in Hlast.
  destruct Hlast as [Hend _].
  pose proof (chronological_end _ _ Hmidc) as Ht1end.
  (* the report *)
  pose proof (step_consistent t t1 (PostCommandResult body) s0 Hs0 Ht1) as Hs1.
  destruct (sleepers_kept _ _ (consistent_later _ _ _ Hs0 Ht1) k start Hsl)
    as (cmd0 & Hget0 & Hts0); [unfold timeout, maxAge in *; lia|].
  destruct (report_sets_fields body k cmd0 (commandQueue s0) Hid Hget0)
    as (cmd1 & Hget1 & Hst1 & Hres1 & Hts1).
  rewrite run_cons. cbn [fst snd].
  set (s1 := (step t1 (PostCommandResult body) s0).1) in *.
  assert (sleeping s1 !! k = Some start) as Hsl1 by done.
  assert (JsMap.get k (commandQueue s1) = Some cmd1) as Hq1 by done.
  (* the events in between *)
  rewrite run_app. cbn [fst snd].
  destruct (run_frame t1 mid s1 k start cmd1) as (Hget2 & Hsl2 & Hout2); try done.
  { unfold timeout, maxAge in *. lia. }
  pose proof (run_consistent t1 mid s1 Hs1 Hmidc) as Hs2.
  set (s2 := (run mid s1).1) in *.
  (* the timer *)
  rewrite outcome_of_cons_other by done. rewrite outcome_of_app, Hout2.
  rewrite run_cons. cbn [run fst snd step]. rewrite Hsl2.
  destruct (resume_cases t2 k start s2)
    as (_ & Hc & [(_ & (c & Hc1 & Hc2) & _)|[(_ & Hnone & _)|
                 [(_ & (c & Hc1 & Hc2 & ->) & Hq & Hsl')|(Hge & _)]]]).
  - rewrite Hget2 in Hc1. injection Hc1 as <-. rewrite Hst1 in Hc2.
    by destruct (Js.truthy _).
  - congruence.
  - rewrite Hget2 in Hc1. injection Hc1 as <-. split.
    + rewrite outcome_of_cons_finished. f_equal. rewrite Hst1, Hres1.
      by destruct (Js.truthy _).
    + unfold gone. rewrite Hc, Hq, Hsl', JsMapFacts.get_delete_eq, lookup_delete_eq.
      split; [|done]. by apply (sleepers_issued _ _ Hs2 k start).
  - lia.
Qed.

(** C3, as the code has it.  When a success report for a sleeping call is
    followed, with no other report for the call in between, by the firing of
    the call's timer less than 30000 ms after the call started, the call
    returns exactly the reported payload and its id is out of the map. *)
Theorem observed_success_is_returned (t0 : Z) (pre mid : list (Z * Event))
    (k start t1 t2 : Z) (body : ResultBody) :
  let s0 := (run pre initial).1 in
  let tr := (t1, PostCommandResult body) :: mid ++ [(t2, TimerFires k)] in
  chronological t0 (pre ++ tr) →
  sleeping s0 !! k = Some start →
  body_commandId body = Js.Num k →
  Js.truthy (body_success body) = true →
  (∀ now e, (now, e) ∈ mid → ¬ reports k e ∧ e ≠ TimerFires k) →
  t2 - start < 30000 →
  outcome_of k (run tr s0).2 = Some (Returned (body_result body))
  ∧ JsMap.get k (commandQueue (run tr s0).1) = None
  ∧ sleeping (run tr s0).1 !! k = None.
Proof.
  intros s0 tr [Hpre Htr]%chronological_app Hsl Hid Hok Hmid Hlt.
  destruct (report_then_timer (end_time t0 pre) s0 k start t1 body mid t2)
    as (Hout & _ & Hget & Hgone); try done.
  { by apply reachable_consistent. }
  fold tr in Hout, Hget, Hgone. by rewrite Hok in Hout.
Qed.

(** C8, as the code has it.  When a failure report for a sleeping call is
    followed, with no other report for the call in between, by the firing of
    the call's timer less than 30000 ms after the call started, the call
    throws an Error made from the reported [error] when that is truthy, so
    with a non-empty string as its message word for word, and from
    ["Command failed"] when [error] is absent, empty or otherwise falsy. *)
Theorem observed_failure_is_thrown (t0 : Z) (pre mid : list (Z * Event))
    (k start t1 t2 : Z) (body : ResultBody) :
  let s0 := (run pre initial).1 in
  let tr := (t1, PostCommandResult body) :: mid ++ [(t2, TimerFires k)] in
  chronological t0 (pre ++ tr) →
  sleeping s0 !! k = Some start →
  body_commandId body = Js.Num k →
  Js.truthy (body_success body) = false →
  (∀ now e, (now, e) ∈ mid → ¬ reports k e ∧ e ≠ TimerFires k) →
  t2 - start < 30000 →
  (∀ message, body_error body = Js.Str message → message ≠ EmptyString →
     outcome_of k (run tr s0).2 = Some (ThrewError (Js.Str message)))
  ∧ (Js.truthy (body_error body) = true →
     outcome_of k (run tr s0).2 = Some (ThrewError (body_error body)))
  ∧ (Js.truthy (body_error body) = false →
     outcome_of k (run tr s0).2 = Some (ThrewError (Js.Str "Command failed"))).
Proof.
  intros s0 tr [Hpre Htr]%chronological_app Hsl Hid Hok Hmid Hlt.
  destruct (report_then_timer (end_time t0 pre) s0 k start t1 body mid t2)
    as (Hout & _); try done.
  { by apply reachable_consistent. }
  fold tr in Hout. rewrite Hok in Hout. unfold Js.or_else in Hout.
  split_and!.
  - intros message Hmsg Hne. rewrite Hout, Hmsg. simpl.
    destruct (String.eqb_spec message EmptyString); [done|done].
  - intros Ht. by rewrite Hout, Ht.
  - intros Hf. by rewrite Hout, Hf.
Qed.

(** ** One call that gets no report *)

Lemma cleanup_get_Some now q k cmd :
  NoDup (JsMap.keys q) → JsMap.get k (cleanup now q) = Some cmd → JsMap.get k q = Some cmd.
Proof.
  intros Hnd. rewrite cleanup_filter, JsMapFacts.get_filter_NoDup by done.
  destruct (JsMap.get k q) as [c|]; [|done]. by destruct (decide _).
Qed.

Lemma timer_or_not (k : Z) (e : Event) : e = TimerFires k ∨ e ≠ TimerFires k.
Proof.
  event_cases e; try (by right).
  destruct (decide (k0 = k)) as [->|Hne]; [by left|right; congruence].
Qed.

Lemma step_unanswered_wait t now e s k start :
  consistent t s → t ≤ now →
  sleeping s !! k = Some start → unanswered k s →
  ¬ reports k e → (e = TimerFires k → now - start < timeout) →
  sleeping (step now e s).1 !! k = Some start
  ∧ unanswered k (step now e s).1
  ∧ ∀ o, (step now e s).2 ≠ Finished k o.
Proof.
  intros Hs Hle Hsl Hun Hrep Hearly.
  pose proof (consistent_later _ _ _ Hs Hle) as [Hnd Hissued Hkept].
  unfold unanswered in *.
  event_cases e; simpl; try done.
  - split; [done|]. split; [|done]. intros cmd.
    rewrite command_result_other; [apply Hun|exact Hrep].
  - split; [done|]. split; [|done]. intros cmd Hget.
    apply Hun. by apply (cleanup_get_Some now).
  - send_step now act par s.
    specialize (Hissued k start Hsl).
    rewrite JsMapFacts.get_set_ne, lookup_insert_ne by lia. done.
  - destruct (sleeping s !! k0) as [start0|] eqn:Hk0; [|done].
    destruct (decide (k0 = k)) as [->|Hne].
    + assert (start0 = start) as -> by congruence.
      specialize (Hearly eq_refl).
      destruct (resume_cases now k start s)
        as (_ & _ & [(_ & _ & -> & -> & ->)|[(_ & Hnone & _)|
                     [(_ & (c & Hc1 & Hc2 & _) & _)|(Hge & _)]]]).
      * rewrite lookup_insert_eq. done.
      * destruct (Hkept k start Hsl) as (c & Hc & _);
          [unfold timeout, maxAge in *; lia|congruence].
      * by apply Hun in Hc1.
      * lia.
    + destruct (resume_cases now k0 start0 s)
        as (_ & _ & [(_ & _ & -> & -> & ->)|[(_ & _ & -> & -> & ->)|
                     [(_ & (c & _ & _ & ->) & -> & ->)|(_ & -> & -> & ->)]]]);
        rewrite ?lookup_insert_ne, ?lookup_delete_ne by done;
        (split; [done|]); (split; [|congruence]); intros cmd;
        rewrite ?JsMapFacts.get_delete_ne by done; apply Hun.
Qed.


(** While no report comes and the timer fires before the deadline only,
    the call sleeps on. *)
Lemma run_unanswered_wait t tr s k start :
  consistent t s → chronological t tr →
  sleeping s !! k = Some start → unanswered k s →
  (∀ now e, (now, e) ∈ tr → ¬ reports k e) →
  (∀ now, (now, TimerFires k) ∈ tr → now - start < timeout) →
  sleeping (run tr s).1 !! k = Some start
  ∧ unanswered k (run tr s).1
  ∧ outcome_of k (run tr s).2 = None.
Proof.
  revert t s. induction tr as [|[now e] tr IH]; intros t s Hs; [done|].
  simpl chronological. intros [Hle Htr] Hsl Hun Hrep Hearly.
  rewrite run_cons. cbn [fst snd].
  destruct (step_unanswered_wait t now e s k start) as (Hsl1 & Hun1 & Hr); try done.
  - apply (Hrep now). left.
  - intros ->. apply Hearly. left.
  - rewrite outcome_of_cons_other by done. apply (IH now); try done.
    + by apply (step_consistent t).
    + intros now' e' Hin. apply (Hrep now'). by right.
    + intros now' Hin. apply Hearly. by right.
Qed.



(** ** The theorems at sample inputs *)

Lemma unrelated_is_unrelated :
  ∀ now e, (now, e) ∈ unrelated → ¬ reports 1 e ∧ e ≠ TimerFires 1.
Proof.
  intros now e Hin. unfold unrelated in Hin.
  repeat (apply elem_of_cons in Hin as [[= -> ->]|Hin];
          [split; [simpl; tauto|discriminate]|]).
  by apply elem_of_nil in Hin.
Defined.

Lemma cleanup_sample :
  cleanup 60050 sample_queue
  = filter (λ kv, ¬ (60050 - timestamp kv.2 > 60000)) sample_queue
  ∧ ∀ k, JsMap.get k (cleanup 60050 sample_queue) =
         match JsMap.get k sample_queue with
         | Some cmd => if decide (60050 - timestamp cmd > 60000) then None else Some cmd
         | None => None
         end.
Proof.
  apply (cleanup_removes_exactly_the_old 60050 sample_queue).
  apply (bool_decide_unpack _). vm_compute. exact I.
Defined.


Lemma observed_success_sample :
  let tr := (150, success_report 1 clicked) :: unrelated ++ [(200, TimerFires 1)] in
  outcome_of 1 (run tr (run one_sleeping initial).1).2 = Some (Returned clicked)
  ∧ JsMap.get 1 (commandQueue (run tr (run one_sleeping initial).1).1) = None
  ∧ sleeping (run tr (run one_sleeping initial).1).1 !! 1 = None.
Proof.
  apply (observed_success_is_returned 0 one_sleeping unrelated 1 0 150 200
           (mkResultBody (Js.Num 1) (Js.Bool true) clicked Js.Undefined)).
  - simpl. lia.
  - vm_compute. reflexivity.
  - reflexivity.
  - reflexivity.
  - exact unrelated_is_unrelated.
  - lia.
Defined.

Lemma observed_failure_sample :
  let tr := (150, failure_report 1 (Js.Str "no such element"))
              :: unrelated ++ [(200, TimerFires 1)] in
  (∀ message, Js.Str "no such element" = Js.Str message → message ≠ EmptyString →
     outcome_of 1 (run tr (run one_sleeping initial).1).2
     = Some (ThrewError (Js.Str message)))
  ∧ (Js.truthy (Js.Str "no such element") = true →
     outcome_of 1 (run tr (run one_sleeping initial).1).2
     = Some (ThrewError (Js.Str "no such element")))
  ∧ (Js.truthy (Js.Str "no such element") = false →
     outcome_of 1 (run tr (run one_sleeping initial).1).2
     = Some (ThrewError (Js.Str "Command failed"))).
Proof.
  apply (observed_failure_is_thrown 0 one_sleeping unrelated 1 0 150 200
           (mkResultBody (Js.Num 1) (Js.Bool false) Js.Undefined
                         (Js.Str "no such element"))).
  - simpl. lia.
  - vm_compute. reflexivity.
  - reflexivity.
  - reflexivity.
  - exact unrelated_is_unrelated.
  - lia.
Defined.


Lemma waiting_sample :
  let tr := [(0, click); (100, TimerFires 1); (60000, CleanupInterval)] in
  timeout < maxAge
  ∧ (∀ k start,
       sleeping (run tr initial).1 !! k = Some start →
       end_time 0 tr - start ≤ 60000 →
       ∃ cmd, JsMap.get k (commandQueue (run tr initial).1) = Some cmd
              ∧ timestamp cmd = start)
  ∧ (∀ k start now,
       sleeping (run tr initial).1 !! k = Some start →
       end_time 0 tr ≤ now → now - start ≤ 60000 →
       ∃ cmd, JsMap.get k (commandQueue (run tr initial).1) = Some cmd
              ∧ JsMap.get k (cleanup now (commandQueue (run tr initial).1)) = Some cmd)
  ∧ (∀ k start now,
       sleeping (run tr initial).1 !! k = Some start →
       JsMap.get k (commandQueue (run tr initial).1) = None →
       end_time 0 tr ≤ now →
       60000 < now - start
       ∧ (step now (TimerFires k) (run tr initial).1).2
         = Finished k (ThrewError (Js.Str "Command timeout")))
  ∧ (∀ k, Finished k ThrewTypeError ∉ (run tr initial).2).
Proof.
  apply (waiting_call_always_finds_its_record 0
           [(0, click); (100, TimerFires 1); (60000, CleanupInterval)]).
  simpl. lia.
Defined.

(** The hypothesis of C9 is needed: when the clock is set back, the cleanup
    can remove the record of a call that then reads it. *)
Lemma clock_set_back_breaks_the_read :
  ¬ chronological 0 clock_set_back
  ∧ (run clock_set_back initial).2 = [Sleeps 1; Nothing; Finished 1 ThrewTypeError].
Proof. split; [simpl; lia|by vm_compute]. Qed.

(** ** Where the code departs from the specification *)

(** C9 as stated fails: the cleanup does remove the record of a call that
    is still waiting.  A call that starts at 0 and whose timer has not fired
    when the cleanup sweeps at 60001 (the clock runs forwards) is then still
    suspended, and its record is out of the map.  When its timer fires
    afterwards the call gives up on its deadline, without reading. *)
Lemma cleanup_removes_the_record_of_a_waiting_call :
  let tr := [(0, click); (60001, CleanupInterval)] in
  let s := (run tr initial).1 in
  chronological 0 tr
  ∧ (run tr initial).2 = [Sleeps 1; Nothing]
  ∧ sleeping s !! 1 = Some 0
  ∧ JsMap.get 1 (commandQueue s) = None
  ∧ (step 60002 (TimerFires 1) s).2 = Finished 1 (ThrewError (Js.Str "Command timeout")).
Proof. split; [simpl; lia|]. vm_compute. repeat split. Qed.


(** C3 as stated fails: a success reported 29990 ms after the start, before
    the 30000 ms are over, is not returned when the timer next fires at
    30050 ms, the call throws the timeout error; and a success reported at
    40 ms is not returned when a failure report for the same id follows at
    60 ms, before the timer fires at 100 ms. *)
Lemma reported_success_is_not_always_returned :
  let late := run [(0, click); (29950, TimerFires 1);
                   (29990, success_report 1 clicked); (30050, TimerFires 1)] initial in
  let twice := run [(0, click); (40, success_report 1 clicked);
                    (60, failure_report 1 (Js.Str "boom")); (100, TimerFires 1)] initial in
  late.2 = [Sleeps 1; Sleeps 1; Acknowledged;
            Finished 1 (ThrewError (Js.Str "Command timeout"))]
  ∧ outcome_of 1 late.2 ≠ Some (Returned clicked)
  ∧ twice.2 = [Sleeps 1; Acknowledged; Acknowledged;
               Finished 1 (ThrewError (Js.Str "boom"))]
  ∧ outcome_of 1 twice.2 ≠ Some (Returned clicked).
Proof. vm_compute. split_and!; (reflexivity || discriminate). Qed.

(** C8 as stated fails: a failure reported with an empty message, or with
    none, is thrown as "Command failed"; a failure reported 29990 ms after
    the start is thrown as "Command timeout" when the timer next fires at
    30050 ms; and a failure reported at 40 ms is not thrown at all when a
    success report for the same id follows at 60 ms. *)
Lemma failure_message_is_not_always_the_reported_one :
  outcome_of 1 (run [(0, click); (50, failure_report 1 (Js.Str EmptyString));
                     (100, TimerFires 1)] initial).2
  = Some (ThrewError (Js.Str "Command failed"))
  ∧ outcome_of 1 (run [(0, click); (50, failure_report 1 Js.Undefined);
                       (100, TimerFires 1)] initial).2
    = Some (ThrewError (Js.Str "Command failed"))
  ∧ outcome_of 1 (run [(0, click); (29950, TimerFires 1);
                       (29990, failure_report 1 (Js.Str "no such element"));
                       (30050, TimerFires 1)] initial).2
    = Some (ThrewError (Js.Str "Command timeout"))
  ∧ outcome_of 1 (run [(0, click); (40, failure_report 1 (Js.Str "no such element"));
                       (60, success_report 1 clicked); (100, TimerFires 1)] initial).2
    = Some (Returned clicked).
Proof. vm_compute. repeat split. Qed.

(** * Further properties of the relay *)

(** ** Ids and owners *)

Lemma tidy_initial : tidy initial.
Proof. split; simpl; [apply NoDup_nil_2|done|done|done]. Qed.

Lemma step_tidy now e s : tidy s → tidy (step now e s).1.
Proof.
  intros [Hnd Hc Hsl Hown].
  event_cases e; simpl; try by split.
  - (* a result report *)
    split; simpl; [by apply command_result_NoDup|done|done|].
    intros k cmd'. unfold command_result, queue_get.
    destruct (body_commandId b) as [| | |n| | |]; try apply Hown.
    destruct (JsMap.get n (commandQueue s)) as [c|] eqn:Hn; simpl; [|apply Hown].
    destruct (decide (n = k)) as [->|Hne].
    + rewrite JsMapFacts.get_set_eq. intros [= <-]. simpl. by apply Hown.
    + rewrite JsMapFacts.get_set_ne by done. apply Hown.
  - (* the cleanup interval *)
    split; simpl; [by apply cleanup_NoDup|done|done|].
    intros k cmd Hget. apply Hown. by apply (cleanup_get_Some now).
  - (* a new call *)
    destruct (send_sleeps now act par s) as (cmd & Hstep & Hts & _ & Hid).
    simpl in Hstep. rewrite Hstep. simpl.
    split; simpl; [by apply JsMapFacts.NoDup_keys_set|lia| |].
    + intros k start [[<- <-]|[Hne Hk]]%lookup_insert_Some; [lia|].
      specialize (Hsl k start Hk). lia.
    + intros k c. destruct (decide (commandIdCounter s + 1 = k)) as [<-|Hne].
      * rewrite JsMapFacts.get_set_eq, lookup_insert_eq. intros [= <-].
        by rewrite Hts, Hid.
      * rewrite JsMapFacts.get_set_ne, lookup_insert_ne by done. apply Hown.
  - (* a timer *)
    destruct (sleeping s !! k0) as [start0|] eqn:Hk0; [|by split].
    destruct (resume_cases now k0 start0 s)
      as (_ & Hcnt & [(_ & _ & _ & Hq & Hs')|[(_ & Hnone & _ & Hq & Hs')|
                      [(_ & _ & Hq & Hs')|(_ & _ & Hq & Hs')]]]).
    + split; rewrite ?Hq, ?Hs', ?Hcnt, ?insert_id by done; done.
    + split; rewrite ?Hq, ?Hs', ?Hcnt; [done|done| |].
      * intros k start [_ Hk]%lookup_delete_Some. by apply (Hsl k start).
      * intros k cmd Hget. rewrite lookup_delete_ne; [by apply Hown|congruence].
    + split; rewrite ?Hq, ?Hs', ?Hcnt; [by apply JsMapFacts.NoDup_keys_filter|done| |].
      * intros k start [_ Hk]%lookup_delete_Some. by apply (Hsl k start).
      * intros k cmd. destruct (decide (k0 = k)) as [->|Hne].
        -- by rewrite JsMapFacts.get_delete_eq.
        -- rewrite JsMapFacts.get_delete_ne, lookup_delete_ne by done. apply Hown.
    + split; rewrite ?Hq, ?Hs', ?Hcnt; [by apply JsMapFacts.NoDup_keys_filter|done| |].
      * intros k start [_ Hk]%lookup_delete_Some. by apply (Hsl k start).
      * intros k cmd. destruct (decide (k0 = k)) as [->|Hne].
        -- by rewrite JsMapFacts.get_delete_eq.
        -- rewrite JsMapFacts.get_delete_ne, lookup_delete_ne by done. apply Hown.
Qed.

Lemma run_tidy tr s : tidy s → tidy (run tr s).1.
Proof.
  revert s. induction tr as [|[now e] tr IH]; intros s Hs; [done|].
  rewrite run_cons. cbn [fst]. by apply IH, step_tidy.
Qed.

Lemma reachable_tidy tr : tidy (run tr initial).1.
Proof. apply run_tidy, tidy_initial. Qed.

Lemma step_counter now e s :
  commandIdCounter (step now e s).1
  = commandIdCounter s + (if decide (is_send (now, e)) then 1 else 0).
Proof.
  event_cases e; simpl; try lia.
  - send_step now act par s. lia.
  - destruct (sleeping s !! k0) as [start0|]; [|simpl; lia].
    destruct (resume_cases now k0 start0 s) as (_ & -> & _). lia.
Qed.

Lemma run_counter tr s :
  commandIdCounter (run tr s).1
  = commandIdCounter s + Z.of_nat (length (filter is_send tr)).
Proof.
  revert s. induction tr as [|[now e] tr IH]; intros s; [simpl; lia|].
  rewrite run_cons, filter_cons. cbn [fst]. rewrite IH, step_counter.
  destruct (decide (is_send (now, e))); simpl; lia.
Qed.

Lemma step_reply_id now e s k :
  tidy s → reply_id (step now e s).2 = Some k → k ≤ commandIdCounter (step now e s).1.
Proof.
  intros Hs. event_cases e; simpl; try done.
  - send_step now act par s. intros [= <-]. lia.
  - destruct (sleeping s !! k0) as [start0|] eqn:Hk0; [|done].
    pose proof (tidy_sleepers _ Hs k0 start0 Hk0) as Hle.
    destruct (resume_cases now k0 start0 s)
      as (_ & -> & [(_ & _ & -> & _)|[(_ & _ & -> & _)|
                    [(_ & (c & _ & _ & ->) & _)|(_ & -> & _)]]]);
      simpl; intros [= <-]; lia.
Qed.

Lemma run_reply_id tr s r k :
  tidy s → r ∈ (run tr s).2 → reply_id r = Some k → k ≤ commandIdCounter (run tr s).1.
Proof.
  revert s. induction tr as [|[now e] tr IH]; intros s Hs; simpl.
  - intros Hin. by apply elem_of_nil in Hin.
  - pose proof (run_cons now e tr s) as Hrun. simpl in Hrun. rewrite Hrun. simpl.
    intros [->|Hin]%elem_of_cons Hk.
    + pose proof (step_reply_id now e s k Hs Hk) as Hle.
      rewrite run_counter. lia.
    + apply (IH _ (step_tidy now e s Hs) Hin Hk).
Qed.

(** X1.  The n-th call since the server started is given the id n: the
    counter equals the number of calls made so far, the next id is held by no
    record and no suspended call, and no reply so far bore it. *)
Theorem ids_count_the_calls (tr : list (Z * Event)) (now : Z) (act : string)
    (par : Js.Val) :
  let s := (run tr initial).1 in
  let k := Z.of_nat (length (filter is_send tr)) + 1 in
  commandIdCounter s + 1 = k
  ∧ (step now (Send act par) s).2 = Sleeps k
  ∧ JsMap.get k (commandQueue s) = None
  ∧ sleeping s !! k = None
  ∧ ∀ r, r ∈ (run tr initial).2 → reply_id r ≠ Some k.
Proof.
  intros s k. pose proof (reachable_tidy tr) as Hs. fold s in Hs.
  assert (commandIdCounter s + 1 = k) as Hk.
  { unfold s, k. rewrite run_counter. simpl. lia. }
  assert (sleeping s !! k = None) as Hsl.
  { destruct (sleeping s !! k) as [start|] eqn:E; [|done].
    pose proof (tidy_sleepers _ Hs k start E). lia. }
  split_and!; try done.
  - destruct (send_sleeps now act par s) as (c & -> & _). by rewrite Hk.
  - destruct (JsMap.get k (commandQueue s)) as [cmd|] eqn:E; [|done].
    destruct (tidy_owner _ Hs k cmd E) as [Hown _]. congruence.
  - intros r Hin Hr.
    pose proof (run_reply_id tr initial r k tidy_initial Hin Hr) as Hle.
    fold s in Hle. lia.
Qed.

Lemma filter_all {A} (P : A → Prop) `{!∀ x, Decision (P x)} (l : list A) :
  (∀ x, x ∈ l → P x) → filter P l = l.
Proof.
  induction l as [|a l IH]; [done|]. intros Hall.
  rewrite filter_cons_True by (apply Hall; left).
  rewrite IH; [done|]. intros x Hx. apply Hall. by right.
Qed.

(** X2.  Every record in the map is that of a call still suspended in
    [sendCommandToExtension], filed under its own id and stamped with the
    call's start; a call that has ended leaves none.  So a sweep of the
    cleanup interval finds nothing to remove unless some call has been
    suspended for more than 60000 ms. *)
Theorem records_belong_to_suspended_calls (tr : list (Z * Event)) :
  let s := (run tr initial).1 in
  (∀ k cmd, JsMap.get k (commandQueue s) = Some cmd →
     sleeping s !! k = Some (timestamp cmd) ∧ id cmd = k)
  ∧ (length (commandQueue s) ≤ size (sleeping s))%nat
  ∧ ∀ now, (∀ k start, sleeping s !! k = Some start → now - start ≤ 60000) →
           cleanup now (commandQueue s) = commandQueue s.
Proof.
  intros s. pose proof (reachable_tidy tr) as Hs. fold s in Hs.
  split_and!.
  - apply Hs.
  - rewrite <-(length_fmap fst (commandQueue s)).
    rewrite <-(size_list_to_set (C:=gset Z)) by apply Hs.
    rewrite <-size_dom. apply subseteq_size.
    intros k Hk%elem_of_list_to_set. apply elem_of_dom.
    destruct (JsMap.get k (commandQueue s)) as [cmd|] eqn:E.
    + destruct (tidy_owner _ Hs k cmd E) as [-> _]. done.
    + by apply JsMapFacts.get_None_keys in E.
  - intros now Hyoung. rewrite cleanup_filter by apply Hs.
    apply filter_all. intros [k cmd] Hin Hexp. unfold expired in Hexp. simpl in Hexp.
    apply (JsMapFacts.elem_get _ _ _ (tidy_keys _ Hs)) in Hin.
    destruct (tidy_owner _ Hs k cmd Hin) as [Hsl _].
    specialize (Hyoung k _ Hsl). unfold maxAge in Hexp. lia.
Qed.

Lemma records_sample :
  let s := (run (one_sleeping ++ unrelated) initial).1 in
  (∀ k start, sleeping s !! k = Some start → 59000 - start ≤ 60000)
  ∧ cleanup 59000 (commandQueue s) = commandQueue s.
Proof.
  assert (∀ k start,
            sleeping (run (one_sleeping ++ unrelated) initial).1 !! k = Some start →
            59000 - start ≤ 60000) as Hyoung.
  { intros k start Hk.
    pose proof (tidy_sleepers _ (reachable_tidy (one_sleeping ++ unrelated)) k start Hk)
      as Hrange.
    change (1 ≤ k ≤ 1) in Hrange. assert (k = 1) as -> by lia.
    vm_compute in Hk. injection Hk as <-. lia. }
  split; [exact Hyoung|].
  exact (proj2 (proj2 (records_belong_to_suspended_calls (one_sleeping ++ unrelated)))
               59000 Hyoung).
Defined.

(** ** The end of a call *)

Lemma step_finished now e s k o :
  tidy s → (step now e s).2 = Finished k o → gone k (step now e s).1.
Proof.
  intros Hs. event_cases e; simpl; try done.
  - by send_step now act par s.
  - destruct (sleeping s !! k0) as [start0|] eqn:Hk0; [|done].
    pose proof (tidy_sleepers _ Hs k0 start0 Hk0) as Hle. unfold gone.
    destruct (resume_cases now k0 start0 s)
      as (_ & -> & [(_ & _ & -> & _)|[(_ & Hnone & -> & -> & ->)|
                    [(_ & (c & _ & _ & ->) & -> & ->)|(_ & -> & -> & ->)]]]);
      try done; intros [= <- _];
      rewrite ?JsMapFacts.get_delete_eq, lookup_delete_eq; split_and!; (done || lia).
Qed.

Lemma run_finished tr s k o :
  tidy s → outcome_of k (run tr s).2 = Some o → gone k (run tr s).1.
Proof.
  revert s. induction tr as [|[now e] tr IH]; intros s Hs; [done|].
  rewrite run_cons. cbn [fst snd].
  destruct (step now e s).2 as [| | | | |k' o'] eqn:Hr; simpl;
    try (apply IH; by apply step_tidy).
  destruct (decide (k' = k)) as [->|Hne].
  - intros _. apply run_gone. by apply (step_finished now e s k o').
  - rewrite bool_decide_eq_false_2 by done. apply IH. by apply step_tidy.
Qed.

(** X3.  Once a call has ended, whatever its outcome, its id is out of the
    map and stays out: a late report for it is acknowledged and changes
    nothing, its timer does nothing, and no later reply ends it again. *)
Theorem ended_call_is_over (tr : list (Z * Event)) (k : Z) (o : Outcome) :
  outcome_of k (run tr initial).2 = Some o →
  let s := (run tr initial).1 in
  JsMap.get k (commandQueue s) = None
  ∧ sleeping s !! k = None
  ∧ (∀ now body, body_commandId body = Js.Num k →
       step now (PostCommandResult body) s = (s, Acknowledged))
  ∧ (∀ now, step now (TimerFires k) s = (s, Nothing))
  ∧ ∀ tr', outcome_of k (run tr' s).2 = None
           ∧ JsMap.get k (commandQueue (run tr' s).1) = None.
Proof.
  intros Hout s.
  pose proof (run_finished tr initial k o tidy_initial Hout) as Hgone. fold s in Hgone.
  destruct Hgone as (Hk & Hget & Hsl).
  split_and!; try done.
  - intros now body Hid. simpl. unfold command_result, queue_get.
    rewrite Hid, Hget. simpl. by rewrite with_queue_same.
  - intros now. simpl. by rewrite Hsl.
  - intros tr'. destruct (run_gone tr' s k) as [(_ & Hget' & _) Hnone]; done.
Qed.

Lemma ended_call_sample :
  let tr := [(0, click); (30000, TimerFires 1)] in
  let s := (run tr initial).1 in
  JsMap.get 1 (commandQueue s) = None
  ∧ sleeping s !! 1 = None
  ∧ (∀ now body, body_commandId body = Js.Num 1 →
       step now (PostCommandResult body) s = (s, Acknowledged))
  ∧ (∀ now, step now (TimerFires 1) s = (s, Nothing))
  ∧ ∀ tr', outcome_of 1 (run tr' s).2 = None
           ∧ JsMap.get 1 (commandQueue (run tr' s).1) = None.
Proof.
  apply (ended_call_is_over [(0, click); (30000, TimerFires 1)] 1
           (ThrewError (Js.Str "Command timeout"))).
  reflexivity.
Defined.

(** ** Delivery *)

Lemma get_elem {V} (k : Z) (v : V) (m : list (Z * V)) :
  JsMap.get k m = Some v → (k, v) ∈ m.
Proof.
  induction m as [|[k' v'] m IH]; simpl; [done|].
  destruct (bool_decide (k' = k)) eqn:E.
  - apply bool_decide_eq_true_1 in E as ->. intros [= ->]. left.
  - intros. right. auto.
Qed.

Lemma step_waiting now e s k start cmd :
  tidy s →
  sleeping s !! k = Some start →
  JsMap.get k (commandQueue s) = Some cmd → status cmd = pending →
  now - timestamp cmd ≤ maxAge →
  ¬ reports k e → (e = TimerFires k → now - start < timeout) →
  JsMap.get k (commandQueue (step now e s).1) = Some cmd
  ∧ sleeping (step now e s).1 !! k = Some start
  ∧ ∀ o, (step now e s).2 ≠ Finished k o.
Proof.
  intros Hs Hsl Hget Hst Hage Hrep Hearly.
  destruct (timer_or_not k e) as [->|Hother].
  - specialize (Hearly eq_refl). simpl. rewrite Hsl.
    destruct (resume_cases now k start s)
      as (_ & _ & [(_ & _ & -> & -> & ->)|[(_ & Hnone & _)|
                   [(_ & (c & Hc1 & Hc2 & _) & _)|(Hge & _)]]]).
    + by rewrite lookup_insert_eq.
    + congruence.
    + congruence.
    + lia.
  - destruct (step_frame now e s k cmd) as (Hget' & Hsl' & Hr); try done.
    + apply Hs.
    + pose proof (tidy_sleepers _ Hs k start Hsl). lia.
    + by rewrite Hsl'.
Qed.

Lemma run_waiting t tr s k start cmd :
  tidy s → chronological t tr →
  sleeping s !! k = Some start →
  JsMap.get k (commandQueue s) = Some cmd → status cmd = pending →
  end_time t tr - timestamp cmd ≤ maxAge →
  (∀ now e, (now, e) ∈ tr → ¬ reports k e) →
  (∀ now, (now, TimerFires k) ∈ tr → now - start < timeout) →
  JsMap.get k (commandQueue (run tr s).1) = Some cmd
  ∧ sleeping (run tr s).1 !! k = Some start
  ∧ outcome_of k (run tr s).2 = None.
Proof.
  revert t s. induction tr as [|[now e] tr IH]; intros t s Hs; [done|].
  simpl chronological. simpl end_time. intros [Hle Htr] Hsl Hget Hst Hage Hrep Hearly.
  rewrite run_cons. cbn [fst snd].
  pose proof (chronological_end _ _ Htr) as Hend.
  destruct (step_waiting now e s k start cmd) as (Hget1 & Hsl1 & Hr); try done.
  - lia.
  - apply (Hrep now). left.
  - intros ->. apply Hearly. left.
  - rewrite outcome_of_cons_other by done. apply (IH now); try done.
    + by apply step_tidy.
    + intros now' e' Hin. apply (Hrep now'). by right.
    + intros now' Hin. apply Hearly. by right.
Qed.

(** X4.  Delivery is at least once: a command that has been dispatched is
    handed out, with its id, action and parameters, by every poll that comes
    before a report for it, while its call has not given up and no more than
    60000 ms have passed since the dispatch. *)
Theorem dispatched_command_is_polled_until_reported (pre mid : list (Z * Event))
    (t1 now : Z) (act : string) (par : Js.Val) :
  let s0 := (run pre initial).1 in
  let k := commandIdCounter s0 + 1 in
  chronological t1 (mid ++ [(now, GetPollCommands)]) →
  (∀ t e, (t, e) ∈ mid → ¬ reports k e) →
  (∀ t, (t, TimerFires k) ∈ mid → t - t1 < 30000) →
  now - t1 ≤ 60000 →
  ∃ l, last (run ((t1, Send act par) :: mid ++ [(now, GetPollCommands)]) s0).2
       = Some (Commands l)
       ∧ mkPolled k act (match par with Js.Undefined => Js.Obj [] | _ => par end) ∈ l.
Proof.
  intros s0 k [Hmid Hlast]%chronological_app Hrep Hearly Hage.
  pose proof (reachable_tidy pre) as Hs0. fold s0 in Hs0.
  pose proof (step_tidy t1 (Send act par) s0 Hs0) as Hs1.
  rewrite run_cons. cbn [fst snd].
  set (cmd := mkCommand k act (match par with Js.Undefined => Js.Obj [] | _ => par end)
                        t1 pending Js.Null).
  assert (JsMap.get k (commandQueue (step t1 (Send act par) s0).1) = Some cmd
          ∧ sleeping (step t1 (Send act par) s0).1 !! k = Some t1) as [Hget1 Hsl1].
  { unfold k, cmd. simpl. unfold resume, loop_turn. simpl.
    rewrite Z.sub_diag. simpl. rewrite JsMapFacts.get_set_eq. simpl.
    by rewrite JsMapFacts.get_set_eq, lookup_insert_eq. }
  set (s1 := (step t1 (Send act par) s0).1) in *.
  destruct (run_waiting t1 mid s1 k t1 cmd) as (Hget2 & _ & _); try done.
  { simpl in Hlast. unfold maxAge. simpl. lia. }
  rewrite run_app. cbn [fst snd run step].
  exists (poll_commands (commandQueue (run mid s1).1)).
  split.
  - rewrite app_comm_cons. by rewrite last_snoc.
  - unfold poll_commands. apply list_elem_of_fmap. exists cmd. split; [done|].
    apply list_elem_of_filter. split; [done|].
    apply list_elem_of_fmap. exists (k, cmd). split; [done|].
    by apply get_elem.
Qed.

Lemma polled_again_sample :
  ∃ l, last (run ((200, Send "navigate_to" Js.Undefined)
                    :: second_call_polled ++ [(500, GetPollCommands)])
                 (run one_sleeping initial).1).2
       = Some (Commands l)
       ∧ mkPolled 2 "navigate_to" (Js.Obj []) ∈ l.
Proof.
  apply (dispatched_command_is_polled_until_reported one_sleeping second_call_polled
           200 500 "navigate_to" Js.Undefined).
  - simpl. lia.
  - intros t e Hin. unfold second_call_polled in Hin.
    repeat (apply elem_of_cons in Hin as [[= -> ->]|Hin]; [simpl; tauto|]).
    by apply elem_of_nil in Hin.
  - intros t Hin. unfold second_call_polled in Hin.
    repeat (apply elem_of_cons in Hin as [Heq|Hin];
            [try discriminate Heq; assert (t = 350) as -> by congruence; lia|]).
    by apply elem_of_nil in Hin.
  - lia.
Defined.

(** * Further properties of the telemetry buffers *)

Lemma strict_eq_str_true v s : strict_eq_str v s = true → v = Js.Str s.
Proof.
  destruct v; simpl; try done. intros H. f_equal. by apply String.eqb_eq.
Qed.

Lemma step_pushed_network now e s :
  ¬ is_clear (now, e) →
  networkRequests (devToolsData (step now e s).1)
  = match pushed_by "network" (now, e) with
    | Some data => push_capped network_cap data (networkRequests (devToolsData s))
    | None => networkRequests (devToolsData s)
    end.
Proof.
  intros Hclear. event_cases e; simpl; try done.
  - unfold pushed_by, devtools_data. simpl.
    destruct (strict_eq_str ty "network") eqn:E1; [done|].
    destruct (strict_eq_str ty "console") eqn:E2; [done|].
    by destruct (strict_eq_str ty "performance").
  - by rewrite resume_data.
  - destruct (sleeping s !! k0); [by rewrite resume_data|done].
Qed.

Lemma step_pushed_console now e s :
  ¬ is_clear (now, e) →
  consoleLogs (devToolsData (step now e s).1)
  = match pushed_by "console" (now, e) with
    | Some data => push_capped console_cap data (consoleLogs (devToolsData s))
    | None => consoleLogs (devToolsData s)
    end.
Proof.
  intros Hclear. event_cases e; simpl; try done.
  - unfold pushed_by, devtools_data. simpl.
    destruct (strict_eq_str ty "network") eqn:E1.
    + apply strict_eq_str_true in E1 as ->. done.
    + destruct (strict_eq_str ty "console") eqn:E2; [done|].
      by destruct (strict_eq_str ty "performance").
  - by rewrite resume_data.
  - destruct (sleeping s !! k0); [by rewrite resume_data|done].
Qed.

Lemma step_pushed_performance now e s :
  ¬ is_clear (now, e) →
  performanceMetrics (devToolsData (step now e s).1)
  = match pushed_by "performance" (now, e) with
    | Some data => push_capped performance_cap data (performanceMetrics (devToolsData s))
    | None => performanceMetrics (devToolsData s)
    end.
Proof.
  intros Hclear. event_cases e; simpl; try done.
  - unfold pushed_by, devtools_data. simpl.
    destruct (strict_eq_str ty "network") eqn:E1.
    + apply strict_eq_str_true in E1 as ->. done.
    + destruct (strict_eq_str ty "console") eqn:E2.
      * apply strict_eq_str_true in E2 as ->. done.
      * by destruct (strict_eq_str ty "performance").
  - by rewrite resume_data.
  - destruct (sleeping s !! k0); [by rewrite resume_data|done].
Qed.

Lemma run_pushed (get : DevToolsData → list Js.Val) (type : string) (cap : Z) tr s :
  (∀ now e s, ¬ is_clear (now, e) →
     get (devToolsData (step now e s).1)
     = match pushed_by type (now, e) with
       | Some data => push_capped cap data (get (devToolsData s))
       | None => get (devToolsData s)
       end) →
  Forall (λ te, ¬ is_clear te) tr →
  get (devToolsData (run tr s).1)
  = foldl (λ buf data, push_capped cap data buf) (get (devToolsData s)) (pushed type tr).
Proof.
  intros Hstep. revert s. induction tr as [|[now e] tr IH]; intros s Hno; [done|].
  apply Forall_cons in Hno as [Hhead Htail].
  rewrite run_cons. cbn [fst]. rewrite IH, Hstep by done.
  unfold pushed. simpl. by destruct (pushed_by type (now, e)).
Qed.

(** X5.  However the pushes of the three types are interleaved with each
    other, with pushes of other types and with all the other traffic, as
    long as nothing is cleared each buffer holds the most recent records
    pushed under its own type, up to its capacity, in the order they came. *)
Theorem buffers_hold_the_latest_of_their_type (tr : list (Z * Event)) :
  Forall (λ te, ¬ is_clear te) tr →
  let d := devToolsData (run tr initial).1 in
  networkRequests d
  = drop (length (pushed "network" tr) - Z.to_nat 5000) (pushed "network" tr)
  ∧ consoleLogs d
    = drop (length (pushed "console" tr) - Z.to_nat 5000) (pushed "console" tr)
  ∧ performanceMetrics d
    = drop (length (pushed "performance" tr) - Z.to_nat 500) (pushed "performance" tr).
Proof.
  intros Hno d. unfold d.
  rewrite (run_pushed networkRequests "network" network_cap)
    by (done || apply step_pushed_network).
  rewrite (run_pushed consoleLogs "console" console_cap)
    by (done || apply step_pushed_console).
  rewrite (run_pushed performanceMetrics "performance" performance_cap)
    by (done || apply step_pushed_performance).
  simpl. by rewrite !pushes_fold, !slice_from_neg.
Qed.

Lemma buffers_latest_sample :
  let d := devToolsData (run mixed_traffic initial).1 in
  networkRequests d
  = drop (length (pushed "network" mixed_traffic) - Z.to_nat 5000)
         (pushed "network" mixed_traffic)
  ∧ consoleLogs d
    = drop (length (pushed "console" mixed_traffic) - Z.to_nat 5000)
           (pushed "console" mixed_traffic)
  ∧ performanceMetrics d
    = drop (length (pushed "performance" mixed_traffic) - Z.to_nat 500)
           (pushed "performance" mixed_traffic).
Proof.
  apply (buffers_hold_the_latest_of_their_type mixed_traffic).
  unfold mixed_traffic. repeat (apply Forall_cons; split; [simpl; tauto|]).
  apply Forall_nil_2.
Defined.

(** ** Clearing *)


Lemma tab_is_clean t r :
  nullish r = false → ∃ b, tab_is t r = Some b ∧ (b = true ↔ of_tab t r).
Proof.
  intros Hr. unfold of_tab. destruct (tab_is t r) as [b|] eqn:E.
  - exists b. split; [done|]. split; congruence.
  - unfold tab_is in E. destruct r as [| | | | | |fs]; simpl in *; try done.
    by destruct (Js.field "tabId" fs).
Qed.


Lemma filter_try_tab_is_not t l :
  Forall (λ r, nullish r = false) l →
  filter_try (tab_is_not t) l = Some (filter (λ r, ¬ of_tab t r) l).
Proof.
  induction 1 as [|r l Hr Hl IH]; [done|]. simpl. unfold tab_is_not at 1.
  destruct (tab_is_clean t r Hr) as (b & -> & Hb).
  rewrite IH, filter_cons. simpl. destruct b; simpl.
  - by rewrite decide_False by tauto.
  - rewrite decide_True; [done|]. intros H. apply Hb in H. done.
Qed.

Lemma filter_try_throws {A} (p : A → option bool) (l : list A) x :
  x ∈ l → p x = None → filter_try p l = None.
Proof.
  induction l as [|a l IH]; simpl.
  - intros H. by apply elem_of_nil in H.
  - intros [->|Hin]%elem_of_cons Hx.
    + by rewrite Hx.
    + destruct (p a); [|done]. by rewrite IH.
Qed.

Lemma tab_is_nullish t r : nullish r = true → tab_is t r = None ∧ tab_is_not t r = None.
Proof. unfold tab_is_not, tab_is. by destruct r. Qed.





(** X7.  With a tab id, [clear_devtools_data] filters the three buffers one
    after the other and fails at the first buffer that holds a [null] or
    [undefined] record: the buffers before it stay filtered, that buffer,
    those after it and [lastUpdate] stay as they were. *)
Theorem clear_stops_at_an_unreadable_record (t : Z) (limit : option Z)
    (url level : option string) (d : DevToolsData) (r : Js.Val) :
  t ≠ 0 →
  nullish r = true →
  let d' := clear_devtools_data (mkQueryArgs (Some t) limit url level) d in
  (r ∈ networkRequests d → d' = d)
  ∧ (Forall (λ x, nullish x = false) (networkRequests d) → r ∈ consoleLogs d →
     d' = mkDevToolsData (filter (λ x, ¬ of_tab t x) (networkRequests d))
                         (consoleLogs d) (performanceMetrics d) (lastUpdate d))
  ∧ (Forall (λ x, nullish x = false) (networkRequests d) →
     Forall (λ x, nullish x = false) (consoleLogs d) → r ∈ performanceMetrics d →
     d' = mkDevToolsData (filter (λ x, ¬ of_tab t x) (networkRequests d))
                         (filter (λ x, ¬ of_tab t x) (consoleLogs d))
                         (performanceMetrics d) (lastUpdate d)).
Proof.
  intros Ht Hr d'.
  assert (truthy_number (Some t) = Some t) as Htab.
  { simpl. by destruct (Z.eqb_spec t 0). }
  destruct (tab_is_nullish t r Hr) as [_ Hthrow].
  unfold d', clear_devtools_data. cbn [arg_tab_id]. rewrite Htab.
  split_and!.
  - intros Hin. by rewrite (filter_try_throws _ _ r Hin Hthrow).
  - intros Hn Hin.
    by rewrite (filter_try_tab_is_not t _ Hn), (filter_try_throws _ _ r Hin Hthrow).
  - intros Hn Hc Hin.
    by rewrite (filter_try_tab_is_not t _ Hn), (filter_try_tab_is_not t _ Hc),
               (filter_try_throws _ _ r Hin Hthrow).
Qed.

Lemma clear_stops_sample :
  let d' := clear_devtools_data (mkQueryArgs (Some 7) None None None) two_tabs in
  (Js.Null ∈ networkRequests two_tabs → d' = two_tabs)
  ∧ (Forall (λ x, nullish x = false) (networkRequests two_tabs) →
     Js.Null ∈ consoleLogs two_tabs →
     d' = mkDevToolsData (filter (λ x, ¬ of_tab 7 x) (networkRequests two_tabs))
                         (consoleLogs two_tabs) (performanceMetrics two_tabs)
                         (lastUpdate two_tabs))
  ∧ (Forall (λ x, nullish x = false) (networkRequests two_tabs) →
     Forall (λ x, nullish x = false) (consoleLogs two_tabs) →
     Js.Null ∈ performanceMetrics two_tabs →
     d' = mkDevToolsData (filter (λ x, ¬ of_tab 7 x) (networkRequests two_tabs))
                         (filter (λ x, ¬ of_tab 7 x) (consoleLogs two_tabs))
                         (performanceMetrics two_tabs) (lastUpdate two_tabs)).
Proof.
  apply (clear_stops_at_an_unreadable_record 7 None None None two_tabs Js.Null);
    [lia|reflexivity].
Defined.

(** * Further properties of the telemetry queries *)

Lemma filter_try_Some {A} (p : A → option bool) (l r : list A) :
  filter_try p l = Some r → r = filter (λ x, p x = Some true) l.
Proof.
  revert r. induction l as [|x l IH]; simpl; intros r.
  - by intros [= <-].
  - destruct (p x) as [b|] eqn:Ex; [|done].
    destruct (filter_try p l) as [r'|]; [|done]. intros [= <-].
    rewrite filter_cons, (IH r' eq_refl), Ex.
    destruct b; destruct (decide _); congruence.
Qed.

Lemma filter_when_Some {X} (x : option X) (p : X → Js.Val → option bool)
    (l r : list Js.Val) :
  filter_when x p l = Some r →
  r = filter (when_given x (λ a v, p a v = Some true)) l.
Proof.
  destruct x as [a|]; simpl.
  - apply filter_try_Some.
  - intros [= <-]. symmetry. by apply filter_all.
Qed.

Lemma network_requests_items lower args d r :
  get_network_requests lower args d = Some r →
  query_items r = Js.slice_from (- number_or (arg_limit args) 50)
                    (filter (network_match lower args) (networkRequests d)).
Proof.
  unfold get_network_requests.
  destruct (filter_when _ tab_is _) as [m1|] eqn:E1; [|done]. simpl.
  destruct (filter_when _ (url_has lower) m1) as [m2|] eqn:E2; [|done]. simpl.
  intros [= <-]. simpl. f_equal.
  apply filter_when_Some in E1, E2. subst m1 m2.
  rewrite list_filter_filter. apply list_filter_iff. intros v.
  unfold network_match. tauto.
Qed.

Lemma console_logs_items args d r :
  get_console_logs args d = Some r →
  query_items r = Js.slice_from (- number_or (arg_limit args) 50)
                    (filter (console_match args) (consoleLogs d)).
Proof.
  unfold get_console_logs.
  destruct (filter_when _ tab_is _) as [m1|] eqn:E1; [|done]. simpl.
  destruct (filter_when _ level_is m1) as [m2|] eqn:E2; [|done]. simpl.
  intros [= <-]. simpl. f_equal.
  apply filter_when_Some in E1, E2. subst m1 m2.
  rewrite list_filter_filter. apply list_filter_iff. intros v.
  unfold console_match. tauto.
Qed.

Lemma performance_metrics_items args d r :
  get_performance_metrics args d = Some r →
  query_items r = Js.slice_from (- number_or (arg_limit args) 20)
                    (filter (performance_match args) (performanceMetrics d)).
Proof.
  unfold get_performance_metrics.
  destruct (filter_when _ tab_is _) as [m1|] eqn:E1; [|done]. simpl.
  intros [= <-]. simpl. f_equal.
  apply filter_when_Some in E1. by subst m1.
Qed.

Lemma query_totals lower args d :
  (∀ r, get_network_requests lower args d = Some r →
        query_total r = length (networkRequests d) ∧ query_count r = length (query_items r))
  ∧ (∀ r, get_console_logs args d = Some r →
        query_total r = length (consoleLogs d) ∧ query_count r = length (query_items r))
  ∧ (∀ r, get_performance_metrics args d = Some r →
        query_total r = length (performanceMetrics d)
        ∧ query_count r = length (query_items r)).
Proof.
  unfold get_network_requests, get_console_logs, get_performance_metrics.
  split_and!; intros r.
  - destruct (filter_when _ tab_is _) as [m1|]; [|done]. simpl.
    destruct (filter_when _ _ m1) as [m2|]; [|done]. simpl. by intros [= <-].
  - destruct (filter_when _ tab_is _) as [m1|]; [|done]. simpl.
    destruct (filter_when _ _ m1) as [m2|]; [|done]. simpl. by intros [= <-].
  - destruct (filter_when _ tab_is _) as [m1|]; [|done]. simpl. by intros [= <-].
Qed.

Lemma slice_from_nonneg {A} (n : Z) (l : list A) :
  0 ≤ n → Js.slice_from n l = drop (Z.to_nat n) l.
Proof.
  intros Hn. unfold Js.slice_from. destruct (Z.ltb_spec n 0); [lia|].
  destruct (decide (n ≤ Z.of_nat (length l))).
  - f_equal. lia.
  - rewrite !drop_ge; [done|lia|lia].
Qed.

(** X8.  A query that does not fail answers with all the records of its
    buffer that pass its filters, cut down to the last [limit] of them (50,
    50 and 20 when no limit is given), in the order of the buffer; [total]
    is the size of the whole buffer and the count that of the answer. *)
Theorem query_answers_with_the_latest_matches (toLowerCase : string → string)
    (args : QueryArgs) (d : DevToolsData) (r : QueryResult) :
  (get_network_requests toLowerCase args d = Some r →
   let m := filter (network_match toLowerCase args) (networkRequests d) in
   let n := number_or (arg_limit args) 50 in
   query_total r = length (networkRequests d)
   ∧ query_count r = length (query_items r)
   ∧ (0 < n → query_items r = drop (length m - Z.to_nat n) m
              ∧ Z.of_nat (length (query_items r)) ≤ n))
  ∧ (get_console_logs args d = Some r →
     let m := filter (console_match args) (consoleLogs d) in
     let n := number_or (arg_limit args) 50 in
     query_total r = length (consoleLogs d)
     ∧ query_count r = length (query_items r)
     ∧ (0 < n → query_items r = drop (length m - Z.to_nat n) m
                ∧ Z.of_nat (length (query_items r)) ≤ n))
  ∧ (get_performance_metrics args d = Some r →
     let m := filter (performance_match args) (performanceMetrics d) in
     let n := number_or (arg_limit args) 20 in
     query_total r = length (performanceMetrics d)
     ∧ query_count r = length (query_items r)
     ∧ (0 < n → query_items r = drop (length m - Z.to_nat n) m
                ∧ Z.of_nat (length (query_items r)) ≤ n)).
Proof.
  destruct (query_totals toLowerCase args d) as (Hn & Hc & Hp).
  split_and!; intros Hr m n.
  - destruct (Hn r Hr) as [-> ->]. split_and!; try done. intros Hpos.
    rewrite (network_requests_items _ _ _ _ Hr). fold m n.
    rewrite slice_from_neg by done. split; [done|]. rewrite length_drop. lia.
  - destruct (Hc r Hr) as [-> ->]. split_and!; try done. intros Hpos.
    rewrite (console_logs_items _ _ _ Hr). fold m n.
    rewrite slice_from_neg by done. split; [done|]. rewrite length_drop. lia.
  - destruct (Hp r Hr) as [-> ->]. split_and!; try done. intros Hpos.
    rewrite (performance_metrics_items _ _ _ Hr). fold m n.
    rewrite slice_from_neg by done. split; [done|]. rewrite length_drop. lia.
Qed.

Lemma query_sample :
  let args := mkQueryArgs (Some 8) (Some 1) (Some "example"%string) None in
  let r := mkQueryResult 3 1 (Some 8) (Some 60)
             [Js.Obj [("tabId", Js.Num 8); ("url", Js.Str "https://b.example/")]] in
  get_network_requests (λ s, s) args two_tabs = Some r
  ∧ query_total r = 3%nat
  ∧ query_items r
    = drop (length (filter (network_match (λ s, s) args) (networkRequests two_tabs))
            - Z.to_nat 1)
           (filter (network_match (λ s, s) args) (networkRequests two_tabs)).
Proof.
  intros args r.
  assert (get_network_requests (λ s, s) args two_tabs = Some r) as Hr by reflexivity.
  destruct (proj1 (query_answers_with_the_latest_matches (λ s, s) args two_tabs r) Hr)
    as (Htotal & _ & Hitems).
  split_and!; [exact Hr|exact Htotal|].
  apply Hitems. simpl. lia.
Defined.

(** X9.  A negative limit does not limit: with limit [-n] a query that does
    not fail answers with the matching records but the [n] oldest. *)
Theorem negative_limit_drops_the_oldest (toLowerCase : string → string)
    (tab : option Z) (url level : option string) (n : Z) (d : DevToolsData)
    (r : QueryResult) :
  0 < n →
  let args := mkQueryArgs tab (Some (- n)) url level in
  (get_network_requests toLowerCase args d = Some r →
   query_items r
   = drop (Z.to_nat n) (filter (network_match toLowerCase args) (networkRequests d)))
  ∧ (get_console_logs args d = Some r →
     query_items r = drop (Z.to_nat n) (filter (console_match args) (consoleLogs d)))
  ∧ (get_performance_metrics args d = Some r →
     query_items r
     = drop (Z.to_nat n) (filter (performance_match args) (performanceMetrics d))).
Proof.
  intros Hn args.
  assert (∀ dflt, number_or (arg_limit args) dflt = - n) as Hlimit.
  { intros dflt. simpl. destruct (Z.eqb_spec (- n) 0); [lia|done]. }
  split_and!; intros Hr.
  - rewrite (network_requests_items _ _ _ _ Hr), Hlimit, Z.opp_involutive.
    apply slice_from_nonneg. lia.
  - rewrite (console_logs_items _ _ _ Hr), Hlimit, Z.opp_involutive.
    apply slice_from_nonneg. lia.
  - rewrite (performance_metrics_items _ _ _ Hr), Hlimit, Z.opp_involutive.
    apply slice_from_nonneg. lia.
Qed.

Lemma negative_limit_sample :
  0 < 1
  ∧ query_items
      (mkQueryResult 3 2 None (Some 60)
         [Js.Obj [("tabId", Js.Num 8); ("url", Js.Str "https://b.example/")];
          Js.Obj [("tabId", Js.Num 7); ("url", Js.Num 404)]])
    = drop (Z.to_nat 1)
        (filter (network_match (λ s, s) (mkQueryArgs None (Some (- 1)) None None))
                (networkRequests two_tabs)).
Proof.
  split; [lia|].
  apply (proj1 (negative_limit_drops_the_oldest (λ s, s) None None None 1 two_tabs
                  (mkQueryResult 3 2 None (Some 60)
                     [Js.Obj [("tabId", Js.Num 8); ("url", Js.Str "https://b.example/")];
                      Js.Obj [("tabId", Js.Num 7); ("url", Js.Num 404)]])
                  ltac:(lia))).
  reflexivity.
Defined.

(** X10.  A tab id of 0 and an empty url or level filter are falsy and
    count as not given: the queries answer as without them, and
    [clear_devtools_data] with tab id 0 empties every buffer. *)
Theorem falsy_filters_are_no_filters (toLowerCase : string → string)
    (tab limit : option Z) (url level : option string) (d : DevToolsData) :
  get_network_requests toLowerCase (mkQueryArgs (Some 0) limit url level) d
  = get_network_requests toLowerCase (mkQueryArgs None limit url level) d
  ∧ get_network_requests toLowerCase (mkQueryArgs tab limit (Some EmptyString) level) d
    = get_network_requests toLowerCase (mkQueryArgs tab limit None level) d
  ∧ get_console_logs (mkQueryArgs (Some 0) limit url level) d
    = get_console_logs (mkQueryArgs None limit url level) d
  ∧ get_console_logs (mkQueryArgs tab limit url (Some EmptyString)) d
    = get_console_logs (mkQueryArgs tab limit url None) d
  ∧ get_performance_metrics (mkQueryArgs (Some 0) limit url level) d
    = get_performance_metrics (mkQueryArgs None limit url level) d
  ∧ clear_devtools_data (mkQueryArgs (Some 0) limit url level) d
    = mkDevToolsData [] [] [] None.
Proof. split_and!; reflexivity. Qed.

Lemma url_has_nullish lower f r : nullish r = true → url_has lower f r = None.
Proof. by destruct r. Qed.

Lemma level_is_nullish f r : nullish r = true → level_is f r = None.
Proof. by destruct r. Qed.

Lemma filter_when_throws {X} (x : option X) (p : X → Js.Val → option bool) l r :
  is_Some x → r ∈ l → (∀ a, p a r = None) → filter_when x p l = None.
Proof.
  intros [a ->] Hin Hp. simpl. by apply (filter_try_throws _ _ r).
Qed.

(** X11.  One [null] or [undefined] record in a buffer makes every query
    of that buffer that filters fail, whatever the other records are;
    queries without a filter never read a record and never fail. *)
Theorem unreadable_record_fails_filtered_queries (toLowerCase : string → string)
    (tab limit : option Z) (url level : option string) (d : DevToolsData)
    (r : Js.Val) :
  nullish r = true →
  (r ∈ networkRequests d →
   is_Some (truthy_number tab) ∨ is_Some (truthy_string url) →
   get_network_requests toLowerCase (mkQueryArgs tab limit url level) d = None)
  ∧ (r ∈ consoleLogs d →
     is_Some (truthy_number tab) ∨ is_Some (truthy_string level) →
     get_console_logs (mkQueryArgs tab limit url level) d = None)
  ∧ (r ∈ performanceMetrics d →
     is_Some (truthy_number tab) →
     get_performance_metrics (mkQueryArgs tab limit url level) d = None)
  ∧ is_Some (get_network_requests toLowerCase (mkQueryArgs None limit None level) d)
  ∧ is_Some (get_console_logs (mkQueryArgs None limit url None) d)
  ∧ is_Some (get_performance_metrics (mkQueryArgs None limit url level) d).
Proof.
  intros Hr. destruct (tab_is_nullish 0 r Hr) as [_ _].
  assert (∀ a, tab_is a r = None) as Htab by (intros a; by destruct r).
  unfold get_network_requests, get_console_logs, get_performance_metrics.
  cbn [arg_tab_id arg_limit arg_url_filter arg_level_filter].
  split_and!; try done.
  - intros Hin [Ht|Hu].
    + by rewrite (filter_when_throws _ tab_is _ r Ht Hin Htab).
    + destruct (truthy_number tab) as [t|] eqn:Et.
      * by rewrite (filter_when_throws _ tab_is _ r) by (done || by eexists).
      * simpl.
        rewrite (filter_when_throws _ (url_has toLowerCase) _ r Hu Hin); [done|].
        intros a. by apply url_has_nullish.
  - intros Hin [Ht|Hl].
    + by rewrite (filter_when_throws _ tab_is _ r Ht Hin Htab).
    + destruct (truthy_number tab) as [t|] eqn:Et.
      * by rewrite (filter_when_throws _ tab_is _ r) by (done || by eexists).
      * simpl.
        rewrite (filter_when_throws _ level_is _ r Hl Hin); [done|].
        intros a. by apply level_is_nullish.
  - intros Hin Ht. by rewrite (filter_when_throws _ tab_is _ r Ht Hin Htab).
Qed.

Lemma unreadable_record_sample :
  nullish Js.Null = true
  ∧ get_console_logs (mkQueryArgs (Some 7) None None None) two_tabs = None.
Proof.
  split; [reflexivity|].
  apply (proj1 (proj2 (unreadable_record_fails_filtered_queries (λ s, s)
                         (Some 7) None None None two_tabs Js.Null eq_refl))).
  - right. left.
  - left. by eexists.
Defined.

(** * Properties of the tool calls *)

(** ** Argument names *)

Lemma to_upper_of_lower d :
  is_lower d = true →
  is_lower (to_upper d) = false ∧ Ascii.eqb (to_upper d) underscore = false.
Proof.
  destruct d as [[] [] [] [] [] [] [] []]; vm_compute; intros H; (done || by split).
Qed.

Lemma underscore_not_lower : is_lower underscore = false.
Proof. reflexivity. Qed.

(** The first character of a converted string is no letter of [[a-z]]
    unless the string began with one. *)
Lemma camel_key_head d s :
  is_lower d = false →
  match camel_key (String d s) with
  | String e _ => is_lower e = false
  | EmptyString => True
  end.
Proof.
  intros Hd. simpl. destruct (Ascii.eqb d underscore) eqn:E; [|done].
  destruct s as [|e s]; [done|].
  destruct (is_lower e) eqn:Ee; [|done].
  by apply to_upper_of_lower.
Qed.

Lemma camel_key_no_joint_bounded n s :
  (String.length s ≤ n)%nat → has_joint (camel_key s) = false.
Proof.
  revert s. induction n as [|n IH]; intros s Hlen.
  - destruct s; [done|simpl in Hlen; lia].
  - destruct s as [|c s]; [done|]. simpl in Hlen.
    cbn [camel_key]. destruct (Ascii.eqb c underscore) eqn:Ec.
    + destruct s as [|d s]; [by cbn [has_joint]; rewrite andb_false_r|].
      destruct (is_lower d) eqn:Ed.
      * destruct (to_upper_of_lower d Ed) as [_ Hu].
        cbn [has_joint]. rewrite Hu. simpl. apply IH. simpl in Hlen. lia.
      * cbn [has_joint]. rewrite Ec, (IH (String d s)) by lia.
        pose proof (camel_key_head d s Ed) as Hhead.
        destruct (camel_key (String d s)) as [|e r]; [done|]. by rewrite Hhead.
    + cbn [has_joint]. rewrite Ec. simpl. apply IH. lia.
Qed.

Lemma camel_key_no_joint s : has_joint (camel_key s) = false.
Proof. by apply (camel_key_no_joint_bounded (String.length s)). Qed.

Lemma camel_key_fixed s : has_joint s = false → camel_key s = s.
Proof.
  induction s as [|c s IH]; [done|]. cbn [has_joint camel_key].
  intros [H1 H2]%orb_false_elim. rewrite (IH H2).
  destruct (Ascii.eqb c underscore); [|done].
  destruct s as [|d s]; [done|]. simpl in H1. by rewrite H1.
Qed.

Lemma camel_key_length_bounded n s :
  (String.length s ≤ n)%nat → (String.length (camel_key s) ≤ String.length s)%nat.
Proof.
  revert s. induction n as [|n IH]; intros s Hlen.
  - destruct s; [done|simpl in Hlen; lia].
  - destruct s as [|c s]; [done|]. simpl in Hlen. cbn [camel_key].
    destruct (Ascii.eqb c underscore).
    + destruct s as [|d s]; [done|]. simpl in Hlen.
      destruct (is_lower d).
      * specialize (IH s). simpl. lia.
      * specialize (IH (String d s)). simpl in *. lia.
    + specialize (IH s). simpl. lia.
Qed.

(** X12.  The conversion of an argument name to camel case leaves no [_]
    followed by a letter of [[a-z]], so converting twice is converting once;
    a name without such a pair is not changed, and no name grows. *)
Theorem camel_key_is_idempotent (s : string) :
  has_joint (camel_key s) = false
  ∧ camel_key (camel_key s) = camel_key s
  ∧ (has_joint s = false → camel_key s = s)
  ∧ (String.length (camel_key s) ≤ String.length s)%nat.
Proof.
  split_and!.
  - apply camel_key_no_joint.
  - apply camel_key_fixed, camel_key_no_joint.
  - apply camel_key_fixed.
  - by apply (camel_key_length_bounded (String.length s)).
Qed.

Lemma camel_key_sample :
  has_joint "tabId" = false ∧ camel_key "tabId" = "tabId"%string.
Proof.
  split; [reflexivity|].
  apply (proj1 (proj2 (proj2 (camel_key_is_idempotent "tabId")))). reflexivity.
Defined.

Lemma field_set_field_eq k v o : Js.field k (set_field k v o) = v.
Proof.
  induction o as [|[k' v'] o IH]; simpl.
  - by rewrite String.eqb_refl.
  - destruct (String.eqb k' k) eqn:E; simpl.
    + by rewrite String.eqb_refl.
    + by rewrite E.
Qed.

Lemma field_set_field_ne k k' v o : k ≠ k' → Js.field k' (set_field k v o) = Js.field k' o.
Proof.
  intros Hne. induction o as [|[k0 v0] o IH]; simpl.
  - by rewrite (proj2 (String.eqb_neq k k')).
  - destruct (String.eqb k0 k) eqn:E; simpl.
    + apply String.eqb_eq in E as ->. by rewrite !(proj2 (String.eqb_neq k k')).
    + by rewrite IH.
Qed.

Lemma field_app k (a b : list (string * Js.Val)) :
  Js.field k (a ++ b) = if bool_decide (k ∈ a.*1) then Js.field k a else Js.field k b.
Proof.
  induction a as [|[k' v'] a IH]; [done|]. simpl.
  destruct (String.eqb_spec k' k) as [->|Hne].
  - rewrite bool_decide_eq_true_2; [done|]. left.
  - rewrite IH. destruct (decide (k ∈ a.*1)).
    + rewrite !bool_decide_eq_true_2; [done|by right|done].
    + rewrite !bool_decide_eq_false_2; [done| |done].
      intros [?|?]%elem_of_cons; [by subst|done].
Qed.

Lemma keys_set_field k v o :
  (set_field k v o).*1 = if bool_decide (k ∈ o.*1) then o.*1 else o.*1 ++ [k].
Proof.
  induction o as [|[k' v'] o IH]; [done|]. cbn [set_field].
  destruct (String.eqb_spec k' k) as [->|Hne]; rewrite !fmap_cons; cbn [fst].
  - rewrite bool_decide_eq_true_2; [done|]. left.
  - rewrite IH. destruct (decide (k ∈ o.*1)).
    + rewrite !bool_decide_eq_true_2; [done|by right|done].
    + rewrite !bool_decide_eq_false_2; [done| |done].
      intros [?|?]%elem_of_cons; [by subst|done].
Qed.

Lemma NoDup_set_field k v o : NoDup o.*1 → NoDup (set_field k v o).*1.
Proof.
  intros Hnd. rewrite keys_set_field. case_bool_decide; [done|].
  apply NoDup_app. split_and!; [done| |apply NoDup_singleton].
  intros x Hx ->%list_elem_of_singleton. done.
Qed.

Lemma camel_fold_field k (args o : list (string * Js.Val)) :
  Js.field k (foldl (λ o '(key, value), set_field (camel_key key) value o) o args)
  = Js.field k (renamed args ++ o).
Proof.
  revert o. induction args as [|[key value] args IH]; intros o; [done|].
  simpl. rewrite IH. unfold renamed. rewrite fmap_cons, reverse_cons, <-app_assoc.
  do 2 rewrite field_app. case_bool_decide; [done|]. simpl.
  destruct (String.eqb_spec (camel_key key) k) as [<-|Hne].
  - apply field_set_field_eq.
  - by apply field_set_field_ne.
Qed.

Lemma camel_fold_NoDup (args o : list (string * Js.Val)) :
  NoDup o.*1 →
  NoDup (foldl (λ o '(key, value), set_field (camel_key key) value o) o args).*1.
Proof.
  revert o. induction args as [|[key value] args IH]; intros o Hnd; [done|].
  simpl. by apply IH, NoDup_set_field.
Qed.

Lemma field_unique k v (fs : list (string * Js.Val)) :
  NoDup fs.*1 → (k, v) ∈ fs → Js.field k fs = v.
Proof.
  induction fs as [|[k' v'] fs IH]; simpl.
  - intros _ H. by apply elem_of_nil in H.
  - rewrite NoDup_cons. intros [Hk Hnd] [[= <- <-]|Hin]%elem_of_cons.
    + by rewrite String.eqb_refl.
    + destruct (String.eqb_spec k' k) as [->|Hne]; [|auto].
      exfalso. apply Hk. apply list_elem_of_fmap. by exists (k, v).
Qed.

Lemma camel_fold_keys k (args o : list (string * Js.Val)) :
  k ∈ (foldl (λ o '(key, value), set_field (camel_key key) value o) o args).*1
  ↔ k ∈ o.*1 ∨ k ∈ camel_key <$> args.*1.
Proof.
  revert o. induction args as [|[key value] args IH]; intros o.
  - simpl. rewrite elem_of_nil. tauto.
  - simpl. rewrite IH, keys_set_field, elem_of_cons.
    case_bool_decide as Hin.
    + split; [tauto|]. intros [?|[->|?]]; tauto.
    + rewrite elem_of_app, list_elem_of_singleton. tauto.
Qed.

Lemma camel_case_args_fields (args : list (string * Js.Val)) :
  NoDup (camel_case_args args).*1
  ∧ (∀ k, Js.field k (camel_case_args args) = Js.field k (renamed args))
  ∧ (∀ k, k ∈ (camel_case_args args).*1 ↔ k ∈ camel_key <$> args.*1)
  ∧ (NoDup (camel_key <$> args.*1) →
     ∀ key value, (key, value) ∈ args →
       Js.field (camel_key key) (camel_case_args args) = value).
Proof.
  assert (∀ k, Js.field k (camel_case_args args) = Js.field k (renamed args)) as Hfield.
  { intros k. unfold camel_case_args. by rewrite camel_fold_field, app_nil_r. }
  split_and!; [|done| |].
  - apply camel_fold_NoDup. apply NoDup_nil_2.
  - intros k. unfold camel_case_args. rewrite camel_fold_keys. simpl.
    rewrite elem_of_nil. tauto.
  - intros Hnd key value Hin. rewrite Hfield. apply field_unique.
    + unfold renamed. rewrite fmap_reverse.
      apply (NoDup_Permutation_proper _ _ (reverse_Permutation _)).
      rewrite <-list_fmap_compose.
      rewrite <-list_fmap_compose in Hnd.
      erewrite list_fmap_ext; [exact Hnd|]. by intros ? [? ?] ?.
    + unfold renamed. apply elem_of_reverse, list_elem_of_fmap. by exists (key, value).
Qed.

(** X13.  The parameters sent to the peer hold every argument under its
    converted name, each name once: where two arguments come to the same
    converted name the later one wins, and where no two do each argument
    keeps its value. *)
Theorem camel_case_args_keeps_the_values (args : list (string * Js.Val)) :
  NoDup (camel_case_args args).*1
  ∧ (∀ k, Js.field k (camel_case_args args) = Js.field k (renamed args))
  ∧ (NoDup (camel_key <$> args.*1) →
     ∀ key value, (key, value) ∈ args →
       Js.field (camel_key key) (camel_case_args args) = value).
Proof.
  destruct (camel_case_args_fields args) as (Hnd & Hfield & _ & Hvalue). by split_and!.
Qed.

Lemma camel_case_args_sample :
  NoDup (camel_key <$> [("tab_id", Js.Num 7); ("wait_until", Js.Str "load")].*1)
  ∧ Js.field "waitUntil"
      (camel_case_args [("tab_id", Js.Num 7); ("wait_until", Js.Str "load")])
    = Js.Str "load".
Proof.
  assert (NoDup (camel_key <$> [("tab_id", Js.Num 7); ("wait_until", Js.Str "load")].*1))
    as Hnd by (apply (bool_decide_unpack _); vm_compute; exact I).
  split; [exact Hnd|].
  apply (proj2 (proj2 (camel_case_args_keeps_the_values
                         [("tab_id", Js.Num 7); ("wait_until", Js.Str "load")])) Hnd
           "wait_until" (Js.Str "load")).
  right. left.
Defined.

(** ** Arguments of a utility call *)

Lemma method_args_app pre post args :
  method_args (pre ++ post) args = method_args pre args ++ method_args post args.
Proof. unfold method_args. by rewrite fmap_app, filter_app. Qed.

(** X14.  The argument array of a utility call has the values of the
    arguments that are given, in the order of the table: an argument that
    is not given leaves no gap, the ones after it move up, and the array is
    the same as if the table had not named it.  When all are given the array
    has one value for each name of the table. *)
Theorem missing_argument_shifts_the_rest (name utility method : string)
    (pre post : list string) (a : string) (args : list (string * Js.Val)) :
  route name = UtilityTool utility method (pre ++ a :: post) →
  Js.truthy (Js.field "tab_id" args) = true →
  ∃ given reply,
    call_tool name args
    = Dispatches "call_utility"
        (Js.Obj [("tabId", Js.field "tab_id" args); ("utility", Js.Str utility);
                 ("method", Js.Str method); ("args", Js.Arr given)]) reply
    ∧ (length given ≤ length (pre ++ a :: post))%nat
    ∧ (Js.field a args = Js.Undefined → given = method_args (pre ++ post) args)
    ∧ ((∀ n, n ∈ pre ++ a :: post → Js.field n args ≠ Js.Undefined) →
       given = (λ n, Js.field n args) <$> (pre ++ a :: post)).
Proof.
  intros Hr Ht. exists (method_args (pre ++ a :: post) args), (utility_reply name).
  split_and!.
  - unfold call_tool. by rewrite Hr, Ht.
  - unfold method_args. etrans; [apply length_filter|]. by rewrite length_fmap.
  - intros Hu. rewrite !method_args_app. f_equal.
    unfold method_args. rewrite fmap_cons, filter_cons, Hu. by rewrite decide_False.
  - intros Hall. unfold method_args. apply filter_all.
    intros v [n [-> Hn]]%list_elem_of_fmap. specialize (Hall n Hn).
    by destruct (Js.field n args).
Qed.

Lemma missing_argument_sample :
  ∃ given reply,
    call_tool "find_elements_by_text"
      [("tab_id", Js.Num 7); ("text", Js.Str "hi"); ("tag", Js.Str "div")]
    = Dispatches "call_utility"
        (Js.Obj [("tabId", Js.Num 7); ("utility", Js.Str "DOMUtilities");
                 ("method", Js.Str "findElementsByText"); ("args", Js.Arr given)]) reply
    ∧ given = [Js.Str "hi"; Js.Str "div"].
Proof.
  destruct (missing_argument_shifts_the_rest "find_elements_by_text" "DOMUtilities"
              "findElementsByText" ["text"] ["tag"] "exact_match"
              [("tab_id", Js.Num 7); ("text", Js.Str "hi"); ("tag", Js.Str "div")]
              eq_refl eq_refl) as (given & reply & Hcall & _ & Hshift & _).
  exists given, reply. split; [exact Hcall|]. by apply Hshift.
Defined.

(** ** Where a tool name goes *)

Lemma one_of_elem names name : one_of names name = true → name ∈ names.
Proof.
  unfold one_of. intros [x [Hin Hx]]%existsb_exists.
  apply String.eqb_eq in Hx as ->. by apply list_elem_of_In.
Qed.

Lemma table_entry_elem name table entry :
  table_entry name table = Some entry → (name, entry) ∈ table.
Proof.
  induction table as [|[n e] table IH]; [done|]. simpl.
  destruct (String.eqb_spec n name) as [->|Hne].
  - intros [= ->]. left.
  - intros H. right. auto.
Qed.

Lemma Forall_elem {A} (P : A → Prop) (l : list A) : Forall P l → ∀ x, x ∈ l → P x.
Proof. intros Hall x Hin. by apply (proj1 (Forall_forall P l) Hall). Qed.

Lemma routed_elem name :
  routed name = true →
  name ∈ data_tools ++ screenshot_tools ++ command_tools ++ utilityTools.*1.
Proof.
  unfold routed, route.
  destruct (one_of data_tools name) eqn:E1.
  { intros _. apply elem_of_app. left. by apply one_of_elem. }
  destruct (one_of screenshot_tools name) eqn:E2.
  { intros _. apply elem_of_app. right. apply elem_of_app. left. by apply one_of_elem. }
  destruct (one_of command_tools name) eqn:E3.
  { intros _. do 2 (apply elem_of_app; right). apply elem_of_app. left.
    by apply one_of_elem. }
  destruct (table_entry name utilityTools) as [[[u m] a]|] eqn:E4.
  { intros _. do 3 (apply elem_of_app; right).
    apply list_elem_of_fmap. exists (name, (u, m, a)). split; [done|].
    by apply table_entry_elem. }
  by destruct (one_of object_prototype name).
Qed.

(** X15.  The tools that are advertised are the tools that are handled, but
    for one: [paginate_and_collect] is advertised and a call of it is
    answered "Unknown tool".  No tool is handled that is not advertised. *)
Theorem advertised_tools_are_handled_but_one (name : string) :
  (routed name = true ↔ name ∈ advertised ∧ name ≠ "paginate_and_collect"%string)
  ∧ "paginate_and_collect"%string ∈ advertised
  ∧ ∀ args, call_tool "paginate_and_collect" args
            = Replies (TextContent "Unknown tool: paginate_and_collect" true).
Proof.
  split_and!.
  - split.
    + intros Hin%routed_elem. revert name Hin. apply Forall_elem.
      apply (bool_decide_unpack _). vm_compute. exact I.
    + intros [Hin Hne]. revert Hne. revert name Hin.
      apply (Forall_elem (λ n, n ≠ "paginate_and_collect"%string → routed n = true)).
      apply (bool_decide_unpack _). vm_compute. exact I.
  - apply (bool_decide_unpack _). vm_compute. exact I.
  - reflexivity.
Qed.

(** X16.  Whatever tool is called with whatever arguments, a command that
    is sent to the peer has an action the peer handles; when it is a utility
    call, it names a utility the peer loads and a method that utility has,
    and gives it no more arguments than the method has parameters, under the
    tab the caller named. *)
Theorem dispatched_commands_are_known_to_the_peer (name : string)
    (args : list (string * Js.Val)) (act : string) (par : Js.Val)
    (reply : Outcome → Content) :
  call_tool name args = Dispatches act par reply →
  act ∈ peer_actions
  ∧ (act = "call_utility"%string →
     ∃ utility method given,
       par = Js.Obj [("tabId", Js.field "tab_id" args); ("utility", Js.Str utility);
                     ("method", Js.Str method); ("args", Js.Arr given)]
       ∧ Js.truthy (Js.field "tab_id" args) = true
       ∧ utility ∈ peer_utilities
       ∧ peer_accepts utility method (length given)).
Proof.
  unfold call_tool. destruct (route name) as [| | |u m a| |] eqn:Er.
  - done.
  - intros [= <- <- <-].
    assert (name ∈ screenshot_tools) as Hin.
    { unfold route in Er. destruct (one_of data_tools name); [done|].
      destruct (one_of screenshot_tools name) eqn:E; [by apply one_of_elem|].
      destruct (one_of command_tools name); [done|].
      destruct (table_entry name utilityTools) as [[[? ?] ?]|]; [done|].
      by destruct (one_of object_prototype name). }
    assert (name ∈ peer_actions ∧ name ≠ "call_utility"%string) as [Hact Hne];
      [|by split].
    clear Er. revert name Hin. apply Forall_elem.
    apply (bool_decide_unpack _). vm_compute. exact I.
  - intros [= <- <- <-].
    assert (name ∈ command_tools) as Hin.
    { unfold route in Er. destruct (one_of data_tools name); [done|].
      destruct (one_of screenshot_tools name); [done|].
      destruct (one_of command_tools name) eqn:E; [by apply one_of_elem|].
      destruct (table_entry name utilityTools) as [[[? ?] ?]|]; [done|].
      by destruct (one_of object_prototype name). }
    assert (name ∈ peer_actions ∧ name ≠ "call_utility"%string) as [Hact Hne];
      [|by split].
    clear Er. revert name Hin. apply Forall_elem.
    apply (bool_decide_unpack _). vm_compute. exact I.
  - destruct (Js.truthy (Js.field "tab_id" args)) eqn:Et; [|done].
    simpl. intros [= <- <- <-]. split.
    { apply (bool_decide_unpack _). vm_compute. exact I. }
    intros _. exists u, m, (method_args a args). split_and!; [done..| |].
    + assert ((name, (u, m, a)) ∈ utilityTools) as Hin.
      { unfold route in Er. destruct (one_of data_tools name); [done|].
        destruct (one_of screenshot_tools name); [done|].
        destruct (one_of command_tools name); [done|].
        destruct (table_entry name utilityTools) as [[[? ?] ?]|] eqn:E;
          [|by destruct (one_of object_prototype name)].
        injection Er as -> -> ->. by apply table_entry_elem. }
      change (((λ e : string * (string * string * list string),
                 e.2.1.1 ∈ peer_utilities) (name, (u, m, a)))).
      revert Hin. generalize (name, (u, m, a)). apply Forall_elem.
      apply (bool_decide_unpack _). vm_compute. exact I.
    + assert ((name, (u, m, a)) ∈ utilityTools) as Hin.
      { unfold route in Er. destruct (one_of data_tools name); [done|].
        destruct (one_of screenshot_tools name); [done|].
        destruct (one_of command_tools name); [done|].
        destruct (table_entry name utilityTools) as [[[? ?] ?]|] eqn:E;
          [|by destruct (one_of object_prototype name)].
        injection Er as -> -> ->. by apply table_entry_elem. }
      assert (peer_accepts u m (length a)) as [ms [ar [H1 [H2 H3]]]].
      { change (((λ e : string * (string * string * list string),
                   peer_accepts e.2.1.1 e.2.1.2 (length e.2.2)) (name, (u, m, a)))).
        revert Hin. generalize (name, (u, m, a)). apply Forall_elem.
        apply (bool_decide_unpack _). vm_compute. exact I. }
      exists ms, ar. split_and!; [done..|].
      etrans; [|exact H3]. unfold method_args.
      etrans; [apply length_filter|]. by rewrite length_fmap.
  - by destruct (negb _).
  - done.
Qed.

Lemma dispatched_commands_sample :
  call_tool "find_elements_by_text" [("tab_id", Js.Num 7); ("text", Js.Str "hi")]
  = Dispatches "call_utility"
      (Js.Obj [("tabId", Js.Num 7); ("utility", Js.Str "DOMUtilities");
               ("method", Js.Str "findElementsByText"); ("args", Js.Arr [Js.Str "hi"])])
      (utility_reply "find_elements_by_text")
  ∧ "call_utility"%string ∈ peer_actions.
Proof.
  split; [reflexivity|].
  apply (dispatched_commands_are_known_to_the_peer
           "find_elements_by_text" [("tab_id", Js.Num 7); ("text", Js.Str "hi")]
           "call_utility"
           (Js.Obj [("tabId", Js.Num 7); ("utility", Js.Str "DOMUtilities");
                    ("method", Js.Str "findElementsByText");
                    ("args", Js.Arr [Js.Str "hi"])])
           (utility_reply "find_elements_by_text")).
  reflexivity.
Defined.

(** ** Screenshots *)

Lemma append_cons c (s t : string) : (String c s ++ t = String c (s ++ t))%string.
Proof. reflexivity. Qed.

Lemma append_assoc (s t u : string) : ((s ++ t) ++ u = s ++ (t ++ u))%string.
Proof. induction s as [|c s IH]; [done|]. by rewrite !append_cons, IH. Qed.

Lemma append_length (s t : string) :
  String.length (s ++ t)%string = (String.length s + String.length t)%nat.
Proof. induction s as [|c s IH]; [done|]. rewrite append_cons. simpl. by rewrite IH. Qed.

Lemma prefix_app_l (n x y : string) :
  String.prefix n (x ++ y)%string = true →
  (String.length n ≤ String.length x)%nat →
  String.prefix n x = true.
Proof.
  revert x. induction n as [|c n IH]; intros x; [by destruct x|].
  destruct x as [|d x]; [simpl; lia|]. rewrite append_cons. simpl.
  destruct (Ascii.ascii_dec c d); [|done]. intros H Hlen. apply IH; [done|lia].
Qed.

Lemma indexOf_unfold (s sub : string) :
  indexOf s sub
  = if String.prefix sub s then 0
    else match s with
         | EmptyString => -1
         | String _ s' => let i := indexOf s' sub in if i <? 0 then -1 else i + 1
         end.
Proof. by destruct s. Qed.

Lemma indexOf_none (s sub : string) : Js.includes s sub = false → indexOf s sub = -1.
Proof.
  induction s as [|c s IH]; rewrite indexOf_unfold; cbn [Js.includes];
    intros [H1 H2]%orb_false_elim; rewrite H1; [done|].
  by rewrite (IH H2).
Qed.

Lemma skip_app (pre s : string) (k : nat) :
  skip (String.length pre + k) (pre ++ s)%string = skip k s.
Proof. induction pre as [|c pre IH]; [done|]. rewrite append_cons. simpl. apply IH. Qed.

Lemma indexOf_base64 (header data : string) :
  Js.includes (header ++ "base64") "base64," = false →
  indexOf (header ++ "base64," ++ data) "base64," = Z.of_nat (String.length header).
Proof.
  set (tail := ("base64," ++ data)%string).
  induction header as [|c header IH].
  - intros _. unfold tail. by destruct data.
  - rewrite !append_cons. cbn [Js.includes]. intros [H1 H2]%orb_false_elim.
    rewrite indexOf_unfold.
    destruct (String.prefix "base64," (String c (header ++ tail))) eqn:E.
    + exfalso.
      change (String c (header ++ tail))%string
        with (String c header ++ ("base64" ++ ("," ++ data)))%string in E.
      rewrite <-append_assoc in E. apply prefix_app_l in E.
      * rewrite append_cons in E. congruence.
      * rewrite append_length. simpl. lia.
    + cbn zeta. rewrite (IH H2).
      destruct (Z.ltb_spec (Z.of_nat (String.length header)) 0); [lia|].
      simpl String.length. lia.
Qed.

(** X17.  A screenshot the peer reports as a data URL is answered as an
    image whose data is all that follows the first [base64,] of the URL; the
    image is labelled PNG when the URL begins with [data:image/png] and JPEG
    otherwise, whatever the URL says.  A screenshot string without
    [base64,] is answered as the text of the whole result. *)
Theorem screenshot_data_follows_the_marker (fields : list (string * Js.Val))
    (header data dataUrl : string) :
  Js.truthy (Js.field "success" fields) = true →
  Js.field "screenshot" fields = Js.Str dataUrl →
  (dataUrl = (header ++ "base64," ++ data)%string →
   Js.includes (header ++ "base64") "base64," = false →
   screenshot_reply (Returned (Js.Obj fields))
   = ImageContent data
       (if String.prefix "data:image/png" dataUrl then "image/png" else "image/jpeg"))
  ∧ (dataUrl ≠ EmptyString → Js.includes dataUrl "base64," = false →
     screenshot_reply (Returned (Js.Obj fields)) = JsonContent (Js.Obj fields)).
Proof.
  intros Hok Hshot. unfold screenshot_reply, Js.opt_prop. cbn [Js.prop Js.truthy].
  rewrite Hok, Hshot. cbn [andb Js.truthy]. split.
  - intros -> Hfirst.
    assert (String.eqb (header ++ "base64," ++ data) EmptyString = false) as ->.
    { apply String.eqb_neq. intros Heq.
      apply (f_equal String.length) in Heq. rewrite append_length in Heq.
      simpl in Heq. lia. }
    cbn [negb]. rewrite (indexOf_base64 _ _ Hfirst).
    destruct (Z.eqb_spec (Z.of_nat (String.length header)) (-1)); [lia|].
    f_equal. unfold substring_from.
    replace (Z.to_nat (Z.of_nat (String.length header) + 7))
      with (String.length header + 7)%nat by lia.
    by rewrite skip_app.
  - intros Hne Hnone.
    rewrite (proj2 (String.eqb_neq dataUrl EmptyString) Hne). cbn [negb].
    by rewrite (indexOf_none _ _ Hnone).
Qed.

Lemma screenshot_sample :
  screenshot_reply
    (Returned (Js.Obj [("success", Js.Bool true);
                       ("screenshot", Js.Str "data:image/webp;base64,UklGR")]))
  = ImageContent "UklGR" "image/jpeg".
Proof.
  apply (proj1 (screenshot_data_follows_the_marker
           [("success", Js.Bool true); ("screenshot", Js.Str "data:image/webp;base64,UklGR")]
           "data:image/webp;" "UklGR" "data:image/webp;base64,UklGR"
           eq_refl eq_refl));
    reflexivity.
Defined.

(** * A tool call from end to end *)

Lemma chronological_elem t tr now e :
  chronological t tr → (now, e) ∈ tr → t ≤ now ≤ end_time t tr.
Proof.
  revert t. induction tr as [|[now' e'] tr IH]; intros t; simpl.
  - intros _ H. by apply elem_of_nil in H.
  - intros [Hle Htr] [[= -> ->]|Hin]%elem_of_cons.
    + pose proof (chronological_end _ _ Htr). lia.
    + specialize (IH now' Htr Hin). lia.
Qed.

Lemma call_round_trip pre t0 act par mid1 t1 body mid2 t2 :
  let s0 := (run pre initial).1 in
  let k := commandIdCounter s0 + 1 in
  chronological 0 (pre ++ round_trip t0 act par mid1 t1 body mid2 t2 k) →
  body_commandId body = Js.Num k →
  (∀ now e, (now, e) ∈ mid1 ++ mid2 → ¬ reports k e) →
  (∀ now, (now, TimerFires k) ∉ mid2) →
  t2 - t0 < timeout →
  outcome_of k (run (round_trip t0 act par mid1 t1 body mid2 t2 k) s0).2
  = Some (if Js.truthy (body_success body) then Returned (body_result body)
          else ThrewError (Js.or_else (body_error body) (Js.Str "Command failed"))).
Proof.
  intros s0 k [Hpre Hrest]%chronological_app Hid Hmid Hfirst Hlt.
  pose proof (reachable_consistent 0 pre Hpre) as Hs0. fold s0 in Hs0.
  unfold round_trip in *. cbn [chronological] in Hrest. destruct Hrest as [Ht0 Hrest].
  apply chronological_app in Hrest as [Hmid1 Hrest].
  pose proof (step_consistent _ t0 (Send act par) s0 Hs0 Ht0) as Hs1.
  destruct (send_sleeps t0 act par s0) as (cmd & Hstep & Hts & Hst & Hidc).
  rewrite run_cons, Hstep. rewrite Hstep in Hs1. cbn [fst snd] in *. fold k in Hs1 |- *.
  set (s1 := mkServer _ _ _ _) in *.
  assert (JsMap.get k (commandQueue s1) = Some cmd) as Hget1
    by apply JsMapFacts.get_set_eq.
  assert (sleeping s1 !! k = Some t0) as Hsl1 by apply lookup_insert_eq.
  assert (end_time t0 mid1 ≤ t1 ∧ t1 ≤ t2) as [Hle1 Hle2].
  { cbn [chronological] in Hrest. destruct Hrest as [Hle1 Hrest]. split; [done|].
    apply chronological_app in Hrest as [Hmid2 Hlast].
    pose proof (chronological_end _ _ Hmid2). cbn [chronological] in Hlast. lia. }
  destruct (run_unanswered_wait t0 mid1 s1 k t0 Hs1 Hmid1 Hsl1) as (Hsl2 & _ & Hout2).
  { intros c Hc. rewrite Hget1 in Hc. by injection Hc as <-. }
  { intros now e Hin. apply (Hmid now). apply elem_of_app. by left. }
  { intros now Hin. pose proof (chronological_elem _ _ _ _ Hmid1 Hin). lia. }
  pose proof (run_consistent t0 mid1 s1 Hs1 Hmid1) as Hs2.
  destruct (report_then_timer (end_time t0 mid1) (run mid1 s1).1 k t0 t1 body mid2 t2
              Hs2 Hrest Hsl2 Hid) as [Hout _]; [|done|].
  { intros now e Hin. split.
    - apply (Hmid now). apply elem_of_app. by right.
    - intros ->. by apply (Hfirst now). }
  rewrite outcome_of_cons_other by done.
  rewrite run_app. cbn [fst snd]. by rewrite outcome_of_app, Hout2.
Qed.

Lemma caught_text label o message :
  o = ThrewError (Js.Str message) → caught label o = TextContent (label ++ message) true.
Proof. by intros ->. Qed.

Lemma json_truthy v : Js.truthy (json v) = Js.truthy v.
Proof. by destruct v. Qed.

Lemma json_Str v m : v = Js.Str m → json v = Js.Str m.
Proof. by intros ->. Qed.

Lemma or_else_json v d m :
  Js.or_else v (Js.Str d) = Js.Str m → Js.or_else (json v) (Js.Str d) = Js.Str m.
Proof.
  unfold Js.or_else. rewrite json_truthy. destruct (Js.truthy v); [|done].
  by intros ->.
Qed.

Lemma json_fields_cons (k : string) (v : Js.Val) (fs : list (string * Js.Val)) :
  omap (λ kx : string * Js.Val,
          match kx.2 with Js.Undefined => None | _ => Some (kx.1, json kx.2) end)
       ((k, v) :: fs)
  = match v with
    | Js.Undefined => []
    | _ => [(k, json v)]
    end
    ++ omap (λ kx : string * Js.Val,
               match kx.2 with Js.Undefined => None | _ => Some (kx.1, json kx.2) end) fs.
Proof. by destruct v. Qed.

Lemma json_fields_absent k (fs : list (string * Js.Val)) :
  k ∉ fs.*1 →
  Js.field k (omap (λ kx : string * Js.Val,
                      match kx.2 with Js.Undefined => None | _ => Some (kx.1, json kx.2) end)
                   fs) = Js.Undefined.
Proof.
  induction fs as [|[k' v'] fs IH]; [done|].
  rewrite fmap_cons, not_elem_of_cons. cbn [fst]. intros [Hne Hk].
  rewrite json_fields_cons.
  destruct v'; cbn [app Js.field]; rewrite ?(proj2 (String.eqb_neq k' k)) by done;
    by apply IH.
Qed.

(** A property of an object, as the server reads it after the transport. *)
Lemma json_field k (fs : list (string * Js.Val)) :
  NoDup fs.*1 → Js.opt_prop (json (Js.Obj fs)) k = json (Js.field k fs).
Proof.
  cbn [json Js.opt_prop Js.prop].
  induction fs as [|[k' v'] fs IH]; [done|].
  rewrite fmap_cons. cbn [fst]. intros [Hk' Hnd]%NoDup_cons.
  rewrite json_fields_cons. cbn [Js.field].
  destruct (String.eqb_spec k' k) as [->|Hne].
  - destruct v'; cbn [app Js.field]; rewrite ?String.eqb_refl; try done.
    by apply json_fields_absent.
  - destruct v'; cbn [app Js.field]; rewrite ?(proj2 (String.eqb_neq k' k)) by done;
      by apply IH.
Qed.

(** X18.  A failure of the peer is the error of the tool call.  A tool
    sends a command; its call wakes any number of times while it waits; the
    handler of the peer answers the command with [success: false] and the
    peer reports that answer, once.  When the call next wakes, within
    30000 ms of its start, the caller of the tool is answered an error whose
    text is the label of the tool followed by the [error] of the answer, or
    by "Command failed" when the answer has no error. *)
Theorem peer_failure_is_the_error_of_the_call (pre mid1 mid2 : list (Z * Event))
    (t0 t1 t2 : Z) (name : string) (args response : list (string * Js.Val))
    (act : string) (par : Js.Val) (reply : Outcome → Content) (message : string) :
  let s0 := (run pre initial).1 in
  let k := commandIdCounter s0 + 1 in
  let tr := round_trip t0 act par mid1 t1 (peer_report k response) mid2 t2 k in
  call_tool name args = Dispatches act par reply →
  chronological 0 (pre ++ tr) →
  (∀ now e, (now, e) ∈ mid1 ++ mid2 → ¬ reports k e) →
  (∀ now, (now, TimerFires k) ∉ mid2) →
  t2 - t0 < 30000 →
  Js.field "success" response = Js.Bool false →
  Js.or_else (Js.field "error" response) (Js.Str "Command failed") = Js.Str message →
  ∃ o, outcome_of k (run tr s0).2 = Some o
       ∧ reply o = TextContent (error_label name ++ message) true.
Proof.
  intros s0 k tr Hcall Hchr Hmid Hfirst Hlt Hfalse Hmsg.
  exists (ThrewError (Js.Str message)). split.
  - unfold tr. rewrite (call_round_trip pre t0 act par mid1 t1 _ mid2 t2); try done.
    cbn [peer_report body_success body_error]. rewrite Hfalse.
    cbn [strict_ne_false Js.truthy]. by rewrite (or_else_json _ _ _ Hmsg).
  - unfold call_tool, error_label in *.
    destruct (route name) as [| | |u m a| |]; try done.
    + by injection Hcall as <- <- <-.
    + by injection Hcall as <- <- <-.
    + destruct (negb _); [done|]. by injection Hcall as <- <- <-.
    + by destruct (negb _).
Qed.

Lemma peer_failure_sample :
  ∃ o, outcome_of 1
         (run (round_trip 100 "click_element" (Js.Obj [("selector", Js.Str "#go")])
                 [(200, TimerFires 1); (250, GetPollCommands); (300, TimerFires 1)] 350
                 (peer_report 1 [("success", Js.Bool false);
                                 ("error", Js.Str "Element not found")])
                 [(360, GetPollCommands)] 400 1) initial).2 = Some o
       ∧ command_reply o
         = TextContent "Error executing command: Element not found" true.
Proof.
  apply (peer_failure_is_the_error_of_the_call []
           [(200, TimerFires 1); (250, GetPollCommands); (300, TimerFires 1)]
           [(360, GetPollCommands)] 100 350 400
           "click_element" [("selector", Js.Str "#go")]
           [("success", Js.Bool false); ("error", Js.Str "Element not found")]
           "click_element" (Js.Obj [("selector", Js.Str "#go")]) command_reply
           "Element not found").
  - reflexivity.
  - simpl. lia.
  - intros now e Hin.
    repeat (apply elem_of_cons in Hin as [[= -> ->]|Hin]; [simpl; tauto|]).
    by apply elem_of_nil in Hin.
  - intros now Hin. apply elem_of_cons in Hin as [Heq|Hin]; [discriminate Heq|].
    by apply elem_of_nil in Hin.
  - lia.
  - reflexivity.
  - reflexivity.
Defined.

(** X19.  An answer of the peer is the answer of the tool call.  A tool
    sends a command; its call wakes any number of times while it waits; the
    handler of the peer answers the command with an object whose [success]
    is not [false] and the peer reports that answer, once.  When the call
    next wakes, within 30000 ms of its start, it returns the object as the
    report carried it, that is without the properties whose value is
    [undefined]: a command tool answers with that object as text, and a
    utility tool with its [result] when the [success] of the answer is
    true. *)
Theorem peer_answer_is_the_answer_of_the_call (pre mid1 mid2 : list (Z * Event))
    (t0 t1 t2 : Z) (name : string) (args response : list (string * Js.Val))
    (act : string) (par : Js.Val) (reply : Outcome → Content) :
  let s0 := (run pre initial).1 in
  let k := commandIdCounter s0 + 1 in
  let tr := round_trip t0 act par mid1 t1 (peer_report k response) mid2 t2 k in
  call_tool name args = Dispatches act par reply →
  chronological 0 (pre ++ tr) →
  (∀ now e, (now, e) ∈ mid1 ++ mid2 → ¬ reports k e) →
  (∀ now, (now, TimerFires k) ∉ mid2) →
  t2 - t0 < 30000 →
  Js.field "success" response ≠ Js.Bool false →
  outcome_of k (run tr s0).2 = Some (Returned (json (Js.Obj response)))
  ∧ (route name = CommandTool →
     reply (Returned (json (Js.Obj response))) = JsonContent (json (Js.Obj response)))
  ∧ (act = "call_utility"%string →
     NoDup response.*1 →
     Js.truthy (Js.field "success" response) = true →
     reply (Returned (json (Js.Obj response)))
     = JsonContent (json (Js.field "result" response))).
Proof.
  intros s0 k tr Hcall Hchr Hmid Hfirst Hlt Hok. split_and!.
  - unfold tr. rewrite (call_round_trip pre t0 act par mid1 t1 _ mid2 t2); try done.
    cbn [peer_report body_success body_result].
    assert (strict_ne_false (Js.field "success" response) = true) as ->; [|done].
    by destruct (Js.field "success" response) as [| |[]| | | |].
  - intros Hr. unfold call_tool in Hcall. rewrite Hr in Hcall.
    by injection Hcall as <- <- <-.
  - intros -> Hnd Htrue. unfold call_tool in Hcall.
    destruct (route name) as [| | |u m a| |] eqn:Hr; try done.
    + exfalso. injection Hcall as -> <- <-. revert Hr. by vm_compute.
    + exfalso. injection Hcall as -> <- <-. revert Hr. by vm_compute.
    + destruct (negb _); [done|]. injection Hcall as <- <-.
      pose proof (json_field "success" response Hnd) as Hs.
      pose proof (json_field "result" response Hnd) as Hres.
      unfold utility_reply. unfold Js.opt_prop in Hs.
      destruct (Js.prop (json (Js.Obj response)) "success") as [ok|] eqn:Hp; [|done].
      rewrite Hs, json_truthy, Htrue. by rewrite Hres.
    + by destruct (negb _).
Qed.

Lemma peer_answer_sample :
  outcome_of 1
    (run (round_trip 100 "list_tabs" (Js.Obj [])
            [(200, TimerFires 1); (250, GetPollCommands); (300, TimerFires 1)] 350
            (peer_report 1 [("success", Js.Bool true); ("tabs", Js.Arr []);
                            ("warning", Js.Undefined)])
            [(360, GetPollCommands)] 400 1) initial).2
  = Some (Returned (Js.Obj [("success", Js.Bool true); ("tabs", Js.Arr [])])).
Proof.
  apply (peer_answer_is_the_answer_of_the_call []
           [(200, TimerFires 1); (250, GetPollCommands); (300, TimerFires 1)]
           [(360, GetPollCommands)] 100 350 400
           "list_tabs" []
           [("success", Js.Bool true); ("tabs", Js.Arr []); ("warning", Js.Undefined)]
           "list_tabs" (Js.Obj []) command_reply).
  - reflexivity.
  - simpl. lia.
  - intros now e Hin.
    repeat (apply elem_of_cons in Hin as [[= -> ->]|Hin]; [simpl; tauto|]).
    by apply elem_of_nil in Hin.
  - intros now Hin. apply elem_of_cons in Hin as [Heq|Hin]; [discriminate Heq|].
    by apply elem_of_nil in Hin.
  - lia.
  - discriminate.
Defined.

(** * More on the queries and the peer *)

(** X20.  One record whose [url] is neither absent nor a string makes a
    query with a url filter fail, when the record is of the tab asked for or
    no tab is asked for. *)
Theorem non_string_url_fails_url_queries (toLowerCase : string → string)
    (tab limit : option Z) (f : string) (level : option string) (d : DevToolsData)
    (r v : Js.Val) :
  f ≠ EmptyString →
  r ∈ networkRequests d →
  Js.prop r "url" = Some v →
  not_lowerable v = true →
  when_given (truthy_number tab) of_tab r →
  get_network_requests toLowerCase (mkQueryArgs tab limit (Some f) level) d = None.
Proof.
  intros Hf Hin Hurl Hv Htab. unfold get_network_requests.
  cbn [arg_tab_id arg_limit arg_url_filter arg_level_filter truthy_string].
  rewrite (proj2 (String.eqb_neq f EmptyString) Hf).
  destruct (filter_when (truthy_number tab) tab_is (networkRequests d)) as [l|] eqn:El;
    [|done].
  apply filter_when_Some in El as ->. cbn [mbind option_bind].
  assert (url_has toLowerCase f r = None) as Hthrow.
  { unfold url_has. rewrite Hurl. by destruct v. }
  cbn [filter_when].
  rewrite (filter_try_throws _ _ r); [done| |done].
  apply list_elem_of_filter. split; [|done].
  destruct (truthy_number tab); [exact Htab|done].
Qed.

Lemma non_string_url_sample :
  get_network_requests (λ s, s) (mkQueryArgs (Some 7) None (Some "api"%string) None) two_tabs
  = None.
Proof.
  apply (non_string_url_fails_url_queries (λ s, s) (Some 7) None "api" None two_tabs
           (Js.Obj [("tabId", Js.Num 7); ("url", Js.Num 404)]) (Js.Num 404)).
  - discriminate.
  - right. right. left.
  - reflexivity.
  - reflexivity.
  - reflexivity.
Defined.

Lemma field_absent k (fs : list (string * Js.Val)) : k ∉ fs.*1 → Js.field k fs = Js.Undefined.
Proof.
  induction fs as [|[k' v'] fs IH]; [done|]. rewrite fmap_cons. cbn [fst Js.field].
  intros Hk. destruct (String.eqb_spec k' k) as [->|Hne].
  - exfalso. apply Hk. left.
  - apply IH. intros Hin. apply Hk. by right.
Qed.

Lemma field_reverse k (fs : list (string * Js.Val)) :
  NoDup fs.*1 → Js.field k (reverse fs) = Js.field k fs.
Proof.
  intros Hnd. destruct (decide (k ∈ fs.*1)) as [Hin|Hout].
  - apply list_elem_of_fmap in Hin as [[k' v] [-> Hin]]. cbn [fst].
    rewrite (field_unique k' v fs Hnd Hin). apply field_unique.
    + rewrite fmap_reverse. by apply (NoDup_Permutation_proper _ _ (reverse_Permutation _)).
    + by apply elem_of_reverse.
  - rewrite (field_absent k fs Hout). apply field_absent.
    rewrite fmap_reverse. by rewrite elem_of_reverse.
Qed.

Lemma spread_field k (fs o : list (string * Js.Val)) :
  Js.field k (foldl (λ o '(key, value), set_field key value o) o fs)
  = Js.field k (reverse fs ++ o).
Proof.
  revert o. induction fs as [|[key value] fs IH]; intros o; [done|].
  simpl. rewrite IH. rewrite reverse_cons, <-app_assoc.
  do 2 rewrite field_app. case_bool_decide; [done|]. simpl.
  destruct (String.eqb_spec key k) as [<-|Hne].
  - apply field_set_field_eq.
  - by apply field_set_field_ne.
Qed.

Lemma sent_keys k (fs : list (string * Js.Val)) :
  NoDup fs.*1 → k ∈ (sent fs).*1 ↔ Js.field k fs ≠ Js.Undefined.
Proof.
  induction fs as [|[k' v'] fs IH]; intros Hnd.
  - simpl. rewrite elem_of_nil. tauto.
  - rewrite fmap_cons in Hnd. apply NoDup_cons in Hnd as [Hk' Hnd]. cbn [fst] in Hk'.
    assert (k' ∉ (sent fs).*1) as Hk'sent.
    { intros [[k0 v0] [-> [_ Hin]%list_elem_of_filter]]%list_elem_of_fmap.
      apply Hk'. apply list_elem_of_fmap. by exists (k0, v0). }
    unfold sent in *. rewrite filter_cons. cbn [snd Js.field].
    destruct (String.eqb_spec k' k) as [->|Hne].
    + destruct (decide (is_undefined v' = false)) as [Hv|Hv].
      * rewrite fmap_cons. split; [|intros _; left]. intros _ ->. done.
      * split; [done|]. intros Hv'. exfalso. apply Hv. by destruct v'.
    + rewrite <-(IH Hnd).
      destruct (decide (is_undefined v' = false)); [|done].
      rewrite fmap_cons, elem_of_cons. cbn [fst]. split; [|tauto].
      by intros [->|?].
Qed.

Lemma sent_NoDup (fs : list (string * Js.Val)) : NoDup fs.*1 → NoDup (sent fs).*1.
Proof.
  intros Hnd. eapply sublist_NoDup; [exact Hnd|].
  apply fmap_sublist, sublist_filter.
Qed.

Lemma sent_field k (fs : list (string * Js.Val)) :
  NoDup fs.*1 → k ∈ (sent fs).*1 → Js.field k (sent fs) = Js.field k fs.
Proof.
  intros Hnd [[k' v] [-> Hin]]%list_elem_of_fmap. cbn [fst].
  rewrite (field_unique k' v (sent fs)); [|by apply sent_NoDup|done].
  symmetry. apply field_unique; [done|].
  by apply list_elem_of_filter in Hin as [_ Hin].
Qed.

Lemma peer_request_field k action (params : list (string * Js.Val)) :
  NoDup params.*1 →
  Js.field k (peer_request action params)
  = match Js.field k params with
    | Js.Undefined => if String.eqb "action" k then Js.Str action else Js.Undefined
    | v => v
    end.
Proof.
  intros Hnd. unfold peer_request. rewrite spread_field, field_app.
  rewrite fmap_reverse.
  rewrite (bool_decide_ext _ (k ∈ (sent params).*1)) by apply elem_of_reverse.
  case_bool_decide as Hin.
  - rewrite field_reverse by by apply sent_NoDup. rewrite sent_field by done.
    apply sent_keys in Hin; [|done]. by destruct (Js.field k params).
  - assert (Js.field k params = Js.Undefined) as ->; [|done].
    destruct (Js.field k params) eqn:E; try done;
      exfalso; apply Hin; apply sent_keys; try done; by rewrite E.
Qed.

(** X21.  The arguments of a tool call reach the handler of the peer under
    their converted names: the request the handler reads has, for every name
    but [action], the value the parameters have.  Its [action], by which the
    handler chooses what to do, is the name of the tool unless an argument
    converts to the name [action]: then it is the value of that argument.
    The action of a utility call is never replaced. *)
Theorem arguments_reach_the_handler (name : string) (args : list (string * Js.Val))
    (act : string) (fields : list (string * Js.Val)) (reply : Outcome → Content) :
  call_tool name args = Dispatches act (Js.Obj fields) reply →
  let request := peer_request act fields in
  (act = "call_utility"%string →
   Js.field "action" request = Js.Str "call_utility"
   ∧ Js.field "tabId" request = Js.field "tab_id" args)
  ∧ (act ≠ "call_utility"%string →
     act = name
     ∧ (∀ k, k ≠ "action"%string → Js.field k request = Js.field k (renamed args))
     ∧ Js.field "action" request
       = match Js.field "action" (renamed args) with
         | Js.Undefined => Js.Str name
         | v => v
         end
     ∧ (NoDup (camel_key <$> args.*1) →
        ∀ key value, (key, value) ∈ args → camel_key key ≠ "action"%string →
          Js.field (camel_key key) request = value)).
Proof.
  intros Hcall request.
  assert ((∃ u m g, act = "call_utility"%string
                    ∧ fields = [("tabId", Js.field "tab_id" args); ("utility", Js.Str u);
                                ("method", Js.Str m); ("args", Js.Arr g)])
          ∨ act ≠ "call_utility"%string ∧ act = name ∧ fields = camel_case_args args)
    as [(u & m & g & -> & ->)|(Hne & -> & ->)].
  { unfold call_tool in Hcall. destruct (route name) as [| | |u m a| |] eqn:Hr; try done.
    - right. injection Hcall as <- <-. split_and!; try done.
      intros ->. revert Hr. by vm_compute.
    - right. injection Hcall as <- <-. split_and!; try done.
      intros ->. revert Hr. by vm_compute.
    - destruct (negb _); [done|]. left. injection Hcall as <- <-. by eexists _, _, _.
    - by destruct (negb _). }
  - split; [|done]. intros _. unfold request.
    rewrite !peer_request_field by (apply (bool_decide_unpack _); vm_compute; exact I).
    split; [done|]. cbn. by destruct (Js.field "tab_id" args).
  - split; [done|]. intros _. split; [done|].
    destruct (camel_case_args_fields args) as (Hnd & Hfield & Hkeys & Hvalue).
    assert (∀ k, Js.field k request
                 = match Js.field k (renamed args) with
                   | Js.Undefined =>
                       if String.eqb "action" k then Js.Str name else Js.Undefined
                   | v => v
                   end) as Hreq.
    { intros k. unfold request. by rewrite (peer_request_field _ _ _ Hnd), Hfield. }
    split_and!.
    + intros k Hk. rewrite Hreq.
      rewrite (proj2 (String.eqb_neq "action" k)) by done.
      by destruct (Js.field k (renamed args)).
    + by rewrite Hreq.
    + intros Hnd' key value Hin Hk. rewrite Hreq, <-Hfield, (Hvalue Hnd' key value Hin).
      rewrite (proj2 (String.eqb_neq "action" (camel_key key))) by done.
      by destruct value.
Qed.

Lemma arguments_sample :
  Js.field "action"
    (peer_request "list_tabs" (camel_case_args [("action", Js.Str "get_status")]))
  = Js.Str "get_status".
Proof.
  apply (proj2 (arguments_reach_the_handler "list_tabs" [("action", Js.Str "get_status")]
                  "list_tabs" (camel_case_args [("action", Js.Str "get_status")])
                  command_reply eq_refl)).
  discriminate.
Defined.

(** ** The log of the service worker *)

Lemma captureLog_latest entry (c : list LogEntry) :
  captureLog entry (drop (length c - MAX_LOGS) c)
  = drop (length (c ++ [entry]) - MAX_LOGS) (c ++ [entry]).
Proof.
  unfold captureLog, MAX_LOGS. rewrite !length_app, length_drop. cbn [length].
  destruct (decide (length c < 500)%nat) as [Hlt|Hge].
  - replace (length c - 500)%nat with 0%nat by lia.
    replace (length c + 1 - 500)%nat with 0%nat by lia. rewrite !drop_0.
    destruct (Nat.ltb_spec 500 (length c - 0 + 1)); [lia|done].
  - destruct (Nat.ltb_spec 500 (length c - (length c - 500) + 1)); [|lia].
    replace (length c + 1 - 500)%nat with (S (length c - 500)) by lia.
    rewrite drop_app_le by lia.
    destruct (drop (length c - 500) c) as [|x l] eqn:E.
    + apply (f_equal length) in E. rewrite length_drop in E. simpl in E. lia.
    + simpl. f_equal.
      change l with (drop 1 (x :: l)). rewrite <-E, drop_drop. f_equal. lia.
Qed.

Lemma logged_snoc events e :
  logged (events ++ [e])
  = match e with Captures entry => logged events ++ [entry] | ClearsLogs => [] end.
Proof. unfold logged. by rewrite foldl_app. Qed.

Lemma serviceWorkerLogs_latest events :
  serviceWorkerLogs events = drop (length (logged events) - MAX_LOGS) (logged events).
Proof.
  induction events as [|e events IH] using rev_ind; [done|].
  rewrite logged_snoc. unfold serviceWorkerLogs in *. rewrite foldl_app. cbn [foldl].
  rewrite IH. destruct e as [entry|]; [|done]. apply captureLog_latest.
Qed.

(** X22.  The log of the service worker holds the last 500 entries logged
    since it was last cleared, in the order they were logged.  A query of it
    answers with the last [limit] entries (100 when no limit is given) of
    the level asked for, and a [total] that counts the whole log whatever
    the level. *)
Theorem service_worker_log_keeps_the_latest (events : list LogEvent)
    (limit : option Z) (level : option string) :
  let logs := serviceWorkerLogs events in
  let n := number_or limit 100 in
  let m := filter (of_level level) logs in
  logs = drop (length (logged events) - 500) (logged events)
  ∧ (length logs ≤ 500)%nat
  ∧ (get_service_worker_logs limit level logs).2 = length logs
  ∧ (0 < n → (get_service_worker_logs limit level logs).1 = drop (length m - Z.to_nat n) m).
Proof.
  intros logs n m.
  assert (logs = drop (length (logged events) - 500) (logged events)) as Hlogs
    by apply serviceWorkerLogs_latest.
  split_and!; [done| |done|].
  - rewrite Hlogs, length_drop. lia.
  - intros Hn. unfold get_service_worker_logs. cbn [fst]. fold n.
    assert (match truthy_string level with
            | Some f => filter (λ log, log_level log = f) logs
            | None => logs
            end = m) as ->.
    { unfold m. destruct (truthy_string level) as [f|] eqn:E.
      - apply list_filter_iff. intros log. unfold of_level. by rewrite E.
      - symmetry. apply filter_all. intros log _. unfold of_level. by rewrite E. }
    by apply slice_from_neg.
Qed.

Lemma service_worker_log_sample :
  0 < number_or (Some 1) 100
  ∧ (get_service_worker_logs (Some 1) (Some "error"%string)
       (serviceWorkerLogs
          [Captures (mkLogEntry "t1" "error" "a"); Captures (mkLogEntry "t2" "log" "b");
           Captures (mkLogEntry "t3" "error" "c")])).1
    = [mkLogEntry "t3" "error" "c"].
Proof.
  split; [reflexivity|].
  etrans; [|reflexivity].
  apply (proj2 (proj2 (proj2 (service_worker_log_keeps_the_latest
           [Captures (mkLogEntry "t1" "error" "a"); Captures (mkLogEntry "t2" "log" "b");
            Captures (mkLogEntry "t3" "error" "c")]
           (Some 1) (Some "error"%string))))).
  reflexivity.
Defined.
